(** * Alpha Smart Router: the concurrency core, embedded in Rocq

    A shallow embedding of
    - [SpscQueue]        (include/alpha/mem/spsc_queue.hpp),
    - the metrics seqlock and the three path-selection policies
                         (src/alpha/routing/path_selection.cpp),
    - the policy binding (src/alpha/routing/policy_binding.cpp),
    - [ServiceRegistry]  (src/alpha/routing/service_registry.cpp),
    - [PacketPool]       (src/alpha/mem/packet_pool.cpp),
    - [IngressSelector] and [SimulatedBgpOracle]
                         (src/alpha/routing/ingress_selector.cpp,
                          src/alpha/routing/bgp_oracle_sim.cpp),
    - [QoSPolicy] and [FailoverPolicy]
                         (src/alpha/routing/qos_policy.cpp,
                          src/alpha/routing/failover_policy.cpp),
    together with the properties of these components.

    Conventions.  Unsigned machine integers are [Z] with the wrap-around
    written out ([wrap32], [wrap64]).  Atomics are plain fields; where a
    reader races with a writer, the reader is run against a time-indexed
    view of the memory it loads from, one tick per load.  What the code
    asks of its element type and of the free store is a type class
    ([Element], [Platform]); a call of the ring returns an [outcome],
    which tells a return from undefined behaviour and from
    [std::terminate]. *)

From Stdlib Require Import ZArith Lia List Bool String Ascii.
From Stdlib Require Sorted OrderedTypeEx.
From Stdlib Require Floats.PrimFloat Numbers.Cyclic.Int63.PrimInt63.
From stdpp Require Import base option list strings gmap fin_maps.

Local Open Scope Z_scope.

(** ** Machine integers *)

Definition wrap32 (z : Z) : Z := z mod 2 ^ 32.
Definition wrap64 (z : Z) : Z := z mod 2 ^ 64.

(** ** Element types and the free store *)

(** What the ring's template reads off its element type [T]: [sizeof(T)]
    and the two type traits behind [SpscTraits<T>::ok]. *)
Class Element (T : Type) : Type := mkElement {
  sizeof : Z;
  is_trivially_copyable : bool;
  is_nothrow_move_constructible : bool;
  sizeof_range : 0 < sizeof < 2 ^ 64
}.

Arguments sizeof T {_}.
Arguments is_trivially_copyable T {_}.
Arguments is_nothrow_move_constructible T {_}.
Arguments sizeof_range T {_}.

(** What the process leaves to an allocation: [grants n] tells whether
    [operator new] satisfies a request of [n] bytes (it throws
    [std::bad_alloc] otherwise), and [vector_max_bytes] is the byte limit
    from which [std::vector<T>::max_size()] is derived, as
    [vector_max_bytes / sizeof(T)]: [PTRDIFF_MAX] in libstdc++, [SIZE_MAX]
    in libc++. *)
Class Platform : Type := mkPlatform {
  grants : Z -> bool;
  vector_max_bytes : Z;
  vector_max_bytes_range : 0 <= vector_max_bytes < 2 ^ 64
}.

(** [int], [std::uint32_t] and [PacketHandle]: four bytes, trivially
    copyable. *)
#[global] Instance Element_int : Element Z :=
  {| sizeof := 4;
     is_trivially_copyable := true;
     is_nothrow_move_constructible := true;
     sizeof_range := conj eq_refl eq_refl |}.

(** The platform of the concrete runs below: libstdc++ on a 64-bit target,
    with room for every request of at most 4 GiB. *)
#[global] Instance Platform_lp64 : Platform :=
  {| grants := fun bytes => bytes <=? 2 ^ 32;
     vector_max_bytes := 2 ^ 63 - 1;
     vector_max_bytes_range := ltac:(lia) |}.

(** ** A. The SPSC ring *)

Module Spsc.

Inductive SpscError : Type :=
| CapacityZero
| CapacityNotPowerOfTwo
| AllocationFailed
| ElementNotNothrowMovable.

(** How a call ends: it returns; or the language leaves its behaviour
    undefined (an access outside the storage, the use of an object that
    was never constructed); or the process is ended by [std::terminate]. *)
Inductive outcome (A : Type) : Type :=
| Returns (a : A)
| Undefined
| Terminates.

Arguments Returns {A} a.
Arguments Undefined {A}.
Arguments Terminates {A}.

Definition bind {A B : Type} (o : outcome A) (k : A -> outcome B) : outcome B :=
  match o with
  | Returns a => k a
  | Undefined => Undefined
  | Terminates => Terminates
  end.

Section Queue.

Context {T : Type} {ET : Element T} {PF : Platform}.

(** [SpscTraits<T>::ok] *)
Definition SpscTraits_ok : bool :=
  is_trivially_copyable T || is_nothrow_move_constructible T.

(** [buf_] is the storage obtained from [operator new[]], one entry per
    cell: a cell is [None] until an element has been assigned to it (no
    [T] is constructed there by the factory).  Indices are [size_t]. *)
Record SpscQueue : Type := mkQueue {
  head_ : Z;
  tail_ : Z;
  buf_ : list (option T);
  capacity_ : Z;
  mask_ : Z
}.

(** The factory is [noexcept] and asks the throwing [operator new[]] for
    [capacity_pow2 * sizeof(T)] bytes, a product in [size_t]: a request
    that is not satisfied ends in [std::terminate], so the null test that
    follows (the [AllocationFailed] branch) is never taken, and the
    storage has as many cells as fit the bytes asked for. *)
Definition with_capacity (capacity_pow2 : Z) : outcome (SpscError + SpscQueue) :=
  if capacity_pow2 =? 0 then Returns (inl CapacityZero)
  else if negb (Z.land capacity_pow2 (wrap64 (capacity_pow2 - 1)) =? 0)
  then Returns (inl CapacityNotPowerOfTwo)
  else if negb SpscTraits_ok then Returns (inl ElementNotNothrowMovable)
  else
    let bytes := wrap64 (capacity_pow2 * sizeof T) in
    if negb (grants bytes) then Terminates
    else Returns (inr {| head_ := 0; tail_ := 0;
                         buf_ := replicate (Z.to_nat (bytes / sizeof T)) None;
                         capacity_ := capacity_pow2;
                         mask_ := wrap64 (capacity_pow2 - 1) |}).

(** [buf_[t] = v; tail_.store(n)] *)
Definition store (v : T) (q : SpscQueue) : SpscQueue :=
  {| head_ := head_ q;
     tail_ := Z.land (wrap64 (tail_ q + 1)) (mask_ q);
     buf_ := <[Z.to_nat (tail_ q) := Some v]> (buf_ q);
     capacity_ := capacity_ q; mask_ := mask_ q |}.

(** [buf_[t] = v] is an assignment: outside the storage it is undefined,
    and so it is on a cell that holds no object yet unless [T] is
    trivially copyable. *)
Definition push (v : T) (q : SpscQueue) : outcome (bool * SpscQueue) :=
  let t := tail_ q in
  let n := Z.land (wrap64 (t + 1)) (mask_ q) in
  if n =? head_ q then Returns (false, q)
  else
    match buf_ q !! Z.to_nat t with
    | None => Undefined
    | Some None =>
        if is_trivially_copyable T then Returns (true, store v q)
        else Undefined
    | Some (Some _) => Returns (true, store v q)
    end.

(** [out] is the caller's variable: left alone when the ring is empty.
    [out = std::move(buf_[h])] reads the cell: outside the storage, or on
    a cell never assigned, that is undefined. *)
Definition pop (out : T) (q : SpscQueue) : outcome (bool * T * SpscQueue) :=
  let h := head_ q in
  if h =? tail_ q then Returns (false, out, q)
  else
    match buf_ q !! Z.to_nat h with
    | Some (Some x) =>
        Returns (true, x,
                 {| head_ := Z.land (wrap64 (h + 1)) (mask_ q);
                    tail_ := tail_ q;
                    buf_ := buf_ q; capacity_ := capacity_ q;
                    mask_ := mask_ q |})
    | _ => Undefined
    end.

Definition empty (q : SpscQueue) : bool := head_ q =? tail_ q.

Definition full (q : SpscQueue) : bool :=
  Z.land (wrap64 (tail_ q + 1)) (mask_ q) =? head_ q.

Definition capacity (q : SpscQueue) : Z := capacity_ q.

Definition approx_size (q : SpscQueue) : Z :=
  Z.land (wrap64 (wrap64 (tail_ q + capacity_ q) - head_ q)) (mask_ q).

(** *** Sequential clients *)

(** One call by the producer or by the consumer. *)
Inductive op : Type :=
| Push (v : T)
| Pop.

(** What the call returned. *)
Inductive result : Type :=
| Pushed (v : T) (ok : bool)
| Popped (r : option T).

Definition step (dflt : T) (o : op) (q : SpscQueue) : outcome (result * SpscQueue) :=
  match o with
  | Push v => bind (push v q) (fun '(ok, q') => Returns (Pushed v ok, q'))
  | Pop => bind (pop dflt q) (fun '(ok, x, q') =>
             Returns (Popped (if ok then Some x else None), q'))
  end.

Fixpoint run (dflt : T) (ops : list op) (q : SpscQueue)
  : outcome (list result * SpscQueue) :=
  match ops with
  | [] => Returns ([], q)
  | o :: ops' =>
      bind (step dflt o q) (fun '(r, q1) =>
      bind (run dflt ops' q1) (fun '(rs, q2) =>
      Returns (r :: rs, q2)))
  end.

(** [for (v : vs) ok.push_back(q.push(v))] *)
Fixpoint push_all (vs : list T) (q : SpscQueue) : outcome (list bool * SpscQueue) :=
  match vs with
  | [] => Returns ([], q)
  | v :: vs' =>
      bind (push v q) (fun '(ok, q1) =>
      bind (push_all vs' q1) (fun '(oks, q2) =>
      Returns (ok :: oks, q2)))
  end.

(** [while (q.pop(v)) out.push_back(v)], at most [fuel] rounds. *)
Fixpoint drain (fuel : nat) (v : T) (q : SpscQueue) : outcome (list T * SpscQueue) :=
  match fuel with
  | O => Returns ([], q)
  | S fuel' =>
      bind (pop v q) (fun '(ok, x, q1) =>
      if ok then bind (drain fuel' x q1) (fun '(xs, q2) => Returns (x :: xs, q2))
      else Returns ([], q1))
  end.

(** Values accepted by the ring / handed out by the ring, in call order. *)
Fixpoint accepted (rs : list result) : list T :=
  match rs with
  | [] => []
  | Pushed v true :: rs' => v :: accepted rs'
  | _ :: rs' => accepted rs'
  end.

Fixpoint delivered (rs : list result) : list T :=
  match rs with
  | [] => []
  | Popped (Some x) :: rs' => x :: delivered rs'
  | _ :: rs' => delivered rs'
  end.

(** *** The ring as a bounded FIFO *)

(** A capacity [with_capacity] accepts: a power of two that fits [size_t]. *)
Definition pow2_capacity (C : Z) : Prop := exists k, 0 <= k < 64 /\ C = 2 ^ k.

(** [Repr C q l]: [q] is a ring of capacity [C] holding exactly [l],
    oldest element first. *)
Record Repr (C : Z) (q : SpscQueue) (l : list T) : Prop := mkRepr {
  repr_pow2 : pow2_capacity C;
  repr_cap : capacity_ q = C;
  repr_mask : mask_ q = C - 1;
  repr_head : 0 <= head_ q < C;
  repr_len : Z.of_nat (length l) < C;
  repr_tail : tail_ q = (head_ q + Z.of_nat (length l)) mod C;
  repr_cells : forall (i : nat) (x : T),
      l !! i = Some x ->
      buf_ q !! Z.to_nat ((head_ q + Z.of_nat i) mod C) = Some (Some x)
}.

(** The storage has a cell for every index below the capacity: the ring
    owns what its capacity promises. *)
Definition whole (q : SpscQueue) : Prop :=
  length (buf_ q) = Z.to_nat (capacity_ q).

(** Calls that returned success. *)
Definition pushes_ok (rs : list result) : Z := Z.of_nat (length (accepted rs)).
Definition pops_ok (rs : list result) : Z := Z.of_nat (length (delivered rs)).

End Queue.

Arguments SpscQueue T : clear implicits.
Arguments op T : clear implicits.
Arguments result T : clear implicits.

(** A ring of capacity 8 as [with_capacity] returns it. *)
Definition ring8 : SpscQueue Z :=
  {| head_ := 0; tail_ := 0; buf_ := replicate 8 None; capacity_ := 8;
     mask_ := 7 |}.

(** What [SpscQueue<int>::with_capacity(1 << 62)] returns where a request
    of zero bytes is satisfied: [2^62 * 4] is [2^64], which is 0 in
    [size_t]. *)
Definition ring_2_62 : SpscQueue Z :=
  {| head_ := 0; tail_ := 0; buf_ := []; capacity_ := 2 ^ 62;
     mask_ := 2 ^ 62 - 1 |}.

(** The single-thread scenario of the ring tests: capacity 8, push 0..6,
    pop three, push 100..102, drain.  Yields the push results, the three
    popped values, the second push results and the drained sequence. *)
Definition ring_order_scenario
  : outcome (SpscError + list bool * list (option Z) * list bool * list Z * bool) :=
  bind (with_capacity (T := Z) 8) (fun made =>
  match made with
  | inl e => Returns (inl e)
  | inr q =>
      bind (push_all [0; 1; 2; 3; 4; 5; 6] q) (fun '(oks1, q) =>
      bind (run 0 [Pop; Pop; Pop] q) (fun '(rs, q) =>
      bind (push_all [100; 101; 102] q) (fun '(oks2, q) =>
      bind (drain 8 0 q) (fun '(xs, q) =>
      Returns (inr (oks1,
                    map (fun r => match r with Popped x => x | Pushed _ _ => None end) rs,
                    oks2, xs, empty q))))))
  end).

End Spsc.

(** ** C, E. Metrics seqlock and path-selection policies *)

Module Routing.

(** [PathId] is [std::uint32_t]; 0 means "no path chosen". *)
Abbreviation PathId := Z (only parsing).

Record PathMetrics : Type := mkPathMetrics {
  rtt_us : Z;
  one_way_delay_us : Z;
  loss_ppm : Z;
  avail_kbps : Z;
  qos_class : Z;
  healthy : bool
}.

(** [PathMetrics{}] *)
Definition PathMetrics_init : PathMetrics :=
  {| rtt_us := 2 ^ 32 - 1; one_way_delay_us := 2 ^ 32 - 1; loss_ppm := 0;
     avail_kbps := 0; qos_class := 0; healthy := false |}.

Record MetricsSlot : Type := mkMetricsSlot {
  seq : Z;
  metrics : PathMetrics
}.

Definition MetricsSlot_init : MetricsSlot :=
  {| seq := 0; metrics := PathMetrics_init |}.

(** Address of a [MetricsSlot]. *)
Abbreviation slot_ptr := nat (only parsing).

Record CandidateRef : Type := mkCandidateRef {
  id : PathId;
  slot : slot_ptr
}.

Record PacketContext : Type := mkPacketContext {
  flow_hash : Z;
  dscp : Z
}.

(** *** Writer: [cp::update_metrics] *)

Definition store_seq (x : Z) (s : MetricsSlot) : MetricsSlot :=
  {| seq := x; metrics := metrics s |}.

Definition store_metrics (m : PathMetrics) (s : MetricsSlot) : MetricsSlot :=
  {| seq := seq s; metrics := m |}.

(** The three stores of one call, as the states a reader may observe. *)
Definition update_metrics_trace (s : MetricsSlot) (m : PathMetrics)
  : list MetricsSlot :=
  let start := seq s in
  let s1 := store_seq (Z.lor start 1) s in
  let s2 := store_metrics m s1 in
  let s3 := store_seq (wrap32 (Z.lor start 1 + 1)) s2 in
  [s1; s2; s3].

Definition update_metrics (s : MetricsSlot) (m : PathMetrics) : MetricsSlot :=
  let start := seq s in
  let s := store_seq (Z.lor start 1) s in
  let s := store_metrics m s in
  store_seq (wrap32 (Z.lor start 1 + 1)) s.

(** *** Reader: [dp::load_metrics] *)

(** What a reader sees of one slot: its content at each of the reader's
    loads, numbered by a clock that ticks once per load.  Any behaviour of
    a concurrent writer is some such view. *)
Abbreviation SlotView := (nat -> MetricsSlot) (only parsing).

(** The [for (int i=0;i<4;++i)] loop with [iters] rounds left.  Returns
    the result, the caller's [out] and the clock. *)
Fixpoint load_metrics_loop (iters : nat) (v : SlotView) (out : PathMetrics)
  (t : nat) : bool * PathMetrics * nat :=
  match iters with
  | O => (false, out, t)
  | S iters' =>
      let s1 := seq (v t) in
      if negb (Z.land s1 1 =? 0) then load_metrics_loop iters' v out (t + 1)%nat
      else
        let snap := metrics (v (t + 1)%nat) in
        let s2 := seq (v (t + 2)%nat) in
        if (s1 =? s2) && (s2 mod 2 =? 0) then (true, snap, (t + 3)%nat)
        else load_metrics_loop iters' v out (t + 3)%nat
  end.

Definition load_metrics (v : SlotView) (out : PathMetrics) (t : nat)
  : bool * PathMetrics * nat :=
  load_metrics_loop 4 v out t.

(** Number of loop bodies the same run executes. *)
Fixpoint load_metrics_rounds (iters : nat) (v : SlotView) (t : nat) : nat :=
  match iters with
  | O => O
  | S iters' =>
      let s1 := seq (v t) in
      if negb (Z.land s1 1 =? 0) then S (load_metrics_rounds iters' v (t + 1)%nat)
      else
        let s2 := seq (v (t + 2)%nat) in
        if (s1 =? s2) && (s2 mod 2 =? 0) then 1%nat
        else S (load_metrics_rounds iters' v (t + 3)%nat)
  end.

(** Tick at which the accepting loop body starts, if one of the [iters]
    bodies accepts. *)
Fixpoint accepting_round (iters : nat) (v : SlotView) (t : nat) : option nat :=
  match iters with
  | O => None
  | S iters' =>
      let s1 := seq (v t) in
      if negb (Z.land s1 1 =? 0) then accepting_round iters' v (t + 1)%nat
      else
        let s2 := seq (v (t + 2)%nat) in
        if (s1 =? s2) && (s2 mod 2 =? 0) then Some t
        else accepting_round iters' v (t + 3)%nat
  end.

(** One loop body starting at tick [t] accepts. *)
Definition accepts_at (v : SlotView) (t : nat) : Prop :=
  Z.land (seq (v t)) 1 = 0 /\
  seq (v t) = seq (v (t + 2)%nat) /\
  seq (v (t + 2)%nat) mod 2 = 0.

(** A view of a slot nobody writes to. *)
Definition quiet (s : MetricsSlot) : SlotView := fun _ => s.

(** A view of a slot during one [update_metrics s m] that starts right
    after the reader's tick [t0]: one store per tick. *)
Definition during_update (s : MetricsSlot) (m : PathMetrics) (t0 : nat)
  : SlotView :=
  fun t => if (t <=? t0)%nat then s
           else nth (t - t0 - 1) (update_metrics_trace s m) (update_metrics s m).

Definition qos_match (path_class : Z) (dscp : Z) : bool :=
  negb (path_class =? 0).

(** *** Policies *)

(** All slots, as seen at each load of the calling worker. *)
Abbreviation World := (nat -> slot_ptr -> MetricsSlot) (only parsing).

Definition view_of (w : World) (p : slot_ptr) : SlotView := fun t => w t p.

(** [CandidateRef{}] *)
Definition CandidateRef_init : CandidateRef := {| id := 0; slot := O |}.

(** [cands[k]]: the span is not bounds-checked; every use below is
    proved in range. *)
Definition at_ (cands : list CandidateRef) (k : Z) : CandidateRef :=
  nth (Z.to_nat k) cands CandidateRef_init.

(** The scan loop of [RoundRobinPolicy::choose] and of
    [FlowHashPolicy::choose]:
    [for (i=0;i<n;++i) { k=(base+i)%n; if (load && m.healthy) return id; }]
    with [todo] rounds left; [None] when the loop runs out. *)
Fixpoint scan_healthy (w : World) (cands : list CandidateRef) (n base : Z)
  (todo : nat) (i : Z) (m : PathMetrics) (t : nat) : option PathId * nat :=
  match todo with
  | O => (None, t)
  | S todo' =>
      let k := wrap32 (base + i) mod n in
      let '(ok, m', t') := load_metrics (view_of w (slot (at_ cands k))) m t in
      if ok && healthy m' then (Some (id (at_ cands k)), t')
      else scan_healthy w cands n base todo' (i + 1) m' t'
  end.

(** Returns the path, the new [idx_] and the clock. *)
Definition RoundRobin_choose (w : World) (idx_ : Z)
  (cands : list CandidateRef) (pkt : PacketContext) (t : nat)
  : PathId * Z * nat :=
  let n := wrap32 (Z.of_nat (length cands)) in
  if n =? 0 then (0, idx_, t)
  else
    let start := idx_ mod n in
    let idx' := wrap32 (idx_ + 1) in
    match scan_healthy w cands n start (Z.to_nat n) 0 PathMetrics_init t with
    | (Some r, t') => (r, idx', t')
    | (None, t') => (id (at_ cands start), idx', t')
    end.

Definition FlowHash_choose (w : World) (skip_unhealthy_ : bool)
  (cands : list CandidateRef) (pkt : PacketContext) (t : nat)
  : PathId * nat :=
  let n := wrap32 (Z.of_nat (length cands)) in
  if n =? 0 then (0, t)
  else
    let base := flow_hash pkt mod n in
    if negb skip_unhealthy_ then (id (at_ cands base), t)
    else
      match scan_healthy w cands n base (Z.to_nat n) 0 PathMetrics_init t with
      | (Some r, t') => (r, t')
      | (None, t') => (id (at_ cands base), t')
      end.

Record LatencyAwareConfig : Type := mkLatencyAwareConfig {
  tie_margin_us : Z;
  explore_ppm : Z;
  prefer_qos_class : bool
}.

Definition LatencyAwareConfig_init : LatencyAwareConfig :=
  {| tie_margin_us := 200; explore_ppm := 0; prefer_qos_class := true |}.

(** [salt_]'s initial value, 0xA5A55A5A. *)
Definition salt_init : Z := 2779077210.

(** [XorShift32]: the value is its [state]. *)
Definition XorShift32_seed (seed : Z) : Z :=
  if seed =? 0 then 2654435769 else seed.

Definition XorShift32_next (state : Z) : Z :=
  let x := state in
  let x := Z.lxor x (wrap32 (Z.shiftl x 13)) in
  let x := Z.lxor x (Z.shiftr x 17) in
  let x := Z.lxor x (wrap32 (Z.shiftl x 5)) in
  x.

(** Returns the draw and the new state. *)
Definition XorShift32_next_bounded (b : Z) (state : Z) : Z * Z :=
  if b =? 0 then (0, state)
  else let x := XorShift32_next state in (x mod b, x).

(** Healthy pass, rounds [i .. size): returns [best], [have_best],
    [bestm], [m] and the clock. *)
Fixpoint healthy_pass (w : World) (cfg_ : LatencyAwareConfig)
  (cands : list CandidateRef) (pkt : PacketContext) (todo : nat) (i : Z)
  (best : Z) (have_best : bool) (bestm m : PathMetrics) (t : nat)
  : Z * bool * PathMetrics * PathMetrics * nat :=
  match todo with
  | O => (best, have_best, bestm, m, t)
  | S todo' =>
      let '(ok, m, t) := load_metrics (view_of w (slot (at_ cands i))) m t in
      if negb ok || negb (healthy m) then
        healthy_pass w cfg_ cands pkt todo' (i + 1) best have_best bestm m t
      else if negb have_best || (rtt_us m <? rtt_us bestm) then
        healthy_pass w cfg_ cands pkt todo' (i + 1) i true m m t
      else if prefer_qos_class cfg_ then
        let close := rtt_us m <=? wrap32 (rtt_us bestm + tie_margin_us cfg_) in
        if close && qos_match (qos_class m) (dscp pkt)
           && negb (qos_match (qos_class bestm) (dscp pkt))
        then healthy_pass w cfg_ cands pkt todo' (i + 1) i have_best m m t
        else healthy_pass w cfg_ cands pkt todo' (i + 1) best have_best bestm m t
      else healthy_pass w cfg_ cands pkt todo' (i + 1) best have_best bestm m t
  end.

(** Fallback pass: returns [idx], [init], [m] and the clock. *)
Fixpoint min_rtt_pass (w : World) (cands : list CandidateRef) (todo : nat)
  (i : Z) (idx : Z) (minm : PathMetrics) (init : bool) (m : PathMetrics)
  (t : nat) : Z * bool * PathMetrics * nat :=
  match todo with
  | O => (idx, init, m, t)
  | S todo' =>
      let '(ok, m, t) := load_metrics (view_of w (slot (at_ cands i))) m t in
      if negb ok then min_rtt_pass w cands todo' (i + 1) idx minm init m t
      else if negb init || (rtt_us m <? rtt_us minm) then
        min_rtt_pass w cands todo' (i + 1) i m true m t
      else min_rtt_pass w cands todo' (i + 1) idx minm init m t
  end.

(** Exploration scan: [Some] path when the loop returns from inside. *)
Fixpoint explore_scan (w : World) (cands : list CandidateRef) (n start : Z)
  (best : Z) (todo : nat) (i : Z) (m : PathMetrics) (t : nat)
  : option PathId * nat :=
  match todo with
  | O => (None, t)
  | S todo' =>
      let k := wrap32 (start + i) mod n in
      if negb (k =? best) then
        let '(ok, m', t') := load_metrics (view_of w (slot (at_ cands k))) m t in
        if ok && healthy m' then (Some (id (at_ cands k)), t')
        else explore_scan w cands n start best todo' (i + 1) m' t'
      else explore_scan w cands n start best todo' (i + 1) m t
  end.

(** Returns the path, the new [salt_] and the clock. *)
Definition LatencyAware_choose (w : World) (cfg_ : LatencyAwareConfig)
  (salt_ : Z) (cands : list CandidateRef) (pkt : PacketContext) (t : nat)
  : PathId * Z * nat :=
  match cands with
  | [] => (0, salt_, t)
  | _ =>
    let size := length cands in
    let '(best, have_best, bestm, m, t) :=
      healthy_pass w cfg_ cands pkt size 0 0 false
                   PathMetrics_init PathMetrics_init t in
    if negb have_best then
      let '(idx, init, m, t) :=
        min_rtt_pass w cands size 0 0 PathMetrics_init false m t in
      (id (at_ cands (if init then idx else 0)), salt_, t)
    else if negb (explore_ppm cfg_ =? 0) then
      let rng := XorShift32_seed (Z.lxor (flow_hash pkt) salt_) in
      let '(draw, rng) := XorShift32_next_bounded 1000000 rng in
      if draw <? explore_ppm cfg_ then
        let n := wrap32 (Z.of_nat size) in
        let '(start, rng) := XorShift32_next_bounded n rng in
        match explore_scan w cands n start best (Z.to_nat n) 0 m t with
        | (Some r, t') => (r, wrap32 (salt_ + 40503), t')
        | (None, t') => (id (at_ cands best), salt_, t')
        end
      else (id (at_ cands best), salt_, t)
    else (id (at_ cands best), salt_, t)
  end.

(** No call of [load_metrics] succeeds in [w]. *)
Definition unreadable (w : World) : Prop :=
  forall (p : slot_ptr) (out : PathMetrics) (t : nat),
    (load_metrics (view_of w p) out t).1.1 = false.

(** A world whose writers all stalled inside an update. *)
Definition stalled_world : World :=
  fun _ _ => {| seq := 1; metrics := PathMetrics_init |}.

(** A world of freshly constructed slots, never written. *)
Definition idle_world : World := fun _ _ => MetricsSlot_init.

(** Slot 2 published healthy metrics once; the other slots are fresh. *)
Definition healthy_metrics : PathMetrics :=
  {| rtt_us := 100; one_way_delay_us := 50; loss_ppm := 0; avail_kbps := 1000;
     qos_class := 1; healthy := true |}.

Definition one_healthy_world : World :=
  fun _ p => if Nat.eqb p 2 then update_metrics MetricsSlot_init healthy_metrics
             else MetricsSlot_init.

Definition two_cands : list CandidateRef :=
  [ {| id := 7; slot := 1%nat |}; {| id := 9; slot := 2%nat |} ].

Definition some_pkt : PacketContext := {| flow_hash := 12345; dscp := 46 |}.


End Routing.

(** ** F. Policy binding *)

Module Binding.

Section Dp.

(** The memory a policy runs against: its own object, the metrics slots,
    the worker's clock. *)
Variable Heap : Type.

(** [void*]; a null pointer is [None] where the field is declared. *)
Abbreviation void_ptr := nat (only parsing).

(** The function-pointer type [ChooseFn]: state pointer, candidates and
    packet context in, path out. *)
Definition ChooseFn : Type :=
  void_ptr -> list Routing.CandidateRef -> Routing.PacketContext -> Heap ->
  Z * Heap.

Record PolicyBinding : Type := mkPolicyBinding {
  seq : Z;
  fn : option ChooseFn;
  state : option void_ptr
}.

Definition PolicyBinding_init : PolicyBinding :=
  {| seq := 0; fn := None; state := None |}.

(** [cp::publish_policy<Policy>(b, policy)]: [thunk] is
    [&detail::choose_thunk<Policy>], [policy] the object's address. *)
Definition publish_policy_trace (b : PolicyBinding) (thunk : ChooseFn)
  (policy : void_ptr) : list PolicyBinding :=
  let start := seq b in
  let b1 := {| seq := Z.lor start 1; fn := fn b; state := state b |} in
  let b2 := {| seq := seq b1; fn := fn b1; state := Some policy |} in
  let b3 := {| seq := seq b2; fn := Some thunk; state := state b2 |} in
  let b4 := {| seq := wrap32 (Z.lor start 1 + 1); fn := fn b3;
               state := state b3 |} in
  [b1; b2; b3; b4].

Definition publish_policy (b : PolicyBinding) (thunk : ChooseFn)
  (policy : void_ptr) : PolicyBinding :=
  let start := seq b in
  let b := {| seq := Z.lor start 1; fn := fn b; state := state b |} in
  let b := {| seq := seq b; fn := fn b; state := Some policy |} in
  let b := {| seq := seq b; fn := Some thunk; state := state b |} in
  {| seq := wrap32 (Z.lor start 1 + 1); fn := fn b; state := state b |}.

Definition clear_policy (b : PolicyBinding) : PolicyBinding :=
  let start := seq b in
  let b := {| seq := Z.lor start 1; fn := fn b; state := state b |} in
  let b := {| seq := seq b; fn := None; state := state b |} in
  let b := {| seq := seq b; fn := fn b; state := None |} in
  {| seq := wrap32 (Z.lor start 1 + 1); fn := fn b; state := state b |}.

(** The binding at each load of the reading worker. *)
Abbreviation BindingView := (nat -> PolicyBinding) (only parsing).

Definition non_null {A : Type} (p : option A) : bool :=
  match p with Some _ => true | None => false end.

(** The retry loop of [dp::snapshot_binding] with [iters] rounds left:
    result, [out_fn], [out_state], clock. *)
Fixpoint snapshot_binding_loop (iters : nat) (v : BindingView) (t : nat)
  : bool * option ChooseFn * option void_ptr * nat :=
  match iters with
  | O => (false, None, None, t)
  | S iters' =>
      let s1 := seq (v t) in
      if negb (Z.land s1 1 =? 0) then snapshot_binding_loop iters' v (t + 1)%nat
      else
        let f := fn (v (t + 1)%nat) in
        let st := state (v (t + 2)%nat) in
        let s2 := seq (v (t + 3)%nat) in
        if (s1 =? s2) && (s2 mod 2 =? 0)
        then (non_null f && non_null st, f, st, (t + 4)%nat)
        else snapshot_binding_loop iters' v (t + 4)%nat
  end.

Definition snapshot_binding (v : BindingView) (t : nat)
  : bool * option ChooseFn * option void_ptr * nat :=
  snapshot_binding_loop 4 v t.

(** [dp::select_path]: path, heap after the policy ran, clock.  The call
    [fn(st, cands, pkt)] is reached only with both pointers non-null. *)
Definition select_path (v : BindingView)
  (cands : list Routing.CandidateRef) (pkt : Routing.PacketContext)
  (h : Heap) (t : nat) : Z * Heap * nat :=
  let '(ok, f, st, t') := snapshot_binding v t in
  if negb ok then (0, h, t')
  else
    match f, st with
    | Some f, Some st => let '(r, h') := f st cands pkt h in (r, h', t')
    | _, _ => (0, h, t')
    end.

(** Tick at which the round that yields a stable snapshot starts, if one
    of the [iters] rounds does. *)
Fixpoint stable_round (iters : nat) (v : BindingView) (t : nat) : option nat :=
  match iters with
  | O => None
  | S iters' =>
      let s1 := seq (v t) in
      if negb (Z.land s1 1 =? 0) then stable_round iters' v (t + 1)%nat
      else
        let s2 := seq (v (t + 3)%nat) in
        if (s1 =? s2) && (s2 mod 2 =? 0) then Some t
        else stable_round iters' v (t + 4)%nat
  end.

(** A binding nobody writes to. *)
Definition quiet (b : PolicyBinding) : BindingView := fun _ => b.

End Dp.

Arguments seq {Heap} _.
Arguments fn {Heap} _.
Arguments state {Heap} _.
Arguments non_null {A} _.

(** A data-plane heap for running bound policies: the [idx_] of each
    [RoundRobinPolicy] object, by address, and the worker's load clock. *)
Record DpHeap : Type := mkDpHeap {
  rr_idx : nat -> Z;
  clock : nat
}.

(** [detail::choose_thunk<RoundRobinPolicy>], over the slots [w]: casts
    [state] to the policy object and calls its [choose]. *)
Definition choose_thunk_RoundRobin (w : nat -> nat -> Routing.MetricsSlot)
  : ChooseFn DpHeap :=
  fun state cands pkt h =>
    let '(r, idx', t') :=
      Routing.RoundRobin_choose w (rr_idx h state) cands pkt (clock h) in
    (r, {| rr_idx := fun a => if Nat.eqb a state then idx' else rr_idx h a;
           clock := t' |}).

(** One policy object at address 1, counter at 0. *)
Definition heap0 : DpHeap := {| rr_idx := fun _ => 0; clock := O |}.

(** A binding on which [publish_policy] bound that round-robin object. *)
Definition bound_rr : PolicyBinding DpHeap :=
  publish_policy DpHeap (PolicyBinding_init DpHeap)
                 (choose_thunk_RoundRobin Routing.idle_world) 1%nat.

End Binding.

(** ** D. Service registry *)

Module Registry.

Inductive RegistryErr : Type :=
| Ok
| Exists
| NotFound
| Invalid
| Capacity.

Inductive Health : Type :=
| Up
| Degraded
| Down.

Record Pop : Type := mkPop {
  id : string;
  region : string;
  ip : string;
  weight : Z;
  health : Health
}.

Abbreviation PopList := (list Pop) (only parsing).

(** [struct Limits] *)
Definition MaxServices : Z := 128.
Definition MaxPopsPerService : Z := 32.
Definition MaxIdLen : Z := 32.
Definition MaxRegionLen : Z := 32.
Definition MaxIpLen : Z := 64.

(** [ServiceRegistry::Map] *)
Abbreviation Map := (gmap string (list Pop)) (only parsing).

Inductive Mode : Type :=
| Add
| Replace
| Upsert.

Inductive address_family : Type :=
| AF_INET
| AF_INET6.

Definition char_code (c : ascii) : Z := Z.of_N (N_of_ascii c).

(** The test [ok] in the loop of [validateId]. *)
Definition id_char_ok (c : ascii) : bool :=
  Ascii.eqb c "_" || Ascii.eqb c "-"
  || ((char_code "0" <=? char_code c) && (char_code c <=? char_code "9"))
  || ((char_code "A" <=? char_code c) && (char_code c <=? char_code "Z"))
  || ((char_code "a" <=? char_code c) && (char_code c <=? char_code "z")).

Definition size_of (s : string) : Z := Z.of_nat (String.length s).

Definition validateId (id : string) (maxLen : Z) : bool :=
  if (size_of id =? 0) || (size_of id >? maxLen) then false
  else if size_of id <? 2 then false
  else forallb id_char_ok (list_ascii_of_string id).

(** [std::string(ip).c_str()]: the characters before the first NUL. *)
Fixpoint c_str (s : string) : string :=
  match s with
  | EmptyString => EmptyString
  | String c s' => if Ascii.eqb c zero then EmptyString else String c (c_str s')
  end.

(** [std::sort] on the ids, as an insertion sort by [operator<]. *)
Fixpoint insert_sorted (x : string) (l : list string) : list string :=
  match l with
  | [] => [x]
  | y :: l' => if String.ltb y x then y :: insert_sorted x l' else x :: l
  end.

Definition sort (l : list string) : list string :=
  fold_right insert_sorted [] l.

(** [std::adjacent_find(...) != end()] *)
Fixpoint adjacent_find (l : list string) : bool :=
  match l with
  | x :: (y :: _) as l' => String.eqb x y || adjacent_find l'
  | _ => false
  end.

Record ServiceRegistry : Type := mkServiceRegistry {
  map_ : option (gmap string (list Pop));
  version_ : Z;
  adds_ : Z;
  replaces_ : Z;
  upserts_ : Z;
  removes_ : Z;
  failures_ : Z
}.

(** A freshly constructed registry. *)
Definition ServiceRegistry_init : ServiceRegistry :=
  {| map_ := Some ∅; version_ := 0; adds_ := 0; replaces_ := 0;
     upserts_ := 0; removes_ := 0; failures_ := 0 |}.

Record Stats : Type := mkStats {
  adds : Z;
  replaces : Z;
  upserts : Z;
  removes : Z;
  failures : Z
}.

(** [failures_.fetch_add(1)] *)
Definition count_failure (r : ServiceRegistry) : ServiceRegistry :=
  {| map_ := map_ r; version_ := version_ r; adds_ := adds_ r;
     replaces_ := replaces_ r; upserts_ := upserts_ r; removes_ := removes_ r;
     failures_ := wrap64 (failures_ r + 1) |}.

(** [atomic_store(&map_, next)] followed by [version_.fetch_add(1)]. *)
Definition publish (next : gmap string (list Pop)) (r : ServiceRegistry)
  : ServiceRegistry :=
  {| map_ := Some next; version_ := wrap64 (version_ r + 1); adds_ := adds_ r;
     replaces_ := replaces_ r; upserts_ := upserts_ r; removes_ := removes_ r;
     failures_ := failures_ r |}.

Definition count_add (r : ServiceRegistry) : ServiceRegistry :=
  {| map_ := map_ r; version_ := version_ r; adds_ := wrap64 (adds_ r + 1);
     replaces_ := replaces_ r; upserts_ := upserts_ r; removes_ := removes_ r;
     failures_ := failures_ r |}.

Definition count_replace (r : ServiceRegistry) : ServiceRegistry :=
  {| map_ := map_ r; version_ := version_ r; adds_ := adds_ r;
     replaces_ := wrap64 (replaces_ r + 1); upserts_ := upserts_ r;
     removes_ := removes_ r; failures_ := failures_ r |}.

Definition count_upsert (r : ServiceRegistry) : ServiceRegistry :=
  {| map_ := map_ r; version_ := version_ r; adds_ := adds_ r;
     replaces_ := replaces_ r; upserts_ := wrap64 (upserts_ r + 1);
     removes_ := removes_ r; failures_ := failures_ r |}.

Definition count_remove (r : ServiceRegistry) : ServiceRegistry :=
  {| map_ := map_ r; version_ := version_ r; adds_ := adds_ r;
     replaces_ := replaces_ r; upserts_ := upserts_ r;
     removes_ := wrap64 (removes_ r + 1); failures_ := failures_ r |}.

(** [std::unordered_map::emplace]: no effect when the key is present. *)
Definition emplace (k : string) (v : list Pop) (m : gmap string (list Pop))
  : gmap string (list Pop) :=
  match m !! k with
  | Some _ => m
  | None => <[k := v]> m
  end.

Definition snapshot (r : ServiceRegistry) : option (gmap string (list Pop)) :=
  map_ r.

Definition getPopsCopy (service_id : string) (r : ServiceRegistry) : list Pop :=
  match snapshot r with
  | None => []
  | Some snap => match snap !! service_id with
                 | None => []
                 | Some pops => pops
                 end
  end.

Definition hasService (service_id : string) (r : ServiceRegistry) : bool :=
  match snapshot r with
  | None => false
  | Some snap => bool_decide (is_Some (snap !! service_id))
  end.

Definition size (r : ServiceRegistry) : Z :=
  match snapshot r with
  | None => 0
  | Some snap => Z.of_nat (base.size snap)
  end.

Definition version (r : ServiceRegistry) : Z := version_ r.

Definition stats (r : ServiceRegistry) : Stats :=
  {| adds := adds_ r; replaces := replaces_ r; upserts := upserts_ r;
     removes := removes_ r; failures := failures_ r |}.

Definition removeService (service_id : string) (r : ServiceRegistry)
  : bool * ServiceRegistry :=
  match snapshot r with
  | None => (false, r)
  | Some snap =>
      if bool_decide (snap = ∅) then (false, r)
      else
        let next := snap in
        match next !! service_id with
        | None => (false, r)
        | Some _ => (true, count_remove (publish (delete service_id next) r))
        end
  end.

Definition clear (r : ServiceRegistry) : ServiceRegistry := publish ∅ r.

Section Validation.

(** libc's [inet_pton(af, src, dst)], by its return value. *)
Variable inet_pton : address_family -> string -> Z.

Definition validateIp (ip : string) : bool :=
  if (size_of ip =? 0) || (size_of ip >? MaxIpLen) then false
  else if inet_pton AF_INET (c_str ip) =? 1 then true
  else if inet_pton AF_INET6 (c_str ip) =? 1 then true
  else false.

(** The checks of one round of the loop in [validatePops]. *)
Definition pop_fields_ok (p : Pop) : bool :=
  if negb (validateId (id p) MaxIdLen) then false
  else if negb (validateId (region p) MaxRegionLen) then false
  else if negb (validateIp (ip p)) then false
  else true.

Definition validatePops (pops : list Pop) : bool :=
  if (Z.of_nat (length pops) =? 0)
     || (Z.of_nat (length pops) >? MaxPopsPerService) then false
  else if negb (forallb pop_fields_ok pops) then false
  else
    let ids := sort (map id pops) in
    if adjacent_find ids then false else true.

Definition mutate (mode : Mode) (service_id : string) (pops : list Pop)
  (r : ServiceRegistry) : RegistryErr * ServiceRegistry :=
  if negb (validateId service_id MaxIdLen) then (Invalid, count_failure r)
  else if negb (validatePops pops) then (Invalid, count_failure r)
  else
    match snapshot r with
    | None => (Invalid, count_failure r)
    | Some snap =>
        if Z.of_nat (base.size snap) >? MaxServices
        then (Capacity, count_failure r)
        else
          let next := snap in
          let exists_ := bool_decide (is_Some (next !! service_id)) in
          match mode with
          | Add =>
              if exists_ then (Exists, count_failure r)
              else (Ok, count_add (publish (emplace service_id pops next) r))
          | Replace =>
              if negb exists_ then (NotFound, count_failure r)
              else (Ok, count_replace (publish (<[service_id := pops]> next) r))
          | Upsert =>
              (Ok, count_upsert (publish (emplace service_id pops next) r))
          end
    end.

Definition addService (service_id : string) (pops : list Pop)
  (r : ServiceRegistry) : RegistryErr * ServiceRegistry :=
  mutate Add service_id pops r.

Definition replaceService (service_id : string) (pops : list Pop)
  (r : ServiceRegistry) : RegistryErr * ServiceRegistry :=
  mutate Replace service_id pops r.

Definition upsertService (service_id : string) (pops : list Pop)
  (r : ServiceRegistry) : RegistryErr * ServiceRegistry :=
  mutate Upsert service_id pops r.

End Validation.

(** *** Concrete runs *)

(** A stand-in for libc's [inet_pton], used only to run examples: for
    [AF_INET] it accepts dotted-quad literals the way libc's parser does
    (four decimal fields 0..255, no leading zero); it knows no IPv6
    literal. *)
Fixpoint inet_pton4_loop (src : list ascii) (saw_digit : bool)
  (octets : Z) (cur : Z) : Z :=
  match src with
  | [] => if octets <? 4 then 0 else 1
  | ch :: src' =>
      if (char_code "0" <=? char_code ch) && (char_code ch <=? char_code "9")
      then
        let new := cur * 10 + (char_code ch - char_code "0") in
        if saw_digit && (cur =? 0) then 0
        else if new >? 255 then 0
        else if negb saw_digit then
          if octets + 1 >? 4 then 0
          else inet_pton4_loop src' true (octets + 1) new
        else inet_pton4_loop src' true octets new
      else if Ascii.eqb ch "." && saw_digit then
        if octets =? 4 then 0 else inet_pton4_loop src' false octets 0
      else 0
  end.

Definition inet_pton_ipv4 (af : address_family) (src : string) : Z :=
  match af with
  | AF_INET => inet_pton4_loop (list_ascii_of_string src) false 0 0
  | AF_INET6 => 0
  end.

(** [Pop{.id=.., .region=.., .ip=..}] with the default weight and health. *)
Definition make_pop (id region ip : string) : Pop :=
  {| id := id; region := region; ip := ip; weight := 100; health := Up |}.

(** The lists of the registry tests. *)
Definition listA : list Pop :=
  [make_pop "a1" "ra" "203.0.113.1"; make_pop "a2" "ra" "203.0.113.2"].

Definition listB : list Pop := [make_pop "b1" "rb" "203.0.113.3"].

(** The list of [Registry_Remove_Existing]: region of one character. *)
Definition list_short_region : list Pop := [make_pop "pp" "r" "203.0.113.3"].

Definition digit (n : nat) : ascii := ascii_of_nat (48 + n mod 10).

(** "svc000", "svc001", ... *)
Definition svc_name (n : nat) : string :=
  String "s" (String "v" (String "c"
    (String (digit (n / 100)) (String (digit (n / 10))
      (String (digit n) EmptyString))))).

(** [for (n : ns) reg.addService(svc_name(n), pops)] *)
Fixpoint add_services (ns : list nat) (pops : list Pop) (r : ServiceRegistry)
  : ServiceRegistry :=
  match ns with
  | [] => r
  | n :: ns' =>
      add_services ns' pops (addService inet_pton_ipv4 (svc_name n) pops r).2
  end.

(** A registry on which 128 services were added. *)
Definition registry_128 : ServiceRegistry :=
  add_services (seq 0 128) listB ServiceRegistry_init.

(** Its published map. *)
Definition map_128 : gmap string (list Pop) :=
  default (∅ : gmap string (list Pop)) (snapshot registry_128).

(** A registry holding "svc" with [listA]. *)
Definition registry_svc_A : ServiceRegistry :=
  (addService inet_pton_ipv4 "svc" listA ServiceRegistry_init).2.

End Registry.

(** ** A'. What a ring holds, and the packet pool built on it *)

Module SpscView.

Section Contents.

Context {T : Type}.

(** The elements a consumer would pop, oldest first: the cells from
    [head_] up to [tail_]. *)
Definition contents (q : Spsc.SpscQueue T) : list T :=
  omap (fun i : nat =>
          match Spsc.buf_ q
                !! Z.to_nat ((Spsc.head_ q + Z.of_nat i) mod Spsc.capacity_ q)
          with
          | Some (Some x) => Some x
          | _ => None
          end)
       (seq 0 (Z.to_nat (Spsc.approx_size q))).

(** The default-constructed shell [SpscQueue()]. *)
Definition shell : Spsc.SpscQueue T :=
  {| Spsc.head_ := 0; Spsc.tail_ := 0; Spsc.buf_ := [];
     Spsc.capacity_ := 0; Spsc.mask_ := 0 |}.

End Contents.

End SpscView.

Module Pool.

(** [PacketHandle] is [std::uint32_t]. *)
Record Packet : Type := mkPacket {
  length : Z;
  meta : Z;
  reserved : Z
}.

(** [Packet{}] *)
Definition Packet_init : Packet := {| length := 0; meta := 0; reserved := 0 |}.

(** [sizeof(Packet)]: a [std::size_t] and two [std::uint32_t]. *)
Definition sizeof_Packet : Z := 16.

Record PacketPool : Type := mkPacketPool {
  capacity_ : Z;
  storage_ : list Packet;
  free_ring_ : Spsc.SpscQueue Z
}.

(** How the constructor ends: with a pool; by an exception of the member
    initialiser [storage_(capacity_pow2)]; in [std::abort()]; in
    [std::terminate()], reached inside the ring factory; or with
    undefined behaviour. *)
Inductive construction : Type :=
| Constructed (p : PacketPool)
| Throws_length_error
| Throws_bad_alloc
| Calls_abort
| Calls_terminate
| Construction_undefined.

(** The seeding loop [for (i = 0; i < capacity_; ++i)] with [todo] rounds
    left: pushes [static_cast<PacketHandle>(i)].  With assertions the loop
    stops at the first failed push (the flag is then false); without, it
    runs on. *)
Fixpoint seed_all (assertions : bool) (todo : nat) (i : Z)
  (ring : Spsc.SpscQueue Z) : Spsc.outcome (bool * Spsc.SpscQueue Z) :=
  match todo with
  | O => Spsc.Returns (true, ring)
  | S todo' =>
      Spsc.bind (Spsc.push (wrap32 i) ring) (fun '(ok, ring) =>
      if assertions && negb ok then Spsc.Returns (false, ring)
      else seed_all assertions todo' (i + 1) ring)
  end.

Section Construction.

Context {PF : Platform}.

(** The constructor.  [storage_(capacity_pow2)] is
    [std::vector<Packet>(n)]: it throws [std::length_error] when [n]
    exceeds [max_size()] and [std::bad_alloc] when the [n * sizeof(Packet)]
    bytes are not obtained.  The body aborts when the factory returns an
    error, and so does a failed [assert] in a build that keeps assertions
    ([assertions = true]). *)
Definition PacketPool_ctor (assertions : bool) (capacity_pow2 : Z)
  : construction :=
  if vector_max_bytes / sizeof_Packet <? capacity_pow2
  then Throws_length_error
  else if negb (capacity_pow2 =? 0)
          && negb (grants (capacity_pow2 * sizeof_Packet))
  then Throws_bad_alloc
  else
    match Spsc.with_capacity (T := Z) (wrap64 (capacity_pow2 * 2)) with
    | Spsc.Terminates => Calls_terminate
    | Spsc.Undefined => Construction_undefined
    | Spsc.Returns (inl _) => Calls_abort
    | Spsc.Returns (inr ring) =>
        match seed_all assertions (Z.to_nat capacity_pow2) 0 ring with
        | Spsc.Terminates => Calls_terminate
        | Spsc.Undefined => Construction_undefined
        | Spsc.Returns (ok, ring) =>
            if assertions && negb ok then Calls_abort
            else
              Constructed
                {| capacity_ := capacity_pow2;
                   storage_ := replicate (Z.to_nat capacity_pow2) Packet_init;
                   free_ring_ := ring |}
        end
    end.

(** The pool, when the constructor completes. *)
Definition PacketPool_new (assertions : bool) (capacity_pow2 : Z)
  : option PacketPool :=
  match PacketPool_ctor assertions capacity_pow2 with
  | Constructed p => Some p
  | _ => None
  end.

End Construction.

(** [return free_ring_.pop(out_handle);], as the call ends. *)
Definition acquire_call (out_handle : Z) (p : PacketPool)
  : Spsc.outcome (bool * Z * PacketPool) :=
  Spsc.bind (Spsc.pop out_handle (free_ring_ p)) (fun '(ok, h, ring) =>
  Spsc.Returns (ok, h, {| capacity_ := capacity_ p; storage_ := storage_ p;
                          free_ring_ := ring |})).

(** [return free_ring_.push(handle);], as the call ends. *)
Definition release_call (handle : Z) (p : PacketPool)
  : Spsc.outcome (bool * PacketPool) :=
  Spsc.bind (Spsc.push handle (free_ring_ p)) (fun '(ok, ring) =>
  Spsc.Returns (ok, {| capacity_ := capacity_ p; storage_ := storage_ p;
                       free_ring_ := ring |})).

(** A pool whose free ring is a ring over whole storage: what the
    constructor builds, and what [acquire] and [release] keep. *)
Definition sound (p : PacketPool) : Prop :=
  exists C l, Spsc.Repr C (free_ring_ p) l /\ Spsc.whole (free_ring_ p).

(** What the calls return.  On a [sound] pool both calls return
    ([acquire_call_returns], [release_call_returns]); the last branch
    only makes the functions total. *)
Definition acquire (out_handle : Z) (p : PacketPool) : bool * Z * PacketPool :=
  match acquire_call out_handle p with
  | Spsc.Returns r => r
  | _ => (false, out_handle, p)
  end.

Definition release (handle : Z) (p : PacketPool) : bool * PacketPool :=
  match release_call handle p with
  | Spsc.Returns r => r
  | _ => (false, p)
  end.

(** [get(h)]: [None] where the assertion [h < capacity_] fails. *)
Definition get (h : Z) (p : PacketPool) : option Packet :=
  if h <? capacity_ p then storage_ p !! Z.to_nat h else None.

Definition capacity (p : PacketPool) : Z := capacity_ p.

(** The handles on the free list, next to be acquired first. *)
Definition free_handles (p : PacketPool) : list Z :=
  SpscView.contents (free_ring_ p).

(** *** A client of the pool *)

Inductive pool_op : Type :=
| Acquire
| Release (h : Z).

Inductive pool_result : Type :=
| Acquired (r : option Z)
| Released (ok : bool).

Fixpoint remove_one (h : Z) (l : list Z) : list Z :=
  match l with
  | [] => []
  | x :: l' => if x =? h then l' else x :: remove_one h l'
  end.

(** Runs a client that holds the handles [held] and releases only handles
    it holds; [None] when it attempts to release a handle it does not
    hold, or when a call does not return.  Yields the results, the pool
    and the handles still held. *)
Fixpoint client_run (ops : list pool_op) (p : PacketPool) (held : list Z)
  : option (list pool_result * PacketPool * list Z) :=
  match ops with
  | [] => Some ([], p, held)
  | Acquire :: ops' =>
      match acquire_call 0 p with
      | Spsc.Returns (ok, h, p') =>
          match client_run ops' p' (if ok then h :: held else held) with
          | Some (rs, p2, held2) =>
              Some (Acquired (if ok then Some h else None) :: rs, p2, held2)
          | None => None
          end
      | _ => None
      end
  | Release h :: ops' =>
      if existsb (Z.eqb h) held then
        match release_call h p with
        | Spsc.Returns (ok, p') =>
            match client_run ops' p' (if ok then remove_one h held else held) with
            | Some (rs, p2, held2) => Some (Released ok :: rs, p2, held2)
            | None => None
            end
        | _ => None
        end
      else None
  end.

(** [for (i = 0; i < n; ++i) hs.push_back(acquire())] *)
Fixpoint acquire_n (n : nat) (p : PacketPool) : list (option Z) * PacketPool :=
  match n with
  | O => ([], p)
  | S n' =>
      let '(ok, h, p1) := acquire 0 p in
      let '(rs, p2) := acquire_n n' p1 in
      ((if ok then Some h else None) :: rs, p2)
  end.

(** The handles the constructor seeds: 0, 1, ..., as [PacketHandle]s. *)
Definition seeded (n : Z) : list Z :=
  map (fun i : nat => wrap32 (Z.of_nat i)) (seq 0 (Z.to_nat n)).

(** A pool of 8 descriptors as the constructor leaves it. *)
Definition pool8 : PacketPool :=
  default {| capacity_ := 0; storage_ := []; free_ring_ := SpscView.shell |}
          (PacketPool_new true 8).

End Pool.

(** ** C'. A seqlock cell under a racing writer *)

Module Seqlock.

(** A reader's view of a cell whose successive contents are [hist]: at its
    load number [t] the reader sees entry [sched t] (the last entry once
    the writer is done). *)
Definition observe {S : Type} (dflt : S) (hist : list S) (sched : nat -> nat)
  : nat -> S :=
  fun t => nth (Nat.min (sched t) (List.length hist - 1)) hist dflt.

(** Time does not run backwards between two loads. *)
Definition monotone (sched : nat -> nat) : Prop :=
  forall t, (sched t <= sched (S t))%nat.

(** The sequence numbers never decrease along [hist], and two entries with
    the same even number are the same content. *)
Definition ordered {S : Type} (seqf : S -> Z) (hist : list S) : Prop :=
  forall (i j : nat) (x y : S),
    (i <= j)%nat -> hist !! i = Some x -> hist !! j = Some y ->
    seqf x <= seqf y /\
    (seqf x = seqf y -> Z.even (seqf x) = true -> x = y).

End Seqlock.

Module MetricsCp.

Import Routing.

(** Every content of a slot while its writer performs
    [update_metrics(s, m)] for each [m] of [ms], one store at a time. *)
Fixpoint updates_trace (s : MetricsSlot) (ms : list PathMetrics)
  : list MetricsSlot :=
  match ms with
  | [] => []
  | m :: ms' => update_metrics_trace s m ++ updates_trace (update_metrics s m) ms'
  end.

Definition writer_history (s : MetricsSlot) (ms : list PathMetrics)
  : list MetricsSlot :=
  s :: updates_trace s ms.

(** The slot after the first [k] updates have completed. *)
Definition committed (s : MetricsSlot) (ms : list PathMetrics) (k : nat)
  : MetricsSlot :=
  fold_left update_metrics (firstn k ms) s.

(** A world nobody writes to: slot [p] holds [mem p] at every load. *)
Definition still (mem : nat -> MetricsSlot) : nat -> nat -> MetricsSlot :=
  fun _ p => mem p.

(** What the policies see of candidate [c] in [mem]. *)
Definition metrics_of (mem : nat -> MetricsSlot) (c : CandidateRef)
  : PathMetrics :=
  metrics (mem (slot c)).

Definition healthy_in (mem : nat -> MetricsSlot) (c : CandidateRef) : bool :=
  healthy (metrics_of mem c).

(** Every slot is between updates. *)
Definition settled (mem : nat -> MetricsSlot) : Prop :=
  forall p, Z.even (seq (mem p)) = true.

(** Three slots after one update each: 1 unhealthy, 2 and 3 healthy. *)
Definition sample_mem : nat -> MetricsSlot :=
  fun p =>
    if Nat.eqb p 2 then update_metrics MetricsSlot_init healthy_metrics
    else if Nat.eqb p 3 then
      update_metrics MetricsSlot_init
        {| rtt_us := 80; one_way_delay_us := 40; loss_ppm := 0;
           avail_kbps := 500; qos_class := 0; healthy := true |}
    else update_metrics MetricsSlot_init PathMetrics_init.

Definition three_cands : list CandidateRef :=
  [ {| id := 7; slot := 1%nat |}; {| id := 9; slot := 2%nat |};
    {| id := 11; slot := 3%nat |} ].

(** What the healthy pass of [LatencyAwarePolicy::choose] has established
    after looking at candidates [0 .. i). *)
Definition pass_inv (mem : nat -> MetricsSlot) (cfg : LatencyAwareConfig) (cands : list CandidateRef) (i best : Z)
  (have_best : bool) (bestm : PathMetrics) : Prop :=
  if have_best then
    0 <= best < i /\
    bestm = metrics_of mem (at_ cands best) /\
    healthy bestm = true /\
    (prefer_qos_class cfg = false ->
     forall j, 0 <= j < i -> healthy_in mem (at_ cands j) = true ->
       rtt_us bestm <= rtt_us (metrics_of mem (at_ cands j)) /\
       (j < best ->
        rtt_us bestm < rtt_us (metrics_of mem (at_ cands j))))
  else
    forall j, 0 <= j < i -> healthy_in mem (at_ cands j) = false.

(** The fallback pass over [0 .. i) keeps the first candidate of least
    RTT. *)
Definition min_inv (mem : nat -> MetricsSlot) (cands : list CandidateRef) (i idx : Z) (init : bool) (minm : PathMetrics)
  : Prop :=
  if init then
    0 <= idx < i /\
    minm = metrics_of mem (at_ cands idx) /\
    forall j, 0 <= j < i ->
      rtt_us minm <= rtt_us (metrics_of mem (at_ cands j)) /\
      (j < idx -> rtt_us minm < rtt_us (metrics_of mem (at_ cands j)))
  else i = 0.

End MetricsCp.

Module BindingCp.

Section Cp.

Variable Heap : Type.

(** One control-plane call on a binding. *)
Inductive cp_op : Type :=
| Publish (thunk : Binding.ChooseFn Heap) (policy : nat)
| Clear.

(** [cp::clear_policy], one store at a time. *)
Definition clear_policy_trace (b : Binding.PolicyBinding Heap)
  : list (Binding.PolicyBinding Heap) :=
  let start := Binding.seq b in
  let b1 := {| Binding.seq := Z.lor start 1; Binding.fn := Binding.fn b;
               Binding.state := Binding.state b |} in
  let b2 := {| Binding.seq := Binding.seq b1; Binding.fn := None;
               Binding.state := Binding.state b1 |} in
  let b3 := {| Binding.seq := Binding.seq b2; Binding.fn := Binding.fn b2;
               Binding.state := None |} in
  let b4 := {| Binding.seq := wrap32 (Z.lor start 1 + 1);
               Binding.fn := Binding.fn b3; Binding.state := Binding.state b3 |} in
  [b1; b2; b3; b4].

Definition cp_apply (b : Binding.PolicyBinding Heap) (o : cp_op)
  : Binding.PolicyBinding Heap :=
  match o with
  | Publish thunk policy => Binding.publish_policy Heap b thunk policy
  | Clear => Binding.clear_policy Heap b
  end.

Definition cp_trace (b : Binding.PolicyBinding Heap) (o : cp_op)
  : list (Binding.PolicyBinding Heap) :=
  match o with
  | Publish thunk policy => Binding.publish_policy_trace Heap b thunk policy
  | Clear => clear_policy_trace b
  end.

Fixpoint calls_trace (b : Binding.PolicyBinding Heap) (os : list cp_op)
  : list (Binding.PolicyBinding Heap) :=
  match os with
  | [] => []
  | o :: os' => cp_trace b o ++ calls_trace (cp_apply b o) os'
  end.

Definition binding_history (b : Binding.PolicyBinding Heap) (os : list cp_op)
  : list (Binding.PolicyBinding Heap) :=
  b :: calls_trace b os.

(** The binding after the first [k] calls have completed. *)
Definition committed (b : Binding.PolicyBinding Heap) (os : list cp_op)
  (k : nat) : Binding.PolicyBinding Heap :=
  fold_left cp_apply (firstn k os) b.

End Cp.

Arguments Publish {Heap} _ _.
Arguments Clear {Heap}.

End BindingCp.

(** ** D'. The registry's writer API as a sequence of calls *)

Module RegistryApi.

Import Registry.

Inductive call : Type :=
| AddService (service_id : string) (pops : list Pop)
| ReplaceService (service_id : string) (pops : list Pop)
| UpsertService (service_id : string) (pops : list Pop)
| RemoveService (service_id : string)
| Clear.

Definition is_ok (e : RegistryErr) : bool :=
  match e with
  | Ok => true
  | _ => false
  end.

Section Api.

Variable inet_pton : address_family -> string -> Z.

(** One call: whether it published ([Ok], [true]; [clear] returns nothing
    and always publishes) and the registry it leaves. *)
Definition step (c : call) (r : ServiceRegistry) : bool * ServiceRegistry :=
  match c with
  | AddService service_id pops =>
      let '(e, r') := addService inet_pton service_id pops r in (is_ok e, r')
  | ReplaceService service_id pops =>
      let '(e, r') := replaceService inet_pton service_id pops r in
      (is_ok e, r')
  | UpsertService service_id pops =>
      let '(e, r') := upsertService inet_pton service_id pops r in
      (is_ok e, r')
  | RemoveService service_id => removeService service_id r
  | Clear => (true, clear r)
  end.

Fixpoint run (cs : list call) (r : ServiceRegistry) : ServiceRegistry :=
  match cs with
  | [] => r
  | c :: cs' => run cs' (step c r).2
  end.

(** Number of calls of the run that published. *)
Fixpoint published (cs : list call) (r : ServiceRegistry) : Z :=
  match cs with
  | [] => 0
  | c :: cs' =>
      (if (step c r).1 then 1 else 0) + published cs' (step c r).2
  end.

(** Number of [clear()] calls. *)
Fixpoint clears (cs : list call) : Z :=
  match cs with
  | [] => 0
  | Clear :: cs' => 1 + clears cs'
  | _ :: cs' => clears cs'
  end.

(** The checks [mutate] runs on an entry before it publishes it. *)
Definition entry_ok (service_id : string) (pops : list Pop) : bool :=
  validateId service_id MaxIdLen && validatePops inet_pton pops.

(** What every published snapshot satisfies. *)
Definition well_formed (r : ServiceRegistry) : Prop :=
  exists m : gmap string (list Pop),
    snapshot r = Some m /\
    Z.of_nat (base.size m) <= MaxServices + 1 /\
    forall k v, m !! k = Some v -> entry_ok k v = true.

End Api.

End RegistryApi.

(** ** G. The simulated BGP oracle and the ingress selector *)

Module Bgp.

Record SimRoute : Type := mkSimRoute {
  pop_id : string;
  local_pref : Z;
  as_path_len : Z;
  med : Z;
  igp_cost : Z
}.

(** One round of the loop in [serving_pop]: the route [best] points to
    after looking at [r]. *)
Definition consider (best r : SimRoute) : SimRoute :=
  if local_pref r >? local_pref best then r
  else if local_pref r <? local_pref best then best
  else if as_path_len r <? as_path_len best then r
  else if as_path_len r >? as_path_len best then best
  else if med r <? med best then r
  else if med r >? med best then best
  else if igp_cost r <? igp_cost best then r
  else if igp_cost r >? igp_cost best then best
  else if String.ltb (pop_id r) (pop_id best) then r
  else best.

(** [b] is at least as good as [r] in the order of the tie-breaker:
    local-pref descending, then AS-path length, MED, IGP cost and PoP id
    ascending. *)
Definition no_worse (b r : SimRoute) : Prop :=
  local_pref r <= local_pref b /\
  (local_pref r = local_pref b ->
   as_path_len b <= as_path_len r /\
   (as_path_len r = as_path_len b ->
    med b <= med r /\
    (med r = med b ->
     igp_cost b <= igp_cost r /\
     (igp_cost r = igp_cost b ->
      String.ltb (pop_id r) (pop_id b) = false)))).

Record SimulatedBgpOracle : Type := mkSimulatedBgpOracle {
  routes_ : gmap string (list SimRoute)
}.

Definition load_routes (routes : gmap string (list SimRoute))
  (o : SimulatedBgpOracle) : SimulatedBgpOracle :=
  {| routes_ := routes |}.

(** [SimulatedBgpOracle::serving_pop]; the client address is unused. *)
Definition sim_serving_pop (o : SimulatedBgpOracle)
  (serviceId clientSrcIp : string) : option string :=
  match routes_ o !! serviceId with
  | None => None
  | Some v =>
      match v with
      | [] => None
      | front :: _ => Some (pop_id (fold_left consider v front))
      end
  end.

(** [class BgpOracle]: the one virtual member. *)
Class BgpOracle (O : Type) : Type := {
  serving_pop : O -> string -> string -> option string
}.

#[global] Instance SimulatedBgpOracle_BgpOracle : BgpOracle SimulatedBgpOracle :=
  {| serving_pop := sim_serving_pop |}.

(** Three routes to one service that differ only late in the tie-break. *)
Definition sample_routes : list SimRoute :=
  [ {| pop_id := "pop-b"; local_pref := 100; as_path_len := 2; med := 100;
       igp_cost := 100 |};
    {| pop_id := "pop-a"; local_pref := 100; as_path_len := 2; med := 100;
       igp_cost := 100 |};
    {| pop_id := "pop-c"; local_pref := 100; as_path_len := 3; med := 10;
       igp_cost := 1 |} ].

Definition sample_oracle : SimulatedBgpOracle :=
  {| routes_ := {[ "svc" := sample_routes ]} |}.

End Bgp.

Module Ingress.

Import Registry.

Inductive IngressStrategy : Type :=
| RoundRobin
| HashSourceIP
| Hash5Tuple.

Inductive IngressMode : Type :=
| PolicyDeterministic
| RouteInformed.

Record IngressConfig : Type := mkIngressConfig {
  mode : IngressMode;
  strategy : IngressStrategy;
  seed : Z
}.

(** [IngressConfig{}]; the seed is [INGRESS_HASH_SEED_DEFAULT]. *)
Definition IngressConfig_init : IngressConfig :=
  {| mode := PolicyDeterministic; strategy := RoundRobin; seed := 0xA17A5EED |}.

Definition PHI : Z := 0x9e3779b97f4a7c15.
Definition M1 : Z := 0xff51afd7ed558ccd.
Definition M2 : Z := 0xc4ceb9fe1a85ec53.

(** [IngressSelector::mix], on [uint64_t]. *)
Definition mix (x seed : Z) : Z :=
  let x := Z.lxor x (wrap64 (seed + PHI + wrap64 (Z.shiftl x 6) + Z.shiftr x 2)) in
  let x := Z.lxor x (Z.shiftr x 33) in
  let x := wrap64 (x * M1) in
  let x := Z.lxor x (Z.shiftr x 33) in
  let x := wrap64 (x * M2) in
  let x := Z.lxor x (Z.shiftr x 33) in
  x.

Section Selector.

Context {Oracle : Type} `{Bgp.BgpOracle Oracle}.

Record IngressSelector : Type := mkIngressSelector {
  cfg_ : IngressConfig;
  pops_ : list Pop;
  oracle_ : option Oracle;
  rr_ : Z
}.

Definition loadPops (pops : list Pop) (s : IngressSelector) : IngressSelector :=
  {| cfg_ := cfg_ s; pops_ := pops; oracle_ := oracle_ s; rr_ := rr_ s |}.

Definition update_config (c : IngressConfig) (s : IngressSelector)
  : IngressSelector :=
  {| cfg_ := c; pops_ := pops_ s; oracle_ := oracle_ s; rr_ := rr_ s |}.

Definition attachOracle (oracle : option Oracle) (s : IngressSelector)
  : IngressSelector :=
  {| cfg_ := cfg_ s; pops_ := pops_ s; oracle_ := oracle; rr_ := rr_ s |}.

(** [rr_.fetch_add(1)] *)
Definition bump_rr (s : IngressSelector) : IngressSelector :=
  {| cfg_ := cfg_ s; pops_ := pops_ s; oracle_ := oracle_ s;
     rr_ := wrap64 (rr_ s + 1) |}.

(** [ids[k]]; every use below is in range. *)
Definition ids_at (ids : list string) (k : Z) : string :=
  nth (Z.to_nat k) ids EmptyString.

(** Returns the chosen id and the selector with its counter. *)
Definition choose_policy_deterministic (ids : list string) (flow_hash : Z)
  (s : IngressSelector) : string * IngressSelector :=
  match ids with
  | [] => (EmptyString, s)
  | _ =>
      match strategy (cfg_ s) with
      | RoundRobin =>
          let idx := rr_ s mod Z.of_nat (length ids) in
          (ids_at ids idx, bump_rr s)
      | HashSourceIP | Hash5Tuple =>
          let h := mix flow_hash (seed (cfg_ s)) in
          (ids_at ids (h mod Z.of_nat (length ids)), s)
      end
  end.

(** [chooseIngress(serviceId)] *)
Definition chooseIngress (serviceId : string) (s : IngressSelector)
  : string * IngressSelector :=
  let local := choose_policy_deterministic (map Registry.id (pops_ s)) 0 s in
  match mode (cfg_ s), oracle_ s with
  | RouteInformed, Some o =>
      match Bgp.serving_pop o serviceId EmptyString with
      | Some pop => (pop, s)
      | None => local
      end
  | _, _ => local
  end.

(** [chooseIngress(serviceId, clientSrcIp)] *)
Definition chooseIngress_ip (serviceId clientSrcIp : string)
  (s : IngressSelector) : string * IngressSelector :=
  match mode (cfg_ s), oracle_ s with
  | RouteInformed, Some o =>
      match Bgp.serving_pop o serviceId clientSrcIp with
      | Some pop => (pop, s)
      | None => chooseIngress serviceId s
      end
  | _, _ => chooseIngress serviceId s
  end.

(** [n] calls of [chooseIngress(serviceId)] in a row. *)
Fixpoint chooseIngress_n (n : nat) (serviceId : string) (s : IngressSelector)
  : list string * IngressSelector :=
  match n with
  | O => ([], s)
  | S n' =>
      let '(p, s1) := chooseIngress serviceId s in
      let '(ps, s2) := chooseIngress_n n' serviceId s1 in
      (p :: ps, s2)
  end.

End Selector.

Arguments IngressSelector Oracle : clear implicits.

(** A selector with three PoPs and no oracle. *)
Definition three_pops : list Pop :=
  [make_pop "p1" "ra" "203.0.113.1"; make_pop "p2" "ra" "203.0.113.2";
   make_pop "p3" "rb" "203.0.113.3"].

Definition sample_selector : IngressSelector Bgp.SimulatedBgpOracle :=
  {| cfg_ := IngressConfig_init; pops_ := three_pops; oracle_ := None;
     rr_ := 4 |}.

End Ingress.

(** ** H. QoS scoring and the failover policy

    [double] is IEEE binary64: the primitive [float], with the operations
    in the order the source writes them. *)

Module Qos.

Import PrimInt63 PrimFloat.

#[local] Set Warnings "-inexact-float".

Inductive QoSClass : Type :=
| Bulk
| BestEffort
| Interactive
| Realtime.

Record QoSThresholds : Type := mkQoSThresholds {
  max_latency_us : Z;
  max_jitter_us : Z;
  max_loss : float
}.

(** [QoSThresholds{}] *)
Definition QoSThresholds_init : QoSThresholds :=
  {| max_latency_us := 10000; max_jitter_us := 5000; max_loss := 0.01%float |}.

Record QoSWeights : Type := mkQoSWeights {
  w_latency : float;
  w_jitter : float;
  w_loss : float
}.

Definition QoSWeights_init : QoSWeights :=
  {| w_latency := 0.6%float; w_jitter := 0.3%float; w_loss := 0.1%float |}.

Record PathMetrics : Type := mkPathMetrics {
  path_id : string;
  latency_us : Z;
  jitter_us : Z;
  loss : float
}.

Record QoSScore : Type := mkQoSScore {
  sc_path_id : string;
  score : float;
  within_thresholds : bool
}.

(** The two [unordered_map]s are keyed by the four-valued enum: a lookup
    is an application. *)
Record QoSConfig : Type := mkQoSConfig {
  thresholds_by_class : QoSClass -> option QoSThresholds;
  weights : QoSWeights;
  dscp_by_class : QoSClass -> option Z
}.

Definition dscp (cfg_ : QoSConfig) (clazz : QoSClass) : Z :=
  match dscp_by_class cfg_ clazz with
  | None => 0
  | Some v => v
  end.

Fixpoint int_of_positive (p : positive) : PrimInt63.int :=
  match p with
  | xH => 1%uint63
  | xO p' => PrimInt63.lsl (int_of_positive p') 1%uint63
  | xI p' => PrimInt63.lor (PrimInt63.lsl (int_of_positive p') 1%uint63) 1%uint63
  end.

(** [static_cast<double>(x)] for a [uint32_t]: exact. *)
Definition double_of_u32 (x : Z) : float :=
  match x with
  | Zpos p => PrimFloat.of_uint63 (int_of_positive p)
  | _ => 0%float
  end.

(** [std::max(a, b)]: [(a < b) ? b : a]. *)
Definition fmax (a b : float) : float := if PrimFloat.ltb a b then b else a.

(** [std::clamp(v, lo, hi)]: [(v < lo) ? lo : (hi < v) ? hi : v]. *)
Definition fclamp (v lo hi : float) : float :=
  if PrimFloat.ltb v lo then lo else if PrimFloat.ltb hi v then hi else v.

Definition normalize_latency (latency_us target_us : Z) : float :=
  if target_us =? 0 then 0%float
  else
    let ratio := PrimFloat.div (double_of_u32 latency_us)
                               (double_of_u32 target_us) in
    PrimFloat.div 1%float
      (PrimFloat.add 1%float (fmax 0%float (PrimFloat.sub ratio 1%float))).

Definition normalize_jitter (jitter_us target_us : Z) : float :=
  if target_us =? 0 then 0%float
  else
    let ratio := PrimFloat.div (double_of_u32 jitter_us)
                               (double_of_u32 target_us) in
    PrimFloat.div 1%float
      (PrimFloat.add 1%float (fmax 0%float (PrimFloat.sub ratio 1%float))).

Definition normalize_loss (loss target : float) : float :=
  if PrimFloat.leb target 0%float then 0%float
  else
    let ratio := PrimFloat.div loss target in
    PrimFloat.div 1%float
      (PrimFloat.add 1%float (fmax 0%float (PrimFloat.sub ratio 1%float))).

Definition blend (nlat njit nloss : float) (w : QoSWeights) : float :=
  let sumw :=
    fmax 1e-9%float
         (PrimFloat.add (PrimFloat.add (w_latency w) (w_jitter w)) (w_loss w)) in
  let raw :=
    PrimFloat.div
      (PrimFloat.add
         (PrimFloat.add (PrimFloat.mul nlat (w_latency w))
                        (PrimFloat.mul njit (w_jitter w)))
         (PrimFloat.mul nloss (w_loss w)))
      sumw in
  fclamp raw 0%float 1%float.

Definition score_path (cfg_ : QoSConfig) (pm : PathMetrics) (clazz : QoSClass)
  : QoSScore :=
  let th := match thresholds_by_class cfg_ clazz with
            | None => QoSThresholds_init
            | Some th => th
            end in
  let nlat := normalize_latency (latency_us pm) (max_latency_us th) in
  let njit := normalize_jitter (jitter_us pm) (max_jitter_us th) in
  let nloss := normalize_loss (loss pm) (max_loss th) in
  {| sc_path_id := path_id pm;
     score := blend nlat njit nloss (weights cfg_);
     within_thresholds :=
       (latency_us pm <=? max_latency_us th)
       && (jitter_us pm <=? max_jitter_us th)
       && PrimFloat.leb (loss pm) (max_loss th) |}.

(** [if (!best.has_value() || s.score > best->score) best = s;] *)
Definition keep_better (best : option QoSScore) (s : QoSScore)
  : option QoSScore :=
  match best with
  | None => Some s
  | Some b => if PrimFloat.ltb (score b) (score s) then Some s else best
  end.

(** One round of the first loop of [choose_best]. *)
Definition first_pass_step (cfg_ : QoSConfig) (clazz : QoSClass)
  (require_within_thresholds : bool) (best : option QoSScore)
  (pm : PathMetrics) : option QoSScore :=
  let s := score_path cfg_ pm clazz in
  if require_within_thresholds && negb (within_thresholds s) then best
  else keep_better best s.

(** One round of the fallback loop. *)
Definition fallback_step (cfg_ : QoSConfig) (clazz : QoSClass)
  (best : option QoSScore) (pm : PathMetrics) : option QoSScore :=
  keep_better best (score_path cfg_ pm clazz).

Definition choose_best (cfg_ : QoSConfig) (candidates : list PathMetrics)
  (clazz : QoSClass) (require_within_thresholds : bool) : option QoSScore :=
  let best :=
    fold_left (first_pass_step cfg_ clazz require_within_thresholds)
              candidates None in
  if negb (bool_decide (is_Some best)) && require_within_thresholds
  then fold_left (fallback_step cfg_ clazz) candidates best
  else best.

(** A configuration with defaults only, and two paths, the second one
    over every default target. *)
Definition QoSConfig_init : QoSConfig :=
  {| thresholds_by_class := fun _ => None; weights := QoSWeights_init;
     dscp_by_class := fun _ => None |}.

Definition good_path : PathMetrics :=
  {| path_id := "pop-a"; latency_us := 4000; jitter_us := 1000;
     loss := 0.001%float |}.

Definition slow_path : PathMetrics :=
  {| path_id := "pop-b"; latency_us := 40000; jitter_us := 9000;
     loss := 0.05%float |}.

End Qos.

Module Failover.

Import PrimFloat.

#[local] Set Warnings "-inexact-float".

Inductive HealthState : Type :=
| Up
| Degraded
| Down.

Definition is_Down (s : HealthState) : bool :=
  match s with
  | Down => true
  | _ => false
  end.

Record FailoverConfig : Type := mkFailoverConfig {
  primary_path_id : string;
  return_to_primary : bool;
  improve_pct_to_switch : float;
  min_hold_ms : Z;
  recovery_hold_ms : Z
}.

Definition FailoverConfig_init : FailoverConfig :=
  {| primary_path_id := EmptyString; return_to_primary := true;
     improve_pct_to_switch := 0.10%float; min_hold_ms := 3000;
     recovery_hold_ms := 5000 |}.

(** [last_change] is a [steady_clock::time_point]: its tick count.  The
    tick is the nanosecond, the period of [steady_clock] in libstdc++ and
    libc++. *)
Record PathHealth : Type := mkPathHealth {
  path_id : string;
  state : HealthState;
  last_change : Z
}.

Record FailoverDecision : Type := mkFailoverDecision {
  next_path_id : string;
  reason : string
}.

Definition find_score (v : list Qos.QoSScore) (id : string)
  : option Qos.QoSScore :=
  List.find (fun s => String.eqb (Qos.sc_path_id s) id) v.

(** [std::find_if(health.begin(), health.end(), path_id == id)] *)
Definition find_health (h : list PathHealth) (id : string)
  : option PathHealth :=
  List.find (fun ph => String.eqb (path_id ph) id) h.

Definition state_of (id : string) (h : list PathHealth) : HealthState :=
  match find_health h id with
  | Some ph => state ph
  | None => Down
  end.

(** [(it == health.end()) ? time_point{} : it->last_change] *)
Definition last_change_of (id : string) (h : list PathHealth) : Z :=
  match find_health h id with
  | Some ph => last_change ph
  | None => 0
  end.

(** [duration_cast<milliseconds>] truncates towards zero. *)
Definition allow_switch (last now : Z) (hold_ms : Z) : bool :=
  (last =? 0) || (Z.quot (now - last) 1000000 >=? hold_ms).

(** One round of the loop that looks for the best candidate not [Down]. *)
Definition best_step (health : list PathHealth) (best : option Qos.QoSScore)
  (s : Qos.QoSScore) : option Qos.QoSScore :=
  if is_Down (state_of (Qos.sc_path_id s) health) then best
  else
    match best with
    | None => Some s
    | Some b => if PrimFloat.ltb (Qos.score b) (Qos.score s) then Some s
                else best
    end.

Definition evaluate (cfg_ : FailoverConfig) (current : string)
  (scores : list Qos.QoSScore) (health : list PathHealth) (now : Z)
  : option FailoverDecision :=
  let cur_state := state_of current health in
  let cur_sc := find_score scores current in
  let cur_last_change := last_change_of current health in
  match fold_left (best_step health) scores None with
  | None => None
  | Some best =>
      if is_Down cur_state then
        Some {| next_path_id := Qos.sc_path_id best; reason := "current_down" |}
      else
        match cur_sc with
        | None =>
            Some {| next_path_id := Qos.sc_path_id best;
                    reason := "no_current_score" |}
        | Some cur =>
            let needed :=
              PrimFloat.mul (Qos.score cur)
                (PrimFloat.add 1%float (improve_pct_to_switch cfg_)) in
            if negb (String.eqb (Qos.sc_path_id best) current)
               && PrimFloat.leb needed (Qos.score best)
               && allow_switch cur_last_change now (min_hold_ms cfg_)
            then
              Some {| next_path_id := Qos.sc_path_id best;
                      reason := "better_candidate_with_margin" |}
            else if return_to_primary cfg_
                    && negb (String.eqb (primary_path_id cfg_) EmptyString)
                    && negb (String.eqb (primary_path_id cfg_) current)
            then
              let prim := find_score scores (primary_path_id cfg_) in
              let prim_state := state_of (primary_path_id cfg_) health in
              let prim_last_change :=
                last_change_of (primary_path_id cfg_) health in
              match prim with
              | Some p =>
                  if negb (is_Down prim_state)
                     && PrimFloat.leb (Qos.score best) (Qos.score p)
                     && allow_switch prim_last_change now
                          (recovery_hold_ms cfg_)
                  then
                    Some {| next_path_id := primary_path_id cfg_;
                            reason := "return_to_primary" |}
                  else None
              | None => None
              end
            else None
        end
  end.

(** Two scored paths; "pop-a" is current and went down. *)
Definition sample_scores : list Qos.QoSScore :=
  [ {| Qos.sc_path_id := "pop-a"; Qos.score := 0.9%float;
       Qos.within_thresholds := true |};
    {| Qos.sc_path_id := "pop-b"; Qos.score := 0.5%float;
       Qos.within_thresholds := true |} ].

Definition sample_health : list PathHealth :=
  [ {| path_id := "pop-a"; state := Down; last_change := 1000 |};
    {| path_id := "pop-b"; state := Up; last_change := 1000 |} ].


End Failover.

(** * Properties *)

(** ** Machine arithmetic *)

Lemma wrap32_range z : 0 <= wrap32 z < 2 ^ 32.
Proof. unfold wrap32. apply Z.mod_pos_bound. lia. Qed.

Lemma wrap32_small z : 0 <= z < 2 ^ 32 -> wrap32 z = z.
Proof. intros H. unfold wrap32. now apply Z.mod_small. Qed.

Lemma wrap64_small z : 0 <= z < 2 ^ 64 -> wrap64 z = z.
Proof. intros H. unfold wrap64. now apply Z.mod_small. Qed.

(** [x & (2^k - 1)] is [x mod 2^k]. *)
Lemma land_mask_mod (x k : Z) : 0 <= k -> Z.land x (2 ^ k - 1) = x mod 2 ^ k.
Proof.
  intros Hk. rewrite <- Z.land_ones by assumption.
  now rewrite Z.ones_equiv, <- Z.sub_1_r.
Qed.

Lemma pow2_land_pred (k : Z) : 0 <= k -> Z.land (2 ^ k) (2 ^ k - 1) = 0.
Proof.
  intros Hk. rewrite land_mask_mod by assumption.
  apply Z.mod_same. apply Z.pow_nonzero; lia.
Qed.

(** Adding two residues: at most one subtraction of the modulus. *)
Lemma mod_add_cases (a b C : Z) :
  0 <= a < C -> 0 <= b < C ->
  (a + b) mod C = if a + b <? C then a + b else a + b - C.
Proof.
  intros Ha Hb. destruct (Z.ltb_spec (a + b) C).
  - apply Z.mod_small; lia.
  - transitivity ((a + b - C + 1 * C) mod C); [f_equal; ring |].
    rewrite Z.mod_add by lia. apply Z.mod_small; lia.
Qed.

(** ** A. The SPSC ring is a bounded FIFO *)

Section SpscFacts.

Context {T : Type} {ET : Element T} {PF : Platform}.
Implicit Types (q : Spsc.SpscQueue T) (l : list T) (v x : T) (C : Z).

Lemma pow2_capacity_bounds C :
  Spsc.pow2_capacity C -> 1 <= C <= 2 ^ 63.
Proof.
  intros (k & Hk & ->). split.
  - assert (0 < 2 ^ k) by (apply Z.pow_pos_nonneg; lia). lia.
  - apply Z.pow_le_mono_r; lia.
Qed.

Lemma pow2_capacity_mask C (z : Z) :
  Spsc.pow2_capacity C -> Z.land z (C - 1) = z mod C.
Proof. intros (k & Hk & ->). apply land_mask_mod. lia. Qed.

(** The next index after [i] is [(i + 1) mod C]. *)
Lemma next_index C q l (i : Z) :
  Spsc.Repr C q l -> 0 <= i < C ->
  Z.land (wrap64 (i + 1)) (Spsc.mask_ q) = (i + 1) mod C.
Proof.
  intros R Hi. pose proof (pow2_capacity_bounds C (Spsc.repr_pow2 _ _ _ R)).
  rewrite (Spsc.repr_mask _ _ _ R), wrap64_small by lia.
  apply pow2_capacity_mask, (Spsc.repr_pow2 _ _ _ R).
Qed.

Lemma repr_tail_range C q l :
  Spsc.Repr C q l -> 0 <= Spsc.tail_ q < C.
Proof.
  intros R. pose proof (pow2_capacity_bounds C (Spsc.repr_pow2 _ _ _ R)).
  rewrite (Spsc.repr_tail _ _ _ R). apply Z.mod_pos_bound. lia.
Qed.

(** Distinct offsets below [C] land on distinct cells. *)
Lemma offset_inj C (h a b : Z) :
  0 <= h < C -> 0 <= a < C -> 0 <= b < C ->
  (h + a) mod C = (h + b) mod C -> a = b.
Proof.
  intros Hh Ha Hb. rewrite !mod_add_cases by lia.
  destruct (Z.ltb_spec (h + a) C), (Z.ltb_spec (h + b) C); lia.
Qed.

(** What the factory returns when it returns a ring. *)
Lemma with_capacity_ring C q :
  Spsc.pow2_capacity C ->
  Spsc.with_capacity C = Spsc.Returns (inr q) ->
  q = {| Spsc.head_ := 0; Spsc.tail_ := 0;
         Spsc.buf_ :=
           replicate (Z.to_nat (wrap64 (C * sizeof T) / sizeof T)) None;
         Spsc.capacity_ := C; Spsc.mask_ := C - 1 |} /\
  Spsc.SpscTraits_ok (T := T) = true /\
  grants (wrap64 (C * sizeof T)) = true.
Proof.
  intros HC. pose proof (pow2_capacity_bounds C HC) as HB.
  unfold Spsc.with_capacity.
  destruct (C =? 0); [discriminate |].
  destruct (negb (_ =? 0)); [discriminate |].
  destruct Spsc.SpscTraits_ok; [| discriminate]. cbn [negb].
  destruct (grants _); [| discriminate]. cbn [negb].
  intros [= <-]. rewrite (wrap64_small (C - 1)) by lia. auto.
Qed.

Lemma fresh_repr C q :
  Spsc.pow2_capacity C ->
  Spsc.with_capacity C = Spsc.Returns (inr q) -> Spsc.Repr C q [].
Proof.
  intros HC Hq. pose proof (pow2_capacity_bounds C HC) as HB.
  destruct (with_capacity_ring C q HC Hq) as (-> & _ & _).
  constructor; simpl; try lia; auto.
  intros i x. rewrite lookup_nil. discriminate.
Qed.

(** When the byte count fits [size_t] the storage has [C] cells. *)
Lemma fresh_whole C q :
  Spsc.pow2_capacity C -> C * sizeof T < 2 ^ 64 ->
  Spsc.with_capacity C = Spsc.Returns (inr q) -> Spsc.whole q.
Proof.
  intros HC Hfit Hq. pose proof (pow2_capacity_bounds C HC) as HB.
  pose proof (sizeof_range T) as Hs.
  destruct (with_capacity_ring C q HC Hq) as (-> & _ & _).
  unfold Spsc.whole. simpl. rewrite length_replicate.
  rewrite wrap64_small by nia. rewrite Z.div_mul by lia. reflexivity.
Qed.

(** A power-of-two capacity is accepted whenever the element type is and
    the storage is obtained. *)
Lemma with_capacity_pow2 C :
  Spsc.pow2_capacity C -> Spsc.SpscTraits_ok (T := T) = true ->
  grants (wrap64 (C * sizeof T)) = true ->
  exists q, Spsc.with_capacity (T := T) C = Spsc.Returns (inr q).
Proof.
  intros HC Hok Hg. pose proof (pow2_capacity_bounds C HC) as HB.
  unfold Spsc.with_capacity.
  destruct (Z.eqb_spec C 0); [lia |].
  rewrite wrap64_small by lia.
  destruct HC as (k & Hk & ->). rewrite pow2_land_pred by lia.
  rewrite Hok, Hg. simpl. eauto.
Qed.

Lemma push_full C q l v :
  Spsc.Repr C q l -> Z.of_nat (length l) = C - 1 ->
  Spsc.push v q = Spsc.Returns (false, q).
Proof.
  intros R Hl. pose proof (pow2_capacity_bounds C (Spsc.repr_pow2 _ _ _ R)).
  pose proof (repr_tail_range C q l R) as Ht.
  pose proof (Spsc.repr_head _ _ _ R) as Hh.
  unfold Spsc.push. cbv zeta. rewrite (next_index C q l) by assumption.
  replace ((Spsc.tail_ q + 1) mod C) with (Spsc.head_ q).
  - now rewrite Z.eqb_refl.
  - rewrite (Spsc.repr_tail _ _ _ R), Hl, Z.add_mod_idemp_l by lia.
    replace (Spsc.head_ q + (C - 1) + 1) with (Spsc.head_ q + 1 * C) by ring.
    rewrite Z.mod_add by lia. symmetry. apply Z.mod_small. lia.
Qed.

Lemma next_tail C q l :
  Spsc.Repr C q l ->
  (Spsc.tail_ q + 1) mod C
  = (Spsc.head_ q + (Z.of_nat (length l) + 1)) mod C.
Proof.
  intros R. pose proof (pow2_capacity_bounds C (Spsc.repr_pow2 _ _ _ R)).
  rewrite (Spsc.repr_tail _ _ _ R), Z.add_mod_idemp_l by lia.
  f_equal. ring.
Qed.

(** With room left, [push] gets as far as the assignment. *)
Lemma push_room C q l v :
  Spsc.Repr C q l -> Z.of_nat (length l) < C - 1 ->
  Spsc.push v q
  = match Spsc.buf_ q !! Z.to_nat (Spsc.tail_ q) with
    | None => Spsc.Undefined
    | Some None =>
        if is_trivially_copyable T then Spsc.Returns (true, Spsc.store v q)
        else Spsc.Undefined
    | Some (Some _) => Spsc.Returns (true, Spsc.store v q)
    end.
Proof.
  intros R Hl. pose proof (pow2_capacity_bounds C (Spsc.repr_pow2 _ _ _ R)).
  pose proof (repr_tail_range C q l R) as Ht.
  pose proof (Spsc.repr_head _ _ _ R) as Hh.
  unfold Spsc.push. cbv zeta. rewrite (next_index C q l) by assumption.
  destruct (Z.eqb_spec ((Spsc.tail_ q + 1) mod C) (Spsc.head_ q)) as [E | _];
    [| reflexivity].
  exfalso. rewrite (next_tail C q l R) in E.
  assert (Z.of_nat (length l) + 1 = 0); [| lia].
  apply (offset_inj C (Spsc.head_ q)); try lia.
  rewrite E, Z.add_0_r. symmetry. apply Z.mod_small. lia.
Qed.

(** The assignment, done inside the storage, appends to the contents. *)
Lemma store_repr C q l v :
  Spsc.Repr C q l -> Z.of_nat (length l) < C - 1 ->
  (Z.to_nat (Spsc.tail_ q) < length (Spsc.buf_ q))%nat ->
  Spsc.Repr C (Spsc.store v q) (l ++ [v]).
Proof.
  intros R Hl Hin. pose proof (pow2_capacity_bounds C (Spsc.repr_pow2 _ _ _ R)).
  pose proof (repr_tail_range C q l R) as Ht.
  pose proof (Spsc.repr_head _ _ _ R) as Hh.
  constructor; simpl.
  - apply (Spsc.repr_pow2 _ _ _ R).
  - apply (Spsc.repr_cap _ _ _ R).
  - apply (Spsc.repr_mask _ _ _ R).
  - assumption.
  - rewrite length_app. simpl. lia.
  - rewrite (next_index C q l), (next_tail C q l R), length_app by assumption.
    simpl. f_equal. lia.
  - intros i x Hi.
    destruct (decide (i < length l)%nat) as [Hlt | Hge].
    + rewrite lookup_app_l in Hi by assumption.
      rewrite list_lookup_insert_ne.
      * now apply (Spsc.repr_cells _ _ _ R).
      * intros E. apply Z2Nat.inj in E.
        -- rewrite (Spsc.repr_tail _ _ _ R) in E.
           apply offset_inj in E; lia.
        -- lia.
        -- apply Z.mod_pos_bound. lia.
    + assert (i = length l).
      { apply lookup_lt_Some in Hi. rewrite length_app in Hi. simpl in Hi. lia. }
      subst i. rewrite lookup_app_r, Nat.sub_diag in Hi by lia.
      injection Hi as <-.
      rewrite <- (Spsc.repr_tail _ _ _ R).
      now apply list_lookup_insert_eq.
Qed.

(** A push that returns with room left has stored its value. *)
Lemma push_ok C q l v (ok : bool) q' :
  Spsc.Repr C q l -> Z.of_nat (length l) < C - 1 ->
  Spsc.push v q = Spsc.Returns (ok, q') ->
  ok = true /\ q' = Spsc.store v q /\ Spsc.Repr C q' (l ++ [v]) /\
  (Z.to_nat (Spsc.tail_ q) < length (Spsc.buf_ q))%nat.
Proof.
  intros R Hl. rewrite (push_room C q l v R Hl).
  destruct (Spsc.buf_ q !! Z.to_nat (Spsc.tail_ q)) as [cell |] eqn:E;
    [| discriminate].
  apply lookup_lt_Some in E.
  assert (Spsc.Returns (true, Spsc.store v q) = Spsc.Returns (ok, q') ->
          ok = true /\ q' = Spsc.store v q /\ Spsc.Repr C q' (l ++ [v]) /\
          (Z.to_nat (Spsc.tail_ q) < length (Spsc.buf_ q))%nat) as Hstored.
  { intros [= <- <-]. auto using store_repr. }
  destruct cell; [assumption |].
  destruct (is_trivially_copyable T); [assumption | discriminate].
Qed.

(** On whole storage a trivially copyable value is always stored. *)
Lemma push_defined C q l v :
  Spsc.Repr C q l -> Z.of_nat (length l) < C - 1 ->
  Spsc.whole q -> is_trivially_copyable T = true ->
  Spsc.push v q = Spsc.Returns (true, Spsc.store v q).
Proof.
  intros R Hl Hw Htc. rewrite (push_room C q l v R Hl).
  pose proof (repr_tail_range C q l R) as Ht.
  unfold Spsc.whole in Hw. rewrite (Spsc.repr_cap _ _ _ R) in Hw.
  destruct (Spsc.buf_ q !! Z.to_nat (Spsc.tail_ q)) as [cell |] eqn:E.
  - destruct cell; [reflexivity | now rewrite Htc].
  - apply lookup_ge_None in E. lia.
Qed.

Lemma store_whole q v : Spsc.whole q -> Spsc.whole (Spsc.store v q).
Proof. unfold Spsc.whole. simpl. now rewrite length_insert. Qed.

Lemma push_not_terminates q v : Spsc.push v q <> Spsc.Terminates.
Proof.
  unfold Spsc.push. cbv zeta. destruct (_ =? _); [discriminate |].
  destruct (Spsc.buf_ q !! _) as [[|] |]; try discriminate.
  destruct (is_trivially_copyable T); discriminate.
Qed.

Lemma pop_empty C q out :
  Spsc.Repr C q [] -> Spsc.pop out q = Spsc.Returns (false, out, q).
Proof.
  intros R. pose proof (pow2_capacity_bounds C (Spsc.repr_pow2 _ _ _ R)).
  pose proof (Spsc.repr_head _ _ _ R) as Hh.
  unfold Spsc.pop. cbv zeta. rewrite (Spsc.repr_tail _ _ _ R). simpl.
  rewrite Z.add_0_r, Z.mod_small, Z.eqb_refl by lia. reflexivity.
Qed.

(** A pop on a ring that holds something always returns: the cell at the
    head was assigned. *)
Lemma pop_cons C q x l out :
  Spsc.Repr C q (x :: l) ->
  exists q', Spsc.pop out q = Spsc.Returns (true, x, q') /\
             Spsc.Repr C q' l /\ Spsc.buf_ q' = Spsc.buf_ q.
Proof.
  intros R. pose proof (pow2_capacity_bounds C (Spsc.repr_pow2 _ _ _ R)).
  pose proof (Spsc.repr_head _ _ _ R) as Hh.
  pose proof (Spsc.repr_len _ _ _ R) as Hl. simpl length in Hl.
  unfold Spsc.pop. cbv zeta.
  destruct (Z.eqb_spec (Spsc.head_ q) (Spsc.tail_ q)) as [E | _].
  { exfalso. rewrite (Spsc.repr_tail _ _ _ R) in E. simpl length in E.
    assert (Z.of_nat (S (length l)) = 0); [| lia].
    apply (offset_inj C (Spsc.head_ q)); try lia.
    rewrite <- E, Z.add_0_r. symmetry. apply Z.mod_small. lia. }
  pose proof (Spsc.repr_cells _ _ _ R 0%nat x eq_refl) as Hc.
  simpl in Hc. rewrite Z.add_0_r, Z.mod_small in Hc by lia. rewrite Hc.
  rewrite (next_index C q (x :: l)) by assumption.
  eexists. split; [reflexivity |]. split; [| reflexivity].
  constructor; simpl.
  - apply (Spsc.repr_pow2 _ _ _ R).
  - apply (Spsc.repr_cap _ _ _ R).
  - apply (Spsc.repr_mask _ _ _ R).
  - apply Z.mod_pos_bound. lia.
  - lia.
  - rewrite (Spsc.repr_tail _ _ _ R), Z.add_mod_idemp_l by lia.
    f_equal. simpl length. lia.
  - intros i y Hi. rewrite Z.add_mod_idemp_l by lia.
    pose proof (Spsc.repr_cells _ _ _ R (S i) y Hi) as Hc'.
    rewrite <- Hc'. do 3 f_equal. lia.
Qed.

Lemma whole_repr C q q' l l' :
  Spsc.Repr C q l -> Spsc.Repr C q' l' ->
  length (Spsc.buf_ q') = length (Spsc.buf_ q) ->
  Spsc.whole q -> Spsc.whole q'.
Proof.
  intros R R' E. unfold Spsc.whole.
  now rewrite E, (Spsc.repr_cap _ _ _ R), (Spsc.repr_cap _ _ _ R').
Qed.

Lemma approx_size_repr C q l :
  Spsc.Repr C q l -> Spsc.approx_size q = Z.of_nat (length l).
Proof.
  intros R. pose proof (pow2_capacity_bounds C (Spsc.repr_pow2 _ _ _ R)).
  pose proof (Spsc.repr_head _ _ _ R) as Hh.
  pose proof (Spsc.repr_len _ _ _ R) as Hl.
  pose proof (repr_tail_range C q l R) as Ht.
  unfold Spsc.approx_size.
  rewrite (Spsc.repr_cap _ _ _ R), (Spsc.repr_mask _ _ _ R).
  assert (2 ^ 63 + 2 ^ 63 = 2 ^ 64) by reflexivity.
  rewrite (wrap64_small (Spsc.tail_ q + C)) by lia.
  rewrite wrap64_small by lia.
  rewrite pow2_capacity_mask by apply (Spsc.repr_pow2 _ _ _ R).
  rewrite (Spsc.repr_tail _ _ _ R), mod_add_cases by lia.
  destruct (Z.ltb_spec (Spsc.head_ q + Z.of_nat (length l)) C).
  - replace (Spsc.head_ q + Z.of_nat (length l) + C - Spsc.head_ q)
      with (Z.of_nat (length l) + 1 * C) by ring.
    rewrite Z.mod_add by lia. apply Z.mod_small. lia.
  - replace (Spsc.head_ q + Z.of_nat (length l) - C + C - Spsc.head_ q)
      with (Z.of_nat (length l)) by ring.
    apply Z.mod_small. lia.
Qed.

Lemma empty_repr C q l :
  Spsc.Repr C q l -> Spsc.empty q = true <-> l = [].
Proof.
  intros R. pose proof (pow2_capacity_bounds C (Spsc.repr_pow2 _ _ _ R)).
  pose proof (Spsc.repr_head _ _ _ R) as Hh.
  pose proof (Spsc.repr_len _ _ _ R) as Hl.
  unfold Spsc.empty. rewrite Z.eqb_eq, (Spsc.repr_tail _ _ _ R). split.
  - intros E. apply length_zero_iff_nil.
    assert (Z.of_nat (length l) = 0); [| lia].
    apply (offset_inj C (Spsc.head_ q)); try lia.
    rewrite <- E, Z.add_0_r. symmetry. apply Z.mod_small. lia.
  - intros ->. simpl. rewrite Z.add_0_r. symmetry. apply Z.mod_small. lia.
Qed.

(** One call that returns keeps the ring a ring over as many cells, and
    accounts for its value. *)
Lemma step_repr C q l (dflt : T) (o : Spsc.op T) r q1 :
  Spsc.Repr C q l ->
  Spsc.step dflt o q = Spsc.Returns (r, q1) ->
  exists l1, Spsc.Repr C q1 l1 /\
             length (Spsc.buf_ q1) = length (Spsc.buf_ q) /\
             l ++ Spsc.accepted [r] = Spsc.delivered [r] ++ l1.
Proof.
  intros R. pose proof (pow2_capacity_bounds C (Spsc.repr_pow2 _ _ _ R)).
  pose proof (Spsc.repr_len _ _ _ R) as Hl.
  destruct o as [v |]; simpl.
  - destruct (decide (Z.of_nat (length l) = C - 1)) as [Hfull | Hroom].
    + rewrite (push_full C q l v R Hfull). simpl. intros [= <- <-].
      exists l. simpl. now rewrite app_nil_r.
    + destruct (Spsc.push v q) as [[ok q'] | |] eqn:E; try discriminate.
      simpl. intros [= <- <-].
      destruct (push_ok C q l v ok q' R) as (-> & -> & R1 & _);
        [lia | assumption |].
      exists (l ++ [v]). simpl. now rewrite length_insert.
  - destruct l as [| x l].
    + rewrite (pop_empty C q dflt R). simpl. intros [= <- <-].
      exists []. auto.
    + destruct (pop_cons C q x l dflt R) as (q' & -> & R1 & Eb).
      simpl. intros [= <- <-]. exists l. rewrite Eb. simpl.
      rewrite app_nil_r. auto.
Qed.

Lemma accepted_cons (r : Spsc.result T) rs :
  Spsc.accepted (r :: rs) = Spsc.accepted [r] ++ Spsc.accepted rs.
Proof. destruct r as [v [|] | o]; reflexivity. Qed.

Lemma delivered_cons (r : Spsc.result T) rs :
  Spsc.delivered (r :: rs) = Spsc.delivered [r] ++ Spsc.delivered rs.
Proof. destruct r as [v ok | [x |]]; reflexivity. Qed.

Lemma run_repr C q l (dflt : T) (ops : list (Spsc.op T)) rs q' :
  Spsc.Repr C q l ->
  Spsc.run dflt ops q = Spsc.Returns (rs, q') ->
  exists l', Spsc.Repr C q' l' /\
             length (Spsc.buf_ q') = length (Spsc.buf_ q) /\
             l ++ Spsc.accepted rs = Spsc.delivered rs ++ l'.
Proof.
  revert q l rs q'. induction ops as [| o ops IH]; intros q l rs q' R.
  - simpl. intros [= <- <-]. exists l. simpl. now rewrite app_nil_r.
  - simpl.
    destruct (Spsc.step dflt o q) as [[r q1] | |] eqn:E1; try discriminate.
    simpl.
    destruct (Spsc.run dflt ops q1) as [[rs1 q2] | |] eqn:E2; try discriminate.
    simpl. intros [= <- <-].
    destruct (step_repr C q l dflt o r q1 R E1) as (l1 & R1 & Eb1 & A1).
    destruct (IH q1 l1 rs1 q2 R1 E2) as (l' & R' & Eb2 & A2).
    exists l'. split; [assumption |]. split; [congruence |].
    rewrite accepted_cons, delivered_cons, app_assoc, A1, <- !app_assoc.
    now rewrite A2.
Qed.

(** On whole storage, with a trivially copyable element, every call
    returns. *)
Lemma run_defined C q l (dflt : T) (ops : list (Spsc.op T)) :
  Spsc.Repr C q l -> Spsc.whole q -> is_trivially_copyable T = true ->
  exists rs q', Spsc.run dflt ops q = Spsc.Returns (rs, q').
Proof.
  intros R Hw Htc. revert q l R Hw.
  induction ops as [| o ops IH]; intros q l R Hw.
  - simpl. eauto.
  - pose proof (Spsc.repr_len _ _ _ R) as Hl.
    assert (exists r q1 l1, Spsc.step dflt o q = Spsc.Returns (r, q1) /\
                            Spsc.Repr C q1 l1 /\ Spsc.whole q1)
      as (r & q1 & l1 & E1 & R1 & Hw1).
    { destruct o as [v |]; simpl.
      - destruct (decide (Z.of_nat (length l) = C - 1)) as [Hfull | Hroom].
        + rewrite (push_full C q l v R Hfull). simpl. eauto 6.
        + rewrite (push_defined C q l v R) by (lia || assumption). simpl.
          do 3 eexists. split; [reflexivity |].
          split; [apply store_repr; try eassumption; try lia | now apply store_whole].
          pose proof (repr_tail_range C q l R).
          unfold Spsc.whole in Hw. rewrite (Spsc.repr_cap _ _ _ R) in Hw. lia.
      - destruct l as [| x l].
        + rewrite (pop_empty C q dflt R). simpl. eauto 6.
        + destruct (pop_cons C q x l dflt R) as (q' & -> & R1 & Eb).
          simpl. do 3 eexists. split; [reflexivity |].
          split; [eassumption |].
          apply (whole_repr C q q' _ _ R R1); [now rewrite Eb | assumption]. }
    destruct (IH q1 l1 R1 Hw1) as (rs & q' & E2).
    simpl. rewrite E1. simpl. rewrite E2. simpl. eauto.
Qed.

(** Draining is made of pops only: it always returns. *)
Lemma drain_repr C q l (v : T) (fuel : nat) :
  Spsc.Repr C q l -> (length l <= fuel)%nat ->
  exists q', Spsc.drain fuel v q = Spsc.Returns (l, q') /\
             Spsc.Repr C q' [] /\ Spsc.buf_ q' = Spsc.buf_ q.
Proof.
  revert q l v. induction fuel as [| fuel IH]; intros q l v R Hf.
  - destruct l; [| simpl in Hf; lia]. simpl. eauto.
  - destruct l as [| x l]; simpl.
    + rewrite (pop_empty C q v R). simpl. eauto.
    + destruct (pop_cons C q x l v R) as (q1 & -> & R1 & Eb1). simpl.
      destruct (IH q1 l x R1) as (q2 & -> & R2 & Eb2); [simpl in Hf; lia |].
      simpl. exists q2. split; [reflexivity |]. split; [assumption | congruence].
Qed.

(** Pushes that return while there is room all succeed, each into a cell
    of the storage. *)
Lemma push_all_repr C q l (vs : list T) oks q' :
  Spsc.Repr C q l -> Z.of_nat (length l) + Z.of_nat (length vs) <= C - 1 ->
  Spsc.push_all vs q = Spsc.Returns (oks, q') ->
  oks = repeat true (length vs) /\ Spsc.Repr C q' (l ++ vs) /\
  length (Spsc.buf_ q') = length (Spsc.buf_ q) /\ Spsc.head_ q' = Spsc.head_ q.
Proof.
  revert q l oks q'. induction vs as [| v vs IH]; intros q l oks q' R Hl; simpl.
  - intros [= <- <-]. rewrite app_nil_r. auto.
  - simpl length in Hl.
    destruct (Spsc.push v q) as [[ok q1] | |] eqn:E1; try discriminate.
    simpl.
    destruct (Spsc.push_all vs q1) as [[oks1 q2] | |] eqn:E2; try discriminate.
    simpl. intros [= <- <-].
    destruct (push_ok C q l v ok q1 R) as (-> & -> & R1 & _);
      [lia | assumption |].
    destruct (IH _ _ oks1 q2 R1) as (-> & R2 & Eb & Eh);
      [rewrite length_app; simpl; lia | assumption |].
    rewrite <- app_assoc in R2. simpl in Eb, Eh.
    rewrite length_insert in Eb. auto.
Qed.

Lemma push_all_defined C q l (vs : list T) :
  Spsc.Repr C q l -> Z.of_nat (length l) + Z.of_nat (length vs) <= C - 1 ->
  Spsc.whole q -> is_trivially_copyable T = true ->
  exists oks q', Spsc.push_all vs q = Spsc.Returns (oks, q').
Proof.
  intros R Hl Hw Htc. revert q l R Hl Hw.
  induction vs as [| v vs IH]; intros q l R Hl Hw; simpl.
  - eauto.
  - simpl length in Hl.
    rewrite (push_defined C q l v R) by (lia || assumption). simpl.
    assert (Spsc.Repr C (Spsc.store v q) (l ++ [v])) as R1.
    { apply store_repr; [assumption | lia |].
      pose proof (repr_tail_range C q l R).
      unfold Spsc.whole in Hw. rewrite (Spsc.repr_cap _ _ _ R) in Hw. lia. }
    destruct (IH _ _ R1) as (oks & q' & ->);
      [rewrite length_app; simpl; lia | now apply store_whole |].
    simpl. eauto.
Qed.

Lemma push_all_not_terminates (vs : list T) q :
  Spsc.push_all vs q <> Spsc.Terminates.
Proof.
  revert q. induction vs as [| v vs IH]; intros q; simpl; [discriminate |].
  pose proof (push_not_terminates q v).
  destruct (Spsc.push v q) as [[ok q1] | |]; simpl; try congruence.
  specialize (IH q1).
  destruct (Spsc.push_all vs q1) as [[oks q2] | |]; simpl; congruence.
Qed.

(** The contents of a ring whose head is at 0 lie in the first cells. *)
Lemma repr_cells_present C q l :
  Spsc.Repr C q l -> Spsc.head_ q = 0 ->
  (length l <= length (Spsc.buf_ q))%nat.
Proof.
  intros R Hh. pose proof (Spsc.repr_len _ _ _ R) as Hl.
  destruct (decide (l = [])) as [-> | Hne]; [simpl; lia |].
  assert (0 < length l)%nat as Hpos by (destruct l; [congruence | simpl; lia]).
  destruct (lookup_lt_is_Some_2 l (length l - 1)%nat) as [x Hx]; [lia |].
  pose proof (Spsc.repr_cells _ _ _ R _ _ Hx) as Hc.
  rewrite Hh, Z.add_0_l, Z.mod_small in Hc by lia.
  apply lookup_lt_Some in Hc. lia.
Qed.

(** A ring used by one producer and one consumer is a FIFO that loses
    nothing: for every sequence of pushes and pops on a fresh ring in
    which each call returns, the values popped, followed by the values a
    final drain returns, are exactly the values whose push succeeded, in
    push order, and the ring ends empty.  Every call does return when the
    byte count of the storage fits [size_t] and the element type is
    trivially copyable. *)
Lemma ring_fifo_no_loss C q (dflt : T) (ops : list (Spsc.op T)) :
  Spsc.pow2_capacity C ->
  Spsc.with_capacity C = Spsc.Returns (inr q) ->
  (forall rs q1,
      Spsc.run dflt ops q = Spsc.Returns (rs, q1) ->
      exists xs q2,
        Spsc.drain (Z.to_nat C) dflt q1 = Spsc.Returns (xs, q2) /\
        Spsc.delivered rs ++ xs = Spsc.accepted rs /\
        Spsc.empty q2 = true) /\
  (C * sizeof T < 2 ^ 64 -> is_trivially_copyable T = true ->
   exists rs q1, Spsc.run dflt ops q = Spsc.Returns (rs, q1)).
Proof.
  intros HC Hq. pose proof (fresh_repr C q HC Hq) as R. split.
  - intros rs q1 Hrun.
    destruct (run_repr C q [] dflt ops rs q1 R Hrun) as (l' & R' & _ & E).
    simpl in E. pose proof (Spsc.repr_len _ _ _ R') as Hl.
    destruct (drain_repr C q1 l' dflt (Z.to_nat C) R') as (q2 & D & R2 & _);
      [lia |].
    exists l', q2. split; [assumption |]. split; [now rewrite E |].
    now apply (empty_repr C _ [] R2).
  - intros Hfit Htc. apply (run_defined C q [] dflt ops R); [| exact Htc].
    now apply (fresh_whole C).
Qed.

(** C5. For every power-of-two capacity [C], a ring of capacity [C] holds
    at most [C - 1] elements: once [C - 1] pushes on a fresh ring, with no
    pops, have returned, each of them has succeeded, the ring reports
    [C - 1] elements and is full, and the [C]-th push returns false and
    leaves the ring as it was, buffer and tail index included; no
    sequence of calls that return leaves more than [C - 1] elements
    stored.  The [C - 1] pushes do return whenever the byte count of the
    storage fits [size_t] and the element type is trivially copyable. *)
Theorem C5_ring_holds_capacity_minus_one
  C q (vs : list T) v
  (HC : Spsc.pow2_capacity C)
  (Hq : Spsc.with_capacity C = Spsc.Returns (inr q))
  (Hvs : Z.of_nat (length vs) = C - 1) :
  (forall oks q1,
      Spsc.push_all vs q = Spsc.Returns (oks, q1) ->
      oks = repeat true (length vs) /\
      Spsc.approx_size q1 = C - 1 /\
      Spsc.full q1 = true /\
      Spsc.push v q1 = Spsc.Returns (false, q1)) /\
  (forall (dflt : T) (ops : list (Spsc.op T)) rs q',
      Spsc.run dflt ops q = Spsc.Returns (rs, q') ->
      Spsc.approx_size q' <= C - 1) /\
  (C * sizeof T < 2 ^ 64 -> is_trivially_copyable T = true ->
   exists oks q1, Spsc.push_all vs q = Spsc.Returns (oks, q1)).
Proof.
  pose proof (fresh_repr C q HC Hq) as R. split; [| split].
  - intros oks q1 Hpush.
    destruct (push_all_repr C q [] vs oks q1 R) as (E & R1 & _);
      [simpl; lia | assumption |].
    simpl in R1. pose proof (push_full C q1 vs v R1 Hvs) as Hfull.
    repeat split.
    + exact E.
    + rewrite (approx_size_repr C q1 vs R1). exact Hvs.
    + unfold Spsc.full. revert Hfull. unfold Spsc.push. cbv zeta.
      destruct (_ =? _); [reflexivity |].
      destruct (Spsc.buf_ q1 !! _) as [[|] |]; try discriminate.
      destruct (is_trivially_copyable T); discriminate.
    + exact Hfull.
  - intros dflt ops rs q' Hrun.
    destruct (run_repr C q [] dflt ops rs q' R Hrun) as (l' & R' & _).
    rewrite (approx_size_repr C _ l' R').
    pose proof (Spsc.repr_len _ _ _ R'). lia.
  - intros Hfit Htc. apply (push_all_defined C q [] vs R); [simpl; lia | | exact Htc].
    now apply (fresh_whole C).
Qed.

(** C6. The ring does not keep every pushed item for every power-of-two
    capacity and every admitted element type.  On the ring the factory
    returns for a capacity of at least 2: when [C * sizeof(T)] does not
    fit [size_t], pushing [C - 1] values is undefined (the storage is
    shorter than the capacity); when the wrapped byte count is smaller
    than one element the storage is empty and the very first push is
    undefined; and when [T] is not trivially copyable (it is admitted as
    nothrow-movable) the first push is undefined too, an assignment to a
    cell in which no object was constructed. *)
Theorem C6_ring_push_outside_storage
  C q v (vs : list T)
  (HC : Spsc.pow2_capacity C)
  (H2 : 2 <= C)
  (Hq : Spsc.with_capacity C = Spsc.Returns (inr q)) :
  (2 ^ 64 <= C * sizeof T -> Z.of_nat (length vs) = C - 1 ->
   Spsc.push_all vs q = Spsc.Undefined) /\
  (wrap64 (C * sizeof T) < sizeof T ->
   Spsc.buf_ q = [] /\ Spsc.capacity q = C /\
   Spsc.push v q = Spsc.Undefined) /\
  (is_trivially_copyable T = false -> Spsc.push v q = Spsc.Undefined).
Proof.
  pose proof (fresh_repr C q HC Hq) as R.
  pose proof (pow2_capacity_bounds C HC) as HB.
  pose proof (sizeof_range T) as Hs.
  destruct (with_capacity_ring C q HC Hq) as (Eq & _ & _).
  assert (Hlen : length (Spsc.buf_ q)
                 = Z.to_nat (wrap64 (C * sizeof T) / sizeof T))
    by (rewrite Eq; simpl; apply length_replicate).
  assert (Hcells : forall i cell, Spsc.buf_ q !! i = Some cell -> cell = None).
  { rewrite Eq. simpl. intros i cell Hi.
    now apply lookup_replicate in Hi as [-> _]. }
  assert (Ht : Spsc.tail_ q = 0) by (now rewrite Eq).
  split; [| split].
  - intros Hover Hvs.
    pose proof (push_all_not_terminates vs q) as Hnt.
    destruct (Spsc.push_all vs q) as [[oks q'] | |] eqn:E;
      [exfalso | reflexivity | congruence].
    destruct (push_all_repr C q [] vs oks q' R) as (_ & R' & Eb & Eh);
      [simpl; lia | assumption |].
    assert (Hh : Spsc.head_ q' = 0) by (rewrite Eh, Eq; reflexivity).
    pose proof (repr_cells_present C q' _ R' Hh) as Hin.
    rewrite Eb, Hlen in Hin. simpl in Hin.
    set (w := wrap64 (C * sizeof T)) in *.
    assert (0 <= w) by (apply Z.mod_pos_bound; lia).
    assert (0 <= w / sizeof T) by (apply Z.div_pos; lia).
    assert (Hdiv : sizeof T * (w / sizeof T) <= w)
      by (apply Z.mul_div_le; lia).
    assert (Hdm : C * sizeof T = 2 ^ 64 * (C * sizeof T / 2 ^ 64) + w)
      by (apply Z.div_mod; lia).
    assert (1 <= C * sizeof T / 2 ^ 64)
      by (apply Z.div_le_lower_bound; lia).
    nia.
  - intros Hsmall.
    assert (Hnil : Spsc.buf_ q = []).
    { apply length_zero_iff_nil. rewrite Hlen, Z.div_small; [reflexivity |].
      split; [apply Z.mod_pos_bound; lia | assumption]. }
    split; [assumption |]. split; [now rewrite Eq |].
    rewrite (push_room C q [] v R) by (simpl; lia).
    now rewrite Hnil.
  - intros Htc. rewrite (push_room C q [] v R) by (simpl; lia).
    destruct (Spsc.buf_ q !! Z.to_nat (Spsc.tail_ q)) as [cell |] eqn:E;
      [| reflexivity].
    rewrite (Hcells _ _ E), Htc. reflexivity.
Qed.

(** C10. In the state a fresh ring of capacity [C] reaches by any sequence
    of calls that returned, of which [p] pushes and [q] pops succeeded,
    [approx_size] returns exactly [p - q], which lies between 0 and
    [C - 1], and [empty] returns true exactly when [p = q].  Every
    sequence of calls does return when the byte count of the storage fits
    [size_t] and the element type is trivially copyable. *)
Theorem C10_quiescent_size_and_empty
  C q (dflt : T) (ops : list (Spsc.op T)) rs q1
  (HC : Spsc.pow2_capacity C)
  (Hq : Spsc.with_capacity C = Spsc.Returns (inr q))
  (Hrun : Spsc.run dflt ops q = Spsc.Returns (rs, q1)) :
  Spsc.approx_size q1 = Spsc.pushes_ok rs - Spsc.pops_ok rs /\
  (Spsc.empty q1 = true <-> Spsc.pushes_ok rs = Spsc.pops_ok rs) /\
  0 <= Spsc.pushes_ok rs - Spsc.pops_ok rs <= C - 1 /\
  (C * sizeof T < 2 ^ 64 -> is_trivially_copyable T = true ->
   forall ops', exists rs' q', Spsc.run dflt ops' q = Spsc.Returns (rs', q')).
Proof.
  pose proof (fresh_repr C q HC Hq) as R.
  destruct (run_repr C q [] dflt ops rs q1 R Hrun) as (l' & R' & _ & E).
  simpl in E.
  pose proof (Spsc.repr_len _ _ _ R') as Hl.
  assert (Hcount : Spsc.pushes_ok rs - Spsc.pops_ok rs = Z.of_nat (length l')).
  { unfold Spsc.pushes_ok, Spsc.pops_ok. rewrite E, length_app. lia. }
  rewrite (approx_size_repr C q1 l' R'), (empty_repr C q1 l' R').
  split; [now rewrite Hcount |]. split; [| split; [lia |]].
  - split; intros H.
    + rewrite H in Hcount. simpl in Hcount. lia.
    + apply length_zero_iff_nil. lia.
  - intros Hfit Htc ops'.
    apply (run_defined C q [] dflt ops' R); [| exact Htc].
    now apply (fresh_whole C).
Qed.

End SpscFacts.

Lemma pow2_capacity_8 : Spsc.pow2_capacity 8.
Proof. exists 3. split; [lia | reflexivity]. Defined.

Lemma pow2_capacity_2_62 : Spsc.pow2_capacity (2 ^ 62).
Proof. exists 62. split; [lia | reflexivity]. Defined.

(** The single-thread scenario of the ring tests, on the ring of [int]s
    of capacity 8: pushing 0..6 succeeds seven times, three pops yield
    0, 1, 2, pushing 100..102 succeeds, and draining yields
    [3,4,5,6,100,101,102]. *)
Lemma ring_order_scenario_result :
  Spsc.ring_order_scenario
  = Spsc.Returns (inr ([true; true; true; true; true; true; true],
                       [Some 0; Some 1; Some 2],
                       [true; true; true],
                       [3; 4; 5; 6; 100; 101; 102],
                       true)).
Proof. reflexivity. Qed.

Lemma C5_ring_holds_capacity_minus_one_witness :
  Spsc.pow2_capacity 8 /\
  Spsc.with_capacity 8 = Spsc.Returns (inr Spsc.ring8) /\
  Z.of_nat (length [0; 1; 2; 3; 4; 5; 6]) = 8 - 1 /\
  exists oks q1,
    Spsc.push_all [0; 1; 2; 3; 4; 5; 6] Spsc.ring8 = Spsc.Returns (oks, q1) /\
    Spsc.approx_size q1 = 7 /\
    Spsc.push 999 q1 = Spsc.Returns (false, q1).
Proof.
  assert (Hq : Spsc.with_capacity 8 = Spsc.Returns (inr Spsc.ring8))
    by reflexivity.
  pose proof (C5_ring_holds_capacity_minus_one
                8 Spsc.ring8 [0; 1; 2; 3; 4; 5; 6] 999
                pow2_capacity_8 Hq eq_refl) as (H & _ & _).
  split; [exact pow2_capacity_8 |].
  split; [reflexivity |]. split; [reflexivity |].
  do 2 eexists. split; [reflexivity |].
  split; apply (H _ _ eq_refl).
Defined.

Lemma C6_ring_push_outside_storage_witness :
  Spsc.pow2_capacity (2 ^ 62) /\
  2 <= 2 ^ 62 /\
  Spsc.with_capacity (2 ^ 62) = Spsc.Returns (inr Spsc.ring_2_62) /\
  wrap64 (2 ^ 62 * sizeof Z) < sizeof Z /\
  Spsc.buf_ Spsc.ring_2_62 = [] /\
  Spsc.capacity Spsc.ring_2_62 = 2 ^ 62 /\
  Spsc.push 1 Spsc.ring_2_62 = Spsc.Undefined.
Proof.
  assert (Hq : Spsc.with_capacity (2 ^ 62) = Spsc.Returns (inr Spsc.ring_2_62))
    by reflexivity.
  assert (H2 : 2 <= 2 ^ 62) by lia.
  pose proof (C6_ring_push_outside_storage
                (2 ^ 62) Spsc.ring_2_62 1 []
                pow2_capacity_2_62 H2 Hq) as (_ & H & _).
  split; [exact pow2_capacity_2_62 |].
  split; [lia |]. split; [reflexivity |]. split; [reflexivity |].
  apply H. reflexivity.
Defined.

Lemma C10_quiescent_size_and_empty_witness :
  Spsc.pow2_capacity 8 /\
  Spsc.with_capacity 8 = Spsc.Returns (inr Spsc.ring8) /\
  let ops := [Spsc.Push 1; Spsc.Push 2; Spsc.Pop; Spsc.Push 3] in
  exists rs q1,
    Spsc.run 0 ops Spsc.ring8 = Spsc.Returns (rs, q1) /\
    Spsc.approx_size q1 = Spsc.pushes_ok rs - Spsc.pops_ok rs.
Proof.
  assert (Hq : Spsc.with_capacity 8 = Spsc.Returns (inr Spsc.ring8))
    by reflexivity.
  split; [exact pow2_capacity_8 |]. split; [exact Hq |].
  do 2 eexists. split; [reflexivity |].
  apply (C10_quiescent_size_and_empty
           8 Spsc.ring8 0 [Spsc.Push 1; Spsc.Push 2; Spsc.Pop; Spsc.Push 3]
           _ _ pow2_capacity_8 Hq eq_refl).
Defined.

(** ** C. The metrics seqlock *)

Section SeqlockFacts.

Import Routing.

Lemma land_1_mod2 (x : Z) : Z.land x 1 = x mod 2.
Proof. exact (land_mask_mod x 1 ltac:(lia)). Qed.

Lemma lor_1_even (x : Z) : Z.even x = true -> Z.lor x 1 = x + 1.
Proof.
  intros He. pose proof (Z.add_lor_land x 1) as H.
  rewrite land_1_mod2, Zmod_even, He in H. lia.
Qed.

Lemma even_add_2 (x : Z) : Z.even (x + 2) = Z.even x.
Proof.
  replace (x + 2) with (x + 2 * 1) by ring. now rewrite Z.even_add_mul_2.
Qed.

Lemma wrap32_even (x : Z) : Z.even (wrap32 x) = Z.even x.
Proof.
  unfold wrap32. rewrite (Z.div_mod x (2 ^ 32)) at 2 by lia.
  change (2 ^ 32) with (2 * 2 ^ 31). rewrite <- Z.mul_assoc, Z.add_comm.
  now rewrite Z.even_add_mul_2.
Qed.

(** One update moves [seq] from even to even, two further, through one
    odd value; the payload is written while [seq] is odd. *)
Lemma update_metrics_seq (s : MetricsSlot) (m : PathMetrics) :
  Z.even (seq s) = true ->
  seq (update_metrics s m) = wrap32 (seq s + 2) /\
  Z.even (seq (update_metrics s m)) = true /\
  metrics (update_metrics s m) = m /\
  map seq (update_metrics_trace s m)
  = [seq s + 1; seq s + 1; wrap32 (seq s + 2)] /\
  map metrics (update_metrics_trace s m) = [metrics s; m; m].
Proof.
  intros He. unfold update_metrics, update_metrics_trace. simpl.
  rewrite (lor_1_even _ He).
  replace (seq s + 1 + 1) with (seq s + 2) by ring.
  repeat split. now rewrite wrap32_even, even_add_2.
Qed.

Lemma load_metrics_rounds_le (iters : nat) (v : nat -> MetricsSlot) (t : nat) :
  (load_metrics_rounds iters v t <= iters)%nat.
Proof.
  revert t. induction iters as [| n IH]; intros t; simpl; [lia |].
  destruct (negb _).
  - specialize (IH (t + 1)%nat). lia.
  - destruct (_ && _); [lia |]. specialize (IH (t + 3)%nat). lia.
Qed.

(** The loop, told by its accepting round. *)
Lemma load_metrics_loop_spec (iters : nat) (v : nat -> MetricsSlot)
  (out : PathMetrics) (t : nat) :
  match accepting_round iters v t with
  | Some ta =>
      (t <= ta)%nat /\ accepts_at v ta /\
      load_metrics_loop iters v out t
      = (true, metrics (v (ta + 1)%nat), (ta + 3)%nat)
  | None =>
      (load_metrics_loop iters v out t).1 = (false, out) /\
      load_metrics_rounds iters v t = iters
  end.
Proof.
  revert t. induction iters as [| n IH]; intros t; simpl; [auto |].
  destruct (Z.eqb_spec (Z.land (seq (v t)) 1) 0) as [Hodd | Hodd]; simpl.
  - destruct (Z.eqb_spec (seq (v t)) (seq (v (t + 2)%nat))) as [E | E]; simpl.
    + destruct (Z.eqb_spec (seq (v (t + 2)%nat) mod 2) 0) as [E2 | E2].
      * split; [lia |]. split; [| reflexivity]. now repeat split.
      * specialize (IH (t + 3)%nat).
        destruct (accepting_round n v (t + 3)).
        -- destruct IH as (? & ? & ?). split; [lia | auto].
        -- destruct IH as [? ->]. auto.
    + specialize (IH (t + 3)%nat).
      destruct (accepting_round n v (t + 3)).
      * destruct IH as (? & ? & ?). split; [lia | auto].
      * destruct IH as [? ->]. auto.
  - specialize (IH (t + 1)%nat).
    destruct (accepting_round n v (t + 1)).
    + destruct IH as (? & ? & ?). split; [lia | auto].
    + destruct IH as [? ->]. auto.
Qed.

(** C7. The seqlock of a [MetricsSlot].  Writer: when [seq] is even on
    entry, [update_metrics] passes through the odd value [seq + 1], under
    which the payload is written, and ends at [seq + 2] in 32-bit
    arithmetic (the counter moved by exactly 2), which is even.  Reader:
    [load_metrics] runs at most 4 loop bodies; it returns true only with
    the payload copied between two reads of [seq] that are equal and even;
    and when no body accepts, all 4 have run, the result is false and
    [out] is untouched. *)
Theorem C7_seqlock_protocol
  (s : MetricsSlot) (m : PathMetrics)
  (v : nat -> MetricsSlot) (out : PathMetrics) (t : nat)
  (Heven : Z.even (seq s) = true) :
  (seq (update_metrics s m) = wrap32 (seq s + 2) /\
   wrap32 (seq (update_metrics s m) - seq s) = 2 /\
   Z.even (seq (update_metrics s m)) = true /\
   metrics (update_metrics s m) = m /\
   map seq (update_metrics_trace s m)
   = [seq s + 1; seq s + 1; wrap32 (seq s + 2)]) /\
  (load_metrics_rounds 4 v t <= 4)%nat /\
  (forall out' t',
      load_metrics v out t = (true, out', t') ->
      exists ta, (t <= ta)%nat /\ t' = (ta + 3)%nat /\
                 out' = metrics (v (ta + 1)%nat) /\
                 seq (v ta) = seq (v (ta + 2)%nat) /\
                 Z.even (seq (v (ta + 2)%nat)) = true) /\
  (accepting_round 4 v t = None ->
   load_metrics_rounds 4 v t = 4%nat /\
   (load_metrics v out t).1 = (false, out)) /\
  ((load_metrics v out t).1.1 = false ->
   accepting_round 4 v t = None /\ (load_metrics v out t).1.2 = out).
Proof.
  pose proof (load_metrics_loop_spec 4 v out t) as L.
  fold (load_metrics v out t) in L.
  split; [| split; [| split; [| split]]].
  - destruct (update_metrics_seq s m Heven) as (E & ? & ? & ? & ?).
    repeat split; auto. rewrite E. unfold wrap32.
    rewrite Zminus_mod_idemp_l.
    replace (seq s + 2 - seq s) with 2 by ring. reflexivity.
  - apply load_metrics_rounds_le.
  - intros out' t' E. destruct (accepting_round 4 v t) as [ta |].
    + destruct L as (Hle & (_ & E1 & E2) & L). rewrite L in E.
      injection E as <- <-. exists ta. repeat split; auto.
      now rewrite Zeven_mod, E2.
    + destruct L as [L _]. rewrite E in L. discriminate.
  - intros E. rewrite E in L. tauto.
  - intros E. destruct (accepting_round 4 v t) as [ta |].
    + destruct L as (_ & _ & L). rewrite L in E. discriminate.
    + destruct L as [L _]. now rewrite L.
Qed.

Lemma C7_seqlock_protocol_witness :
  Z.even (seq MetricsSlot_init) = true /\
  seq (update_metrics MetricsSlot_init PathMetrics_init) = wrap32 (0 + 2) /\
  (load_metrics_rounds 4 (quiet MetricsSlot_init) 0 <= 4)%nat.
Proof.
  pose proof (C7_seqlock_protocol MetricsSlot_init PathMetrics_init
                (quiet MetricsSlot_init) PathMetrics_init 0%nat eq_refl) as H.
  split; [reflexivity |]. split; apply H.
Defined.

(** A reader that starts just before an update retries once and returns
    the new payload: never the half-written state. *)
Example load_metrics_across_update :
  load_metrics (during_update MetricsSlot_init healthy_metrics 0)
               PathMetrics_init 0
  = (true, healthy_metrics, 6%nat).
Proof. reflexivity. Qed.

(** A writer that stays inside its update makes the reader give up after
    four rounds. *)
Example load_metrics_gives_up :
  load_metrics (view_of stalled_world 1) healthy_metrics 0
  = (false, healthy_metrics, 4%nat) /\
  load_metrics_rounds 4 (view_of stalled_world 1) 0 = 4%nat.
Proof. split; reflexivity. Qed.

End SeqlockFacts.

(** ** E. Path-selection policies *)

Section PolicyFacts.

Import Routing.

Variable w : nat -> nat -> MetricsSlot.

Implicit Types (cands : list CandidateRef) (pkt : PacketContext).

Lemma at_in cands (k : Z) :
  0 <= k < Z.of_nat (length cands) -> In (id (at_ cands k)) (map id cands).
Proof. intros Hk. apply in_map. unfold at_. apply nth_In. lia. Qed.

Lemma scan_healthy_in cands (n base : Z) (todo : nat) (i : Z)
  (m : PathMetrics) (t : nat) (r : Z) (t' : nat) :
  0 < n <= Z.of_nat (length cands) ->
  scan_healthy w cands n base todo i m t = (Some r, t') ->
  In r (map id cands).
Proof.
  intros Hn. revert i m t. induction todo as [| todo IH]; intros i m t; simpl.
  - discriminate.
  - destruct (load_metrics _ m t) as [[ok m'] t1].
    destruct (ok && healthy m').
    + intros [= <- _]. apply at_in.
      pose proof (Z.mod_pos_bound (wrap32 (base + i)) n). lia.
    + apply IH.
Qed.

Lemma explore_scan_in cands (n start best : Z) (todo : nat) (i : Z)
  (m : PathMetrics) (t : nat) (r : Z) (t' : nat) :
  0 < n <= Z.of_nat (length cands) ->
  explore_scan w cands n start best todo i m t = (Some r, t') ->
  In r (map id cands).
Proof.
  intros Hn. revert i m t. induction todo as [| todo IH]; intros i m t; simpl.
  - discriminate.
  - destruct (negb _).
    + destruct (load_metrics _ m t) as [[ok m'] t1].
      destruct (ok && healthy m').
      * intros [= <- _]. apply at_in.
        pose proof (Z.mod_pos_bound (wrap32 (start + i)) n). lia.
      * apply IH.
    + apply IH.
Qed.

Lemma healthy_pass_best (cfg_ : LatencyAwareConfig) cands pkt
  (todo : nat) (i best : Z) (hb : bool) (bestm m : PathMetrics) (t : nat) :
  0 <= best < Z.of_nat (length cands) -> 0 <= i ->
  i + Z.of_nat todo <= Z.of_nat (length cands) ->
  0 <= (healthy_pass w cfg_ cands pkt todo i best hb bestm m t).1.1.1.1
  < Z.of_nat (length cands).
Proof.
  revert i best hb bestm m t.
  induction todo as [| todo IH]; intros i best hb bestm m t Hb Hi Ht; simpl.
  - exact Hb.
  - destruct (load_metrics _ m t) as [[ok m'] t1].
    repeat match goal with
           | |- context [if ?c then _ else _] => destruct c
           end; apply IH; lia.
Qed.

Lemma min_rtt_pass_idx cands (todo : nat) (i idx : Z) (minm : PathMetrics)
  (init : bool) (m : PathMetrics) (t : nat) :
  0 <= idx < Z.of_nat (length cands) -> 0 <= i ->
  i + Z.of_nat todo <= Z.of_nat (length cands) ->
  0 <= (min_rtt_pass w cands todo i idx minm init m t).1.1.1
  < Z.of_nat (length cands).
Proof.
  revert i idx minm init m t.
  induction todo as [| todo IH]; intros i idx minm init m t Hb Hi Ht; simpl.
  - exact Hb.
  - destruct (load_metrics _ m t) as [[ok m'] t1].
    repeat match goal with
           | |- context [if ?c then _ else _] => destruct c
           end; apply IH; lia.
Qed.

Lemma healthy_pass_unreadable (cfg_ : LatencyAwareConfig) cands pkt
  (todo : nat) (i best : Z) (hb : bool) (bestm m : PathMetrics) (t : nat) :
  unreadable w ->
  (healthy_pass w cfg_ cands pkt todo i best hb bestm m t).1.1.1.2 = hb.
Proof.
  intros U. revert i m t. induction todo as [| todo IH]; intros i m t; simpl.
  - reflexivity.
  - pose proof (U (slot (at_ cands i)) m t) as Hu.
    destruct (load_metrics _ m t) as [[ok m'] t1]. simpl in Hu. subst ok.
    simpl. apply IH.
Qed.

Lemma min_rtt_pass_unreadable cands (todo : nat) (i idx : Z)
  (minm : PathMetrics) (init : bool) (m : PathMetrics) (t : nat) :
  unreadable w ->
  (min_rtt_pass w cands todo i idx minm init m t).1.1.2 = init.
Proof.
  intros U. revert i m t. induction todo as [| todo IH]; intros i m t; simpl.
  - reflexivity.
  - pose proof (U (slot (at_ cands i)) m t) as Hu.
    destruct (load_metrics _ m t) as [[ok m'] t1]. simpl in Hu. subst ok.
    simpl. apply IH.
Qed.

Lemma count_pos cands : cands <> [] -> 0 < Z.of_nat (length cands).
Proof. destruct cands; [congruence | simpl; lia]. Qed.

Lemma RoundRobin_in (idx_ : Z) cands pkt (t : nat) :
  Z.of_nat (length cands) < 2 ^ 32 -> cands <> [] ->
  In (RoundRobin_choose w idx_ cands pkt t).1.1 (map id cands).
Proof.
  intros Hfit Hne. pose proof (count_pos cands Hne) as HL.
  unfold RoundRobin_choose. rewrite wrap32_small by lia.
  destruct (Z.eqb_spec (Z.of_nat (length cands)) 0); [lia |].
  destruct (scan_healthy _ _ _ _ _ _ _ _) as [[r |] t'] eqn:E; simpl.
  - eapply scan_healthy_in; [| exact E]. lia.
  - apply at_in. apply Z.mod_pos_bound. lia.
Qed.

Lemma FlowHash_in (skip : bool) cands pkt (t : nat) :
  Z.of_nat (length cands) < 2 ^ 32 -> cands <> [] ->
  In (FlowHash_choose w skip cands pkt t).1 (map id cands).
Proof.
  intros Hfit Hne. pose proof (count_pos cands Hne) as HL.
  unfold FlowHash_choose. rewrite wrap32_small by lia.
  destruct (Z.eqb_spec (Z.of_nat (length cands)) 0); [lia |].
  assert (In (id (at_ cands (flow_hash pkt mod Z.of_nat (length cands))))
             (map id cands)).
  { apply at_in. apply Z.mod_pos_bound. lia. }
  destruct (negb skip); [assumption |].
  destruct (scan_healthy _ _ _ _ _ _ _ _) as [[r |] t'] eqn:E; simpl.
  - eapply scan_healthy_in; [| exact E]. lia.
  - assumption.
Qed.

Lemma LatencyAware_in (cfg_ : LatencyAwareConfig) (salt_ : Z) cands pkt
  (t : nat) :
  cands <> [] ->
  In (LatencyAware_choose w cfg_ salt_ cands pkt t).1.1 (map id cands).
Proof.
  intros Hne. pose proof (count_pos cands Hne) as HL.
  unfold LatencyAware_choose. revert HL.
  destruct cands as [| c cs] eqn:Ec; [congruence |]. cbv iota. rewrite <- Ec.
  clear c cs Ec Hne. intros HL.
  pose proof (healthy_pass_best cfg_ cands pkt (length cands) 0 0 false
                PathMetrics_init PathMetrics_init t) as Hbest.
  destruct (healthy_pass _ _ _ _ _ _ _ _ _ _ _)
    as [[[[best hb] bestm] m1] t1]. simpl in Hbest.
  assert (Hb : 0 <= best < Z.of_nat (length cands)) by (apply Hbest; lia).
  destruct (negb hb).
  - pose proof (min_rtt_pass_idx cands (length cands) 0 0 PathMetrics_init
                  false m1 t1) as Hidx.
    destruct (min_rtt_pass _ _ _ _ _ _ _ _ _) as [[[idx init] m2] t2].
    simpl in *. apply at_in. destruct init; [| lia].
    apply Hidx; lia.
  - destruct (negb _); [| simpl; now apply at_in].
    destruct (XorShift32_next_bounded 1000000 _) as [draw rng].
    destruct (draw <? _); [| simpl; now apply at_in].
    pose proof (wrap32_range (Z.of_nat (length cands))) as Hn.
    assert (Hle : wrap32 (Z.of_nat (length cands)) <= Z.of_nat (length cands))
      by (apply Z.mod_le; lia).
    destruct (XorShift32_next_bounded _ rng) as [start rng'].
    destruct (explore_scan _ _ _ _ _ _ _ _ _) as [[r |] t'] eqn:E; simpl.
    + destruct (Z.eq_dec (wrap32 (Z.of_nat (length cands))) 0) as [E0 | E0].
      * rewrite E0 in E. simpl in E. discriminate.
      * eapply explore_scan_in; [| exact E]. lia.
    + now apply at_in.
Qed.

Lemma LatencyAware_unreadable (cfg_ : LatencyAwareConfig) (salt_ : Z) cands
  pkt (t : nat) :
  unreadable w -> cands <> [] ->
  (LatencyAware_choose w cfg_ salt_ cands pkt t).1.1 = id (at_ cands 0).
Proof.
  intros U Hne. unfold LatencyAware_choose.
  destruct cands as [| c cs] eqn:Ec; [congruence |]. cbv iota. rewrite <- Ec.
  clear c cs Ec Hne.
  pose proof (healthy_pass_unreadable cfg_ cands pkt (length cands) 0 0 false
                PathMetrics_init PathMetrics_init t U) as Hhb.
  destruct (healthy_pass _ _ _ _ _ _ _ _ _ _ _)
    as [[[[best hb] bestm] m1] t1]. simpl in Hhb. subst hb. simpl.
  pose proof (min_rtt_pass_unreadable cands (length cands) 0 0
                PathMetrics_init false m1 t1 U) as Hinit.
  destruct (min_rtt_pass _ _ _ _ _ _ _ _ _) as [[[idx init] m2] t2].
  simpl in Hinit. subst init. reflexivity.
Qed.

(** On every non-empty candidate list, in every world of slots and
    whatever the policy's own state, configuration and the packet:
    latency-aware [choose] returns the [PathId] of some element of the
    list, the first candidate's id when no metrics are readable at all;
    round-robin and flow-hash, which count the candidates in a
    [uint32_t], do so on lists of fewer than 2^32 candidates.  For the
    empty list each of the three returns 0. *)
Lemma policies_choose_a_candidate
  cands pkt (t : nat) :
  (cands <> [] ->
   (Z.of_nat (length cands) < 2 ^ 32 ->
    (forall idx_, In (RoundRobin_choose w idx_ cands pkt t).1.1 (map id cands)) /\
    (forall skip, In (FlowHash_choose w skip cands pkt t).1 (map id cands))) /\
   (forall cfg_ salt_,
       In (LatencyAware_choose w cfg_ salt_ cands pkt t).1.1 (map id cands)) /\
   (forall cfg_ salt_,
       unreadable w ->
       (LatencyAware_choose w cfg_ salt_ cands pkt t).1.1 = id (at_ cands 0) /\
       head (map id cands) = Some (id (at_ cands 0)))) /\
  (forall idx_, (RoundRobin_choose w idx_ [] pkt t).1.1 = 0) /\
  (forall skip, (FlowHash_choose w skip [] pkt t).1 = 0) /\
  (forall cfg_ salt_, (LatencyAware_choose w cfg_ salt_ [] pkt t).1.1 = 0).
Proof.
  split; [| repeat split].
  intros Hne. split; [| split].
  - intros Hfit. split; intros.
    + now apply RoundRobin_in.
    + now apply FlowHash_in.
  - intros. now apply LatencyAware_in.
  - intros cfg_ salt_ U. split.
    + now apply LatencyAware_unreadable.
    + destruct cands; [congruence | reflexivity].
Qed.


End PolicyFacts.

(** Round-robin skips the unhealthy first candidate; with nothing healthy
    it falls back to the start candidate. *)
Example RoundRobin_skips_unhealthy :
  (Routing.RoundRobin_choose Routing.one_healthy_world 0 Routing.two_cands
     Routing.some_pkt 0).1 = (9, 1) /\
  (Routing.RoundRobin_choose Routing.idle_world 0 Routing.two_cands
     Routing.some_pkt 0).1 = (7, 1) /\
  (Routing.RoundRobin_choose Routing.idle_world 1 Routing.two_cands
     Routing.some_pkt 0).1 = (9, 2).
Proof. repeat split; reflexivity. Qed.

(** Flow-hash without the health scan is the pure mapping [hash mod n];
    12345 is odd. *)
Example FlowHash_pure_mapping :
  Routing.FlowHash_choose Routing.idle_world false Routing.two_cands
    Routing.some_pkt 0 = (9, 0%nat).
Proof. reflexivity. Qed.

Example LatencyAware_picks_healthy :
  (Routing.LatencyAware_choose Routing.one_healthy_world
     Routing.LatencyAwareConfig_init Routing.salt_init Routing.two_cands
     Routing.some_pkt 0).1.1 = 9.
Proof. reflexivity. Qed.

Lemma stalled_world_unreadable : Routing.unreadable Routing.stalled_world.
Proof. intros p out t. reflexivity. Defined.

Example policies_choose_a_candidate_two_cands :
  Z.of_nat (length Routing.two_cands) < 2 ^ 32 /\
  Routing.two_cands <> [] /\
  Routing.unreadable Routing.stalled_world /\
  In (Routing.RoundRobin_choose Routing.stalled_world 5 Routing.two_cands
        Routing.some_pkt 0).1.1 (map Routing.id Routing.two_cands) /\
  (Routing.LatencyAware_choose Routing.stalled_world
     Routing.LatencyAwareConfig_init Routing.salt_init Routing.two_cands
     Routing.some_pkt 0).1.1 = 7.
Proof.
  assert (Hfit : Z.of_nat (length Routing.two_cands) < 2 ^ 32)
    by (vm_compute; reflexivity).
  assert (Hne : Routing.two_cands <> []) by discriminate.
  pose proof (policies_choose_a_candidate Routing.stalled_world
                Routing.two_cands Routing.some_pkt 0%nat) as [H _].
  destruct (H Hne) as (Hrr & _ & Hla).
  split; [exact Hfit |]. split; [exact Hne |].
  split; [exact stalled_world_unreadable |].
  split; [apply (Hrr Hfit) |].
  apply (Hla Routing.LatencyAwareConfig_init Routing.salt_init
             stalled_world_unreadable).
Defined.





(** ** F. Policy binding *)

Section BindingFacts.

Import Binding.

Context {Heap : Type}.

Implicit Types (v : nat -> PolicyBinding Heap).

(** The retry loop, told by its stable round. *)
Lemma snapshot_binding_loop_spec (iters : nat) v (t : nat) :
  match stable_round Heap iters v t with
  | Some ta =>
      (t <= ta)%nat /\
      seq (v ta) = seq (v (ta + 3)%nat) /\
      Z.even (seq (v ta)) = true /\
      snapshot_binding_loop Heap iters v t
      = (non_null (fn (v (ta + 1)%nat)) && non_null (state (v (ta + 2)%nat)),
         fn (v (ta + 1)%nat), state (v (ta + 2)%nat), (ta + 4)%nat)
  | None =>
      (snapshot_binding_loop Heap iters v t).1 = (false, None, None)
  end.
Proof.
  revert t. induction iters as [| n IH]; intros t; simpl; [reflexivity |].
  destruct (Z.eqb_spec (Z.land (seq (v t)) 1) 0) as [Hodd | Hodd]; simpl.
  - destruct (Z.eqb_spec (seq (v t)) (seq (v (t + 3)%nat))) as [E | E]; simpl.
    + destruct (Z.eqb_spec (seq (v (t + 3)%nat) mod 2) 0) as [E2 | E2].
      * split; [lia |]. split; [exact E |]. split; [| reflexivity].
        now rewrite Zeven_mod, E, E2.
      * specialize (IH (t + 4)%nat).
        destruct (stable_round Heap n v (t + 4)); [| exact IH].
        destruct IH as (? & ? & ? & ?). repeat split; auto; lia.
    + specialize (IH (t + 4)%nat).
      destruct (stable_round Heap n v (t + 4)); [| exact IH].
      destruct IH as (? & ? & ? & ?). repeat split; auto; lia.
  - specialize (IH (t + 1)%nat).
    destruct (stable_round Heap n v (t + 1)); [| exact IH].
    destruct IH as (? & ? & ? & ?). repeat split; auto; lia.
Qed.

(** C4, as the code has it.  [select_path] returns 0, without running any
    policy, whenever the snapshot read fails (no stable round among the 4)
    or the snapshotted [fn] or [state] is null; otherwise it returns
    [fn(state, cands, pkt)] for the snapshotted pair.  So it returns 0
    exactly when the read fails, a pointer is null, or the bound function
    itself returns 0. *)
Theorem C4_select_path_cases
  v (cands : list Routing.CandidateRef) (pkt : Routing.PacketContext)
  (h : Heap) (t : nat) :
  match stable_round Heap 4 v t with
  | None =>
      (snapshot_binding Heap v t).1.1.1 = false /\
      (select_path Heap v cands pkt h t).1 = (0, h)
  | Some ta =>
      match fn (v (ta + 1)%nat), state (v (ta + 2)%nat) with
      | Some f, Some st =>
          snapshot_binding Heap v t = (true, Some f, Some st, (ta + 4)%nat) /\
          select_path Heap v cands pkt h t
          = ((f st cands pkt h).1, (f st cands pkt h).2, (ta + 4)%nat) /\
          ((select_path Heap v cands pkt h t).1.1 = 0 <->
           (f st cands pkt h).1 = 0)
      | _, _ =>
          (snapshot_binding Heap v t).1.1.1 = false /\
          select_path Heap v cands pkt h t = (0, h, (ta + 4)%nat)
      end
  end.
Proof.
  pose proof (snapshot_binding_loop_spec 4 v t) as S.
  fold (snapshot_binding Heap v t) in S. unfold select_path.
  destruct (stable_round Heap 4 v t) as [ta |].
  - destruct S as (_ & _ & _ & ->).
    destruct (fn (v (ta + 1)%nat)) as [f |], (state (v (ta + 2)%nat)) as [st |];
      simpl; auto.
    destruct (f st cands pkt h) as [r h']. simpl. tauto.
  - destruct (snapshot_binding Heap v t) as [[[ok f] st] t'].
    simpl in S. injection S as -> -> ->. simpl. auto.
Qed.

End BindingFacts.

(** A bound policy is what [select_path] runs; an unbound or cleared
    binding yields no path. *)
Example select_path_bound_and_cleared :
  (Binding.select_path Binding.DpHeap (Binding.quiet _ Binding.bound_rr)
     Routing.two_cands Routing.some_pkt Binding.heap0 0).1.1 = 7 /\
  (Binding.select_path Binding.DpHeap
     (Binding.quiet _ (Binding.clear_policy _ Binding.bound_rr))
     Routing.two_cands Routing.some_pkt Binding.heap0 0).1.1 = 0 /\
  Binding.seq (Binding.clear_policy _ Binding.bound_rr) = 4.
Proof. repeat split; reflexivity. Qed.

(** C4, as stated, fails: with a round-robin policy bound and nobody
    writing the binding, [select_path] on an empty candidate list returns
    0 although the snapshot read succeeds with both pointers non-null. *)
Lemma C4_zero_with_policy_bound :
  (Binding.select_path Binding.DpHeap (Binding.quiet _ Binding.bound_rr)
     [] Routing.some_pkt Binding.heap0 0).1.1 = 0 /\
  ~ ((Binding.snapshot_binding Binding.DpHeap
        (Binding.quiet _ Binding.bound_rr) 0).1.1.1 = false \/
     Binding.fn Binding.bound_rr = None \/
     Binding.state Binding.bound_rr = None).
Proof.
  split; [reflexivity |].
  intros [H | [H | H]]; discriminate H.
Qed.

(** ** D. Service registry *)

Section RegistryFacts.

Import Registry.

(** Any behaviour of libc's address parser. *)
Variable inet_pton : address_family -> string -> Z.

Implicit Types (r : ServiceRegistry) (pops : list Pop) (id : string).

(** Every return other than [Ok] leaves one trace: a counted failure. *)
Lemma mutate_error (mode : Mode) id pops r :
  (mutate inet_pton mode id pops r).1 <> Ok ->
  (mutate inet_pton mode id pops r).2 = count_failure r.
Proof.
  unfold mutate.
  repeat match goal with
         | |- context [if ?c then _ else _] => destruct c
         | |- context [match snapshot ?x with _ => _ end] => destruct (snapshot x)
         | |- context [match ?m with Add => _ | _ => _ end] => destruct m
         end; simpl; congruence.
Qed.

(** What a passing validation lets [mutate] do. *)
Lemma mutate_valid (mode : Mode) id pops r (snap : gmap string (list Pop)) :
  validateId id MaxIdLen = true ->
  validatePops inet_pton pops = true ->
  snapshot r = Some snap ->
  Z.of_nat (base.size snap) <= MaxServices ->
  mutate inet_pton mode id pops r
  = let exists_ := bool_decide (is_Some (snap !! id)) in
    match mode with
    | Add =>
        if exists_ then (Exists, count_failure r)
        else (Ok, count_add (publish (emplace id pops snap) r))
    | Replace =>
        if negb exists_ then (NotFound, count_failure r)
        else (Ok, count_replace (publish (<[id := pops]> snap) r))
    | Upsert => (Ok, count_upsert (publish (emplace id pops snap) r))
    end.
Proof.
  intros Hid Hpops Hsnap Hsize. unfold mutate.
  rewrite Hid, Hpops, Hsnap. simpl.
  destruct (Z.gtb_spec (Z.of_nat (base.size snap)) MaxServices); [lia |].
  reflexivity.
Qed.

(** C8. Registry mutations are atomic on error: whenever [addService],
    [replaceService] or [upsertService] returns something other than
    [Ok], the published snapshot, the version counter and the success
    counters are as before the call; and when the return is [Invalid] the
    failures counter has been incremented (as it has for every other
    error). *)
Theorem C8_mutations_atomic_on_error
  (f : string -> list Pop -> ServiceRegistry -> RegistryErr * ServiceRegistry)
  id pops r
  (Hf : In f [addService inet_pton; replaceService inet_pton;
              upsertService inet_pton])
  (Herr : (f id pops r).1 <> Ok) :
  snapshot (f id pops r).2 = snapshot r /\
  version (f id pops r).2 = version r /\
  ((f id pops r).1 = Invalid ->
   failures (stats (f id pops r).2) = wrap64 (failures (stats r) + 1)) /\
  failures (stats (f id pops r).2) = wrap64 (failures (stats r) + 1) /\
  adds (stats (f id pops r).2) = adds (stats r) /\
  replaces (stats (f id pops r).2) = replaces (stats r) /\
  upserts (stats (f id pops r).2) = upserts (stats r) /\
  removes (stats (f id pops r).2) = removes (stats r).
Proof.
  assert (E : (f id pops r).2 = count_failure r).
  { simpl in Hf. destruct Hf as [<- | [<- | [<- | []]]];
      apply mutate_error; exact Herr. }
  rewrite E. repeat split.
Qed.

(** C1, the code at a full registry.  On a registry that holds exactly
    [MaxServices] = 128 services, [addService] with a valid id that is not
    present and a valid pop list returns [Ok], not [Capacity], and
    publishes a snapshot with the service inserted: 129 services.  The
    guard in [mutate] rejects only above 128. *)
Theorem C1_add_on_full_registry_inserts
  id pops r (snap : gmap string (list Pop))
  (Hsnap : snapshot r = Some snap)
  (Hfull : Z.of_nat (base.size snap) = MaxServices)
  (Hid : validateId id MaxIdLen = true)
  (Hpops : validatePops inet_pton pops = true)
  (Hnew : snap !! id = None) :
  (addService inet_pton id pops r).1 = Ok /\
  (addService inet_pton id pops r).1 <> Capacity /\
  snapshot (addService inet_pton id pops r).2 = Some (<[id := pops]> snap) /\
  size (addService inet_pton id pops r).2 = MaxServices + 1.
Proof.
  unfold addService.
  rewrite (mutate_valid Add id pops r snap Hid Hpops Hsnap) by lia.
  simpl. rewrite bool_decide_eq_false_2 by (rewrite Hnew; apply is_Some_None).
  simpl. unfold emplace. rewrite Hnew.
  repeat split; [discriminate |].
  unfold size. simpl. rewrite map_size_insert_None by assumption. lia.
Qed.

(** C2, the code on a present id.  [upsertService] with valid input on a
    registry that already maps [id] to [old] returns [Ok] and publishes a
    snapshot equal to the previous one: [id] still maps to [old], whatever
    [pops] was passed.  [emplace] does not overwrite. *)
Theorem C2_upsert_keeps_present_pops
  id pops (old : list Pop) r (snap : gmap string (list Pop))
  (Hsnap : snapshot r = Some snap)
  (Hroom : Z.of_nat (base.size snap) <= MaxServices)
  (Hid : validateId id MaxIdLen = true)
  (Hpops : validatePops inet_pton pops = true)
  (Hold : snap !! id = Some old) :
  (upsertService inet_pton id pops r).1 = Ok /\
  snapshot (upsertService inet_pton id pops r).2 = Some snap /\
  getPopsCopy id (upsertService inet_pton id pops r).2 = old.
Proof.
  unfold upsertService.
  rewrite (mutate_valid Upsert id pops r snap Hid Hpops Hsnap Hroom).
  simpl. unfold emplace, getPopsCopy. simpl. rewrite Hold. simpl.
  rewrite Hold. auto.
Qed.

(** C9, the code on a one-character region.  A pop list containing a pop
    whose region has length 1 fails [validatePops], whatever its other
    fields, because the region goes through [validateId] and its lower
    bound of 2; adding a service with it returns [Invalid], counts a
    failure and publishes nothing. *)
Theorem C9_one_char_region_rejected
  (p : Pop) id pops r
  (Hregion : String.length (region p) = 1%nat)
  (Hin : In p pops) :
  validateId (region p) MaxRegionLen = false /\
  validatePops inet_pton pops = false /\
  addService inet_pton id pops r = (Invalid, count_failure r) /\
  snapshot (addService inet_pton id pops r).2 = snapshot r.
Proof.
  assert (Hr : validateId (region p) MaxRegionLen = false).
  { unfold validateId, size_of. rewrite Hregion. reflexivity. }
  assert (Hp : validatePops inet_pton pops = false).
  { unfold validatePops.
    destruct (_ || _); [reflexivity |].
    assert (forallb (pop_fields_ok inet_pton) pops = false) as ->;
      [| reflexivity].
    apply not_true_is_false. intros Hall.
    rewrite forallb_forall in Hall. specialize (Hall p Hin).
    unfold pop_fields_ok in Hall. rewrite Hr in Hall.
    destruct (negb (validateId (Registry.id p) MaxIdLen)); discriminate. }
  assert (Ha : addService inet_pton id pops r = (Invalid, count_failure r)).
  { unfold addService, mutate. rewrite Hp.
    destruct (negb (validateId id MaxIdLen)); reflexivity. }
  rewrite Ha. auto.
Qed.

(** The sibling path: [replaceService] on a present id does overwrite. *)
Lemma replace_overwrites
  id pops (old : list Pop) r (snap : gmap string (list Pop)) :
  snapshot r = Some snap ->
  Z.of_nat (base.size snap) <= MaxServices ->
  validateId id MaxIdLen = true ->
  validatePops inet_pton pops = true ->
  snap !! id = Some old ->
  (replaceService inet_pton id pops r).1 = Ok /\
  getPopsCopy id (replaceService inet_pton id pops r).2 = pops.
Proof.
  intros Hsnap Hroom Hid Hpops Hold. unfold replaceService.
  rewrite (mutate_valid Replace id pops r snap Hid Hpops Hsnap Hroom).
  simpl. rewrite bool_decide_eq_true_2 by (rewrite Hold; eauto).
  simpl. unfold getPopsCopy. simpl. now rewrite lookup_insert_eq.
Qed.

(** [upsertService] on an absent id inserts it. *)
Lemma upsert_absent_inserts
  id pops r (snap : gmap string (list Pop)) :
  snapshot r = Some snap ->
  Z.of_nat (base.size snap) <= MaxServices ->
  validateId id MaxIdLen = true ->
  validatePops inet_pton pops = true ->
  snap !! id = None ->
  (upsertService inet_pton id pops r).1 = Ok /\
  getPopsCopy id (upsertService inet_pton id pops r).2 = pops.
Proof.
  intros Hsnap Hroom Hid Hpops Hnew. unfold upsertService.
  rewrite (mutate_valid Upsert id pops r snap Hid Hpops Hsnap Hroom).
  simpl. unfold emplace, getPopsCopy. rewrite Hnew. simpl.
  now rewrite lookup_insert_eq.
Qed.

End RegistryFacts.

(** The validation scenario of the registry tests: a bad address and a
    duplicated pop id are rejected and publish nothing; a valid list is
    published whole. *)
Example registry_validation_scenario :
  let r0 := Registry.ServiceRegistry_init in
  let a1 := Registry.addService Registry.inet_pton_ipv4 "svc_bad_ip"
              [Registry.make_pop "ny" "r1" "not_an_ip"] r0 in
  let a2 := Registry.addService Registry.inet_pton_ipv4 "svc_dup"
              [Registry.make_pop "la" "r1" "192.0.2.10";
               Registry.make_pop "la" "r2" "192.0.2.11"] a1.2 in
  let a3 := Registry.addService Registry.inet_pton_ipv4 "svc_ok"
              [Registry.make_pop "sf" "us-west" "198.51.100.20";
               Registry.make_pop "ny" "us-east" "192.0.2.30"] a2.2 in
  a1.1 = Registry.Invalid /\ Registry.hasService "svc_bad_ip" a1.2 = false /\
  a2.1 = Registry.Invalid /\ Registry.hasService "svc_dup" a2.2 = false /\
  a3.1 = Registry.Ok /\
  length (Registry.getPopsCopy "svc_ok" a3.2) = 2%nat /\
  Registry.failures (Registry.stats a3.2) = 2 /\
  Registry.version a3.2 = 1.
Proof. vm_compute. repeat split; reflexivity. Qed.

(** Add then remove gives back the previous content. *)
Example registry_add_remove :
  let r1 := (Registry.addService Registry.inet_pton_ipv4 "svcX"
               Registry.listB Registry.registry_svc_A).2 in
  Registry.hasService "svcX" r1 = true /\
  (Registry.removeService "svcX" r1).1 = true /\
  Registry.snapshot (Registry.removeService "svcX" r1).2
  = Registry.snapshot Registry.registry_svc_A.
Proof. vm_compute. repeat split; reflexivity. Qed.

Lemma C8_mutations_atomic_on_error_witness :
  In (Registry.addService Registry.inet_pton_ipv4)
     [Registry.addService Registry.inet_pton_ipv4;
      Registry.replaceService Registry.inet_pton_ipv4;
      Registry.upsertService Registry.inet_pton_ipv4] /\
  (Registry.addService Registry.inet_pton_ipv4 "svc" Registry.listB
     Registry.registry_svc_A).1 <> Registry.Ok /\
  Registry.snapshot
    (Registry.addService Registry.inet_pton_ipv4 "svc" Registry.listB
       Registry.registry_svc_A).2
  = Registry.snapshot Registry.registry_svc_A.
Proof.
  assert (Hf : In (Registry.addService Registry.inet_pton_ipv4)
                 [Registry.addService Registry.inet_pton_ipv4;
                  Registry.replaceService Registry.inet_pton_ipv4;
                  Registry.upsertService Registry.inet_pton_ipv4])
    by (left; reflexivity).
  assert (Herr : (Registry.addService Registry.inet_pton_ipv4 "svc"
                    Registry.listB Registry.registry_svc_A).1 <> Registry.Ok)
    by (vm_compute; discriminate).
  split; [exact Hf |]. split; [exact Herr |].
  apply (C8_mutations_atomic_on_error Registry.inet_pton_ipv4 _ "svc"
           Registry.listB Registry.registry_svc_A Hf Herr).
Defined.

Lemma C1_add_on_full_registry_inserts_witness :
  Registry.snapshot Registry.registry_128 = Some Registry.map_128 /\
  Z.of_nat (size Registry.map_128) = Registry.MaxServices /\
  Registry.validateId "new_svc" Registry.MaxIdLen = true /\
  Registry.validatePops Registry.inet_pton_ipv4 Registry.listB = true /\
  Registry.map_128 !! "new_svc" = None /\
  (Registry.addService Registry.inet_pton_ipv4 "new_svc" Registry.listB
     Registry.registry_128).1 = Registry.Ok /\
  Registry.size
    (Registry.addService Registry.inet_pton_ipv4 "new_svc" Registry.listB
       Registry.registry_128).2 = 129.
Proof.
  assert (H1 : Registry.snapshot Registry.registry_128
               = Some Registry.map_128) by reflexivity.
  assert (H2 : Z.of_nat (size Registry.map_128) = Registry.MaxServices)
    by (vm_compute; reflexivity).
  assert (H3 : Registry.validateId "new_svc" Registry.MaxIdLen = true)
    by (vm_compute; reflexivity).
  assert (H4 : Registry.validatePops Registry.inet_pton_ipv4 Registry.listB
               = true) by (vm_compute; reflexivity).
  assert (H5 : Registry.map_128 !! "new_svc" = None)
    by (vm_compute; reflexivity).
  pose proof (C1_add_on_full_registry_inserts Registry.inet_pton_ipv4
                "new_svc" Registry.listB Registry.registry_128
                Registry.map_128 H1 H2 H3 H4 H5) as (Hok & _ & _ & Hsz).
  exact (conj H1 (conj H2 (conj H3 (conj H4 (conj H5 (conj Hok Hsz)))))).
Defined.

Lemma C2_upsert_keeps_present_pops_witness :
  Registry.snapshot Registry.registry_svc_A = Some {[ "svc" := Registry.listA ]} /\
  Registry.validateId "svc" Registry.MaxIdLen = true /\
  Registry.validatePops Registry.inet_pton_ipv4 Registry.listB = true /\
  (Registry.upsertService Registry.inet_pton_ipv4 "svc" Registry.listB
     Registry.registry_svc_A).1 = Registry.Ok /\
  Registry.getPopsCopy "svc"
    (Registry.upsertService Registry.inet_pton_ipv4 "svc" Registry.listB
       Registry.registry_svc_A).2 = Registry.listA /\
  Registry.listA <> Registry.listB.
Proof.
  assert (H1 : Registry.snapshot Registry.registry_svc_A
               = Some {[ "svc" := Registry.listA ]})
    by (vm_compute; reflexivity).
  assert (H2 : Z.of_nat (size ({[ "svc" := Registry.listA ]}
                                : gmap string (list Registry.Pop)))
               <= Registry.MaxServices)
    by (vm_compute; discriminate).
  assert (H3 : Registry.validateId "svc" Registry.MaxIdLen = true)
    by (vm_compute; reflexivity).
  assert (H4 : Registry.validatePops Registry.inet_pton_ipv4 Registry.listB
               = true) by (vm_compute; reflexivity).
  assert (H5 : ({[ "svc" := Registry.listA ]}
                 : gmap string (list Registry.Pop)) !! "svc"
               = Some Registry.listA) by (vm_compute; reflexivity).
  pose proof (C2_upsert_keeps_present_pops Registry.inet_pton_ipv4
                "svc" Registry.listB Registry.listA Registry.registry_svc_A
                _ H1 H2 H3 H4 H5) as (Hok & _ & Hget).
  assert (Hne : Registry.listA <> Registry.listB) by discriminate.
  exact (conj H1 (conj H3 (conj H4 (conj Hok (conj Hget Hne))))).
Defined.

Lemma C9_one_char_region_rejected_witness :
  String.length (Registry.region (Registry.make_pop "pp" "r" "203.0.113.3"))
  = 1%nat /\
  In (Registry.make_pop "pp" "r" "203.0.113.3") Registry.list_short_region /\
  Registry.addService Registry.inet_pton_ipv4 "svcX"
    Registry.list_short_region Registry.ServiceRegistry_init
  = (Registry.Invalid,
     Registry.count_failure Registry.ServiceRegistry_init).
Proof.
  assert (H1 : String.length
                 (Registry.region (Registry.make_pop "pp" "r" "203.0.113.3"))
               = 1%nat) by reflexivity.
  assert (H2 : In (Registry.make_pop "pp" "r" "203.0.113.3")
                 Registry.list_short_region) by (left; reflexivity).
  split; [exact H1 |]. split; [exact H2 |].
  apply (C9_one_char_region_rejected Registry.inet_pton_ipv4 _ "svcX"
           Registry.list_short_region Registry.ServiceRegistry_init H1 H2).
Defined.

(** * Further properties *)

(** ** A'. Ring construction, observers and the packet pool *)

Section RingFacts.

Context {T : Type} {ET : Element T} {PF : Platform}.
Implicit Types (q : Spsc.SpscQueue T) (l : list T) (C : Z).

(** Bitwise [and] on numbers given by their halves and low bits. *)
Lemma land_double (a b : Z) (a0 b0 : bool) :
  Z.land (2 * a + Z.b2z a0) (2 * b + Z.b2z b0)
  = 2 * Z.land a b + Z.b2z (a0 && b0).
Proof.
  apply Z.bits_inj'. intros n Hn.
  destruct (Z.eq_dec n 0) as [-> | Hn0].
  - rewrite Z.land_spec, !Z.testbit_0_r. reflexivity.
  - replace n with (Z.succ (Z.pred n)) by lia.
    rewrite Z.land_spec, !Z.testbit_succ_r by lia.
    now rewrite Z.land_spec.
Qed.

(** [c & (c - 1) == 0] singles out the powers of two. *)
Lemma land_pred_zero_pow2 (c : Z) :
  0 < c -> Z.land c (c - 1) = 0 -> exists k, 0 <= k /\ c = 2 ^ k.
Proof.
  intros Hc. revert Hc.
  induction c as [c IH] using (well_founded_induction (Z.lt_wf 0)).
  intros Hc Hl.
  destruct (Z.eq_dec c 1) as [-> | H1]; [exists 0; split; [lia | reflexivity] |].
  destruct (Z.even c) eqn:Ev.
  - apply Z.even_spec in Ev. destruct Ev as [a ->].
    replace (2 * a) with (2 * a + Z.b2z false) in Hl at 1 by (simpl; ring).
    replace (2 * a - 1) with (2 * (a - 1) + Z.b2z true) in Hl by (simpl; ring).
    rewrite land_double in Hl. simpl in Hl.
    destruct (IH a) as (k & Hk & ->); try lia.
    exists (k + 1). split; [lia |]. rewrite Z.pow_add_r by lia. ring.
  - exfalso. assert (Od : Z.odd c = true) by (rewrite <- Z.negb_even, Ev; reflexivity).
    apply Z.odd_spec in Od. destruct Od as [a ->].
    replace (2 * a + 1) with (2 * a + Z.b2z true) in Hl at 1 by (simpl; ring).
    replace (2 * a + 1 - 1) with (2 * a + Z.b2z false) in Hl by (simpl; ring).
    rewrite land_double, Z.land_diag in Hl. simpl in Hl. lia.
Qed.

Lemma pow2_below_size_max (c k : Z) :
  0 <= k -> c = 2 ^ k -> c < 2 ^ 64 -> Spsc.pow2_capacity c.
Proof.
  intros Hk -> Hlt. exists k. split; [| reflexivity].
  split; [assumption |]. apply (Z.pow_lt_mono_r_iff 2); lia.
Qed.

(** X1. [with_capacity] sorts every [size_t] argument into exactly one
    outcome: [CapacityZero] for 0, [CapacityNotPowerOfTwo] for a non-zero
    argument that is not a power of two, [ElementNotNothrowMovable] for a
    power of two when the element type fails the trait.  Otherwise it
    asks for [capacity * sizeof(T)] bytes, counted modulo 2^64: the
    process is terminated when they are not obtained, and when they are
    the result is an empty ring of that capacity with mask
    [capacity - 1], over as many unconstructed cells as the bytes hold,
    which is [capacity] cells when the product fits [size_t].
    [AllocationFailed] is never returned, and the factory has no
    undefined behaviour of its own. *)
Theorem X1_with_capacity_outcomes (c : Z)
  (Hc : 0 <= c < 2 ^ 64) :
  match Spsc.with_capacity (T := T) c with
  | Spsc.Returns (inl Spsc.CapacityZero) => c = 0
  | Spsc.Returns (inl Spsc.CapacityNotPowerOfTwo) =>
      0 < c /\ ~ Spsc.pow2_capacity c
  | Spsc.Returns (inl Spsc.ElementNotNothrowMovable) =>
      Spsc.pow2_capacity c /\ Spsc.SpscTraits_ok (T := T) = false
  | Spsc.Returns (inl Spsc.AllocationFailed) => False
  | Spsc.Undefined => False
  | Spsc.Terminates =>
      Spsc.pow2_capacity c /\ Spsc.SpscTraits_ok (T := T) = true /\
      grants (wrap64 (c * sizeof T)) = false
  | Spsc.Returns (inr q) =>
      Spsc.pow2_capacity c /\ Spsc.SpscTraits_ok (T := T) = true /\
      grants (wrap64 (c * sizeof T)) = true /\
      Spsc.head_ q = 0 /\ Spsc.tail_ q = 0 /\
      Spsc.capacity q = c /\ Spsc.mask_ q = c - 1 /\
      Spsc.buf_ q
      = replicate (Z.to_nat (wrap64 (c * sizeof T) / sizeof T)) None /\
      (c * sizeof T < 2 ^ 64 ->
       Spsc.buf_ q = replicate (Z.to_nat c) None) /\
      Spsc.empty q = true /\ Spsc.approx_size q = 0
  end.
Proof.
  pose proof (sizeof_range T) as Hs.
  unfold Spsc.with_capacity.
  destruct (Z.eqb_spec c 0) as [-> | Hnz]; [reflexivity |].
  rewrite (wrap64_small (c - 1)) by lia.
  destruct (Z.eqb_spec (Z.land c (c - 1)) 0) as [Hl | Hl]; simpl.
  - destruct (land_pred_zero_pow2 c) as (k & Hk & Hck); [lia | assumption |].
    pose proof (pow2_below_size_max c k Hk Hck ltac:(lia)) as HP.
    destruct (Spsc.SpscTraits_ok (T := T)) eqn:Hok; simpl; [| auto].
    destruct (grants (wrap64 (c * sizeof T))) eqn:Hg; simpl; [| auto].
    assert (R : Spsc.Repr (T := T) c
                  {| Spsc.head_ := 0; Spsc.tail_ := 0;
                     Spsc.buf_ :=
                       replicate
                         (Z.to_nat (wrap64 (c * sizeof T) / sizeof T)) None;
                     Spsc.capacity_ := c; Spsc.mask_ := c - 1 |} []).
    { pose proof (pow2_capacity_bounds c HP).
      constructor; simpl; try lia; auto.
      intros i x. rewrite lookup_nil. discriminate. }
    repeat split; auto.
    + intros Hfit. rewrite wrap64_small by nia.
      now rewrite Z.div_mul by lia.
    + apply (approx_size_repr c _ [] R).
  - split; [lia |]. intros (k & Hk & ->). apply Hl, pow2_land_pred. lia.
Qed.

Lemma full_repr C q l :
  Spsc.Repr C q l -> Spsc.full q = true <-> Z.of_nat (length l) = C - 1.
Proof.
  intros R. pose proof (Spsc.repr_len _ _ _ R) as Hl.
  pose proof (pow2_capacity_bounds C (Spsc.repr_pow2 _ _ _ R)).
  pose proof (repr_tail_range C q l R) as Ht.
  pose proof (Spsc.repr_head _ _ _ R) as Hh.
  unfold Spsc.full. rewrite Z.eqb_eq, (next_index C q l) by assumption.
  rewrite (Spsc.repr_tail _ _ _ R), Z.add_mod_idemp_l by lia.
  rewrite <- Z.add_assoc. split.
  - intros F. destruct (decide (Z.of_nat (length l) + 1 < C)) as [Hlt | Hge];
      [| lia].
    assert (Z.of_nat (length l) + 1 = 0); [| lia].
    apply (offset_inj C (Spsc.head_ q)); try lia.
    rewrite F, Z.add_0_r. symmetry. apply Z.mod_small. lia.
  - intros Hf. rewrite Hf.
    replace (Spsc.head_ q + (C - 1 + 1)) with (Spsc.head_ q + 1 * C) by ring.
    rewrite Z.mod_add by lia. apply Z.mod_small. lia.
Qed.

(** X2. In every state a fresh ring of power-of-two capacity reaches by
    calls that return, the observers agree with the stored count: [full]
    holds exactly when [approx_size] is [capacity - 1], which is exactly
    when a push is refused; [empty] holds exactly when [approx_size] is
    0, which is exactly when a pop is refused; a refused call leaves the
    ring as it was.  A pop always returns, and so does a push when the
    byte count of the storage fits [size_t] and the element type is
    trivially copyable. *)
Theorem X2_observers_agree
  C q (dflt v out : T) (ops : list (Spsc.op T)) rs q1
  (HC : Spsc.pow2_capacity C)
  (Hq : Spsc.with_capacity C = Spsc.Returns (inr q))
  (Hrun : Spsc.run dflt ops q = Spsc.Returns (rs, q1)) :
  Spsc.capacity q1 = C /\
  (Spsc.full q1 = true <-> Spsc.approx_size q1 = C - 1) /\
  (Spsc.push v q1 = Spsc.Returns (false, q1) <-> Spsc.approx_size q1 = C - 1) /\
  (Spsc.empty q1 = true <-> Spsc.approx_size q1 = 0) /\
  (Spsc.pop out q1 = Spsc.Returns (false, out, q1)
   <-> Spsc.approx_size q1 = 0) /\
  (exists r q2, Spsc.pop out q1 = Spsc.Returns (r, q2)) /\
  (C * sizeof T < 2 ^ 64 -> is_trivially_copyable T = true ->
   exists r q2, Spsc.push v q1 = Spsc.Returns (r, q2)).
Proof.
  pose proof (fresh_repr C q HC Hq) as R.
  destruct (run_repr C q [] dflt ops rs q1 R Hrun) as (l & R1 & Eb & _).
  pose proof (Spsc.repr_len _ _ _ R1) as Hlen.
  rewrite (approx_size_repr C q1 l R1).
  split; [apply (Spsc.repr_cap _ _ _ R1) |].
  split; [apply (full_repr C q1 l R1) |].
  split; [| split; [| split; [| split]]].
  - split.
    + intros Hpush.
      destruct (decide (Z.of_nat (length l) = C - 1)) as [| Hroom];
        [assumption | exfalso].
      rewrite (push_room C q1 l v R1) in Hpush by lia.
      destruct (Spsc.buf_ q1 !! _) as [[|] |]; try discriminate.
      destruct (is_trivially_copyable T); discriminate.
    + apply (push_full C q1 l v R1).
  - rewrite (empty_repr C q1 l R1). split.
    + intros ->. reflexivity.
    + intros H. apply length_zero_iff_nil. lia.
  - destruct l as [| x l].
    + rewrite (pop_empty C q1 out R1). split; reflexivity.
    + destruct (pop_cons C q1 x l out R1) as (q2 & -> & _).
      split; [discriminate | simpl; lia].
  - destruct l as [| x l].
    + rewrite (pop_empty C q1 out R1). eauto.
    + destruct (pop_cons C q1 x l out R1) as (q2 & -> & _). eauto.
  - intros Hfit Htc.
    assert (Hw : Spsc.whole q1).
    { apply (whole_repr C q q1 _ _ R R1 Eb). now apply (fresh_whole C). }
    destruct (decide (Z.of_nat (length l) = C - 1)) as [Hfull | Hroom].
    + rewrite (push_full C q1 l v R1 Hfull). eauto.
    + rewrite (push_defined C q1 l v R1) by (lia || assumption). eauto.
Qed.

Lemma omap_lookup_seq l (f : nat -> option T) (k : nat) :
  (forall i x, l !! i = Some x -> f (k + i)%nat = Some x) ->
  omap f (seq k (length l)) = l.
Proof.
  revert k. induction l as [| x l IH]; intros k H; simpl; [reflexivity |].
  pose proof (H 0%nat x eq_refl) as H0. rewrite Nat.add_0_r in H0.
  rewrite H0. f_equal. apply IH. intros i y Hi.
  replace (S k + i)%nat with (k + S i)%nat by lia. now apply H.
Qed.

(** The abstraction function computes the represented list. *)
Lemma contents_repr C q l : Spsc.Repr C q l -> SpscView.contents q = l.
Proof.
  intros R. unfold SpscView.contents.
  rewrite (approx_size_repr C q l R), Nat2Z.id, (Spsc.repr_cap _ _ _ R).
  apply omap_lookup_seq. intros i x Hi. simpl.
  now rewrite (Spsc.repr_cells _ _ _ R i x Hi).
Qed.

End RingFacts.

Lemma X1_with_capacity_outcomes_witness :
  0 <= 100 < 2 ^ 64 /\
  Spsc.with_capacity (T := Z) 100
  = Spsc.Returns (inl Spsc.CapacityNotPowerOfTwo) /\
  ~ Spsc.pow2_capacity 100.
Proof.
  assert (H : 0 <= 100 < 2 ^ 64) by lia.
  pose proof (X1_with_capacity_outcomes (T := Z) 100 H) as X.
  split; [exact H |]. split; [reflexivity |]. apply X.
Defined.

Lemma X2_observers_agree_witness :
  Spsc.pow2_capacity 8 /\
  Spsc.with_capacity 8 = Spsc.Returns (inr Spsc.ring8) /\
  exists rs q1,
    Spsc.run 0 [Spsc.Push 1; Spsc.Pop] Spsc.ring8 = Spsc.Returns (rs, q1) /\
    (Spsc.full q1 = true <-> Spsc.approx_size q1 = 8 - 1).
Proof.
  assert (Hq : Spsc.with_capacity 8 = Spsc.Returns (inr Spsc.ring8))
    by reflexivity.
  split; [exact pow2_capacity_8 |]. split; [exact Hq |].
  do 2 eexists. split; [reflexivity |].
  apply (X2_observers_agree 8 Spsc.ring8 0 0 0 [Spsc.Push 1; Spsc.Pop] _ _
           pow2_capacity_8 Hq eq_refl).
Defined.

Section PoolFacts.

Context {PF : Platform}.
Implicit Types (p : Pool.PacketPool) (ring : Spsc.SpscQueue Z) (l : list Z).

Lemma with_capacity_inr_pow2 {T : Type} {ET : Element T} (c : Z)
  (q : Spsc.SpscQueue T) :
  0 <= c < 2 ^ 64 ->
  Spsc.with_capacity c = Spsc.Returns (inr q) -> Spsc.pow2_capacity c.
Proof.
  intros Hc E. pose proof (X := E). revert X. unfold Spsc.with_capacity.
  destruct (Z.eqb_spec c 0) as [| Hnz]; [discriminate |].
  rewrite (wrap64_small (c - 1)) by lia.
  destruct (Z.eqb_spec (Z.land c (c - 1)) 0) as [Hl | Hl]; [| discriminate].
  intros _. destruct (land_pred_zero_pow2 c) as (k & Hk & Hck); [lia | assumption |].
  apply (pow2_below_size_max c k); [assumption | assumption | lia].
Qed.

(** Seeding a ring that has room and whole storage: every push returns
    and succeeds, in either build. *)
Lemma seed_all_repr (a : bool) C ring l (todo : nat) (i : Z) :
  Spsc.Repr C ring l -> Spsc.whole ring ->
  Z.of_nat (length l) + Z.of_nat todo <= C - 1 ->
  exists ring',
    Pool.seed_all a todo i ring = Spsc.Returns (true, ring') /\
    Spsc.Repr C ring'
      (l ++ map (fun j : nat => wrap32 (i + Z.of_nat j)) (seq 0 todo)) /\
    Spsc.whole ring'.
Proof.
  revert ring l i. induction todo as [| todo IH]; intros ring l i R Hw Hl; simpl.
  - rewrite app_nil_r. eauto.
  - rewrite (push_defined C ring l (wrap32 i) R) by (lia || auto). simpl.
    assert (R1 : Spsc.Repr C (Spsc.store (wrap32 i) ring) (l ++ [wrap32 i])).
    { apply store_repr; [assumption | lia |].
      pose proof (repr_tail_range C ring l R).
      unfold Spsc.whole in Hw. rewrite (Spsc.repr_cap _ _ _ R) in Hw. lia. }
    rewrite andb_false_r.
    destruct (IH _ _ (i + 1) R1 (store_whole _ _ Hw)) as (ring' & E & R2 & Hw2);
      [rewrite length_app; simpl; lia |].
    exists ring'. split; [exact E |]. split; [| exact Hw2].
    rewrite <- app_assoc in R2. simpl in R2.
    rewrite Z.add_0_r, <- seq_shift, map_map.
    erewrite (map_ext (fun j : nat => wrap32 (i + Z.of_nat (S j)))); [exact R2 |].
    intros j. simpl. f_equal. lia.
Qed.

Lemma pow2_double (N : Z) :
  0 <= N < 2 ^ 63 -> Spsc.pow2_capacity N -> Spsc.pow2_capacity (2 * N).
Proof.
  intros HN (k & Hk & ->). exists (k + 1).
  assert (k < 63) by (apply (Z.pow_lt_mono_r_iff 2); lia).
  split; [lia |]. rewrite Z.pow_add_r by lia. ring.
Qed.

Lemma pow2_half (N : Z) :
  0 <= N -> Spsc.pow2_capacity (2 * N) -> Spsc.pow2_capacity N.
Proof.
  intros HN (k & Hk & E).
  destruct (Z.eq_dec k 0) as [-> | Hk0]; [simpl in E; lia |].
  exists (k - 1). split; [lia |].
  replace k with (k - 1 + 1) in E by ring.
  rewrite Z.pow_add_r in E by lia. lia.
Qed.

(** A capacity the descriptor vector accepts is below 2^60. *)
Lemma vector_fits (N : Z) :
  N <= vector_max_bytes / Pool.sizeof_Packet -> N < 2 ^ 60.
Proof.
  intros H. pose proof vector_max_bytes_range as Hv.
  assert (vector_max_bytes / Pool.sizeof_Packet < 2 ^ 60); [| lia].
  apply Z.div_lt_upper_bound; [reflexivity |].
  change (Pool.sizeof_Packet * 2 ^ 60) with (2 ^ 64). lia.
Qed.

(** Once the ring is made, seeding completes: the constructor's loop
    stays inside the storage and no push is refused. *)
Lemma seeding_completes (a : bool) (N : Z) ring :
  0 <= N < 2 ^ 60 ->
  Spsc.with_capacity (wrap64 (N * 2)) = Spsc.Returns (inr ring) ->
  Spsc.pow2_capacity N /\
  exists ring',
    Pool.seed_all a (Z.to_nat N) 0 ring = Spsc.Returns (true, ring') /\
    Spsc.Repr (2 * N) ring' (Pool.seeded N) /\ Spsc.whole ring'.
Proof.
  intros HN. rewrite wrap64_small by lia.
  replace (N * 2) with (2 * N) by ring. intros E.
  pose proof (with_capacity_inr_pow2 (2 * N) ring ltac:(lia) E) as HP.
  pose proof (fresh_repr (2 * N) ring HP E) as R.
  assert (Hw : Spsc.whole ring).
  { apply (fresh_whole (2 * N)); [assumption | | assumption].
    change (sizeof Z) with 4. lia. }
  pose proof (pow2_half N ltac:(lia) HP) as HPN.
  pose proof (pow2_capacity_bounds N HPN).
  split; [assumption |].
  destruct (seed_all_repr a (2 * N) ring [] (Z.to_nat N) 0 R Hw)
    as (ring' & Es & R' & Hw'); [simpl; lia |].
  exists ring'. auto.
Qed.

(** What the constructor builds. *)
Lemma PacketPool_ctor_repr (a : bool) (N : Z) p :
  0 <= N -> Pool.PacketPool_ctor a N = Pool.Constructed p ->
  Spsc.pow2_capacity N /\
  N <= vector_max_bytes / Pool.sizeof_Packet /\
  grants (N * Pool.sizeof_Packet) = true /\
  grants (N * 8) = true /\
  Pool.capacity_ p = N /\
  Pool.storage_ p = replicate (Z.to_nat N) Pool.Packet_init /\
  Spsc.Repr (2 * N) (Pool.free_ring_ p) (Pool.seeded N) /\
  Spsc.whole (Pool.free_ring_ p).
Proof.
  intros HN. unfold Pool.PacketPool_ctor.
  destruct (Z.ltb_spec (vector_max_bytes / Pool.sizeof_Packet) N) as [| Hmax];
    [discriminate |].
  pose proof (vector_fits N Hmax) as Hfit.
  destruct (negb (N =? 0) && negb (grants (N * Pool.sizeof_Packet))) eqn:Hvec;
    [discriminate |].
  destruct (Spsc.with_capacity (wrap64 (N * 2))) as [[e | ring] | |] eqn:E;
    try discriminate.
  destruct (seeding_completes a N ring ltac:(lia) E) as (HPN & ring' & -> & R & Hw).
  rewrite andb_false_r. intros [= <-]. simpl.
  pose proof (pow2_capacity_bounds N HPN).
  assert (HP2 : Spsc.pow2_capacity (wrap64 (N * 2))).
  { rewrite wrap64_small by lia. replace (N * 2) with (2 * N) by ring.
    apply pow2_double; [lia | assumption]. }
  destruct (with_capacity_ring _ ring HP2 E) as (_ & _ & Hg).
  rewrite (wrap64_small (N * 2)) in Hg by lia.
  change (sizeof Z) with 4 in Hg. rewrite wrap64_small in Hg by lia.
  replace (N * 2 * 4) with (N * 8) in Hg by ring.
  destruct (Z.eqb_spec N 0); [lia |]. simpl in Hvec.
  apply negb_false_iff in Hvec. auto 10.
Qed.

Lemma PacketPool_new_ctor (a : bool) (N : Z) p :
  Pool.PacketPool_new a N = Some p <->
  Pool.PacketPool_ctor a N = Pool.Constructed p.
Proof.
  unfold Pool.PacketPool_new.
  destruct (Pool.PacketPool_ctor a N); split; congruence.
Qed.

Lemma PacketPool_new_repr (a : bool) (N : Z) p :
  0 <= N < 2 ^ 63 -> Pool.PacketPool_new a N = Some p ->
  Spsc.pow2_capacity N /\
  Pool.capacity_ p = N /\
  Pool.storage_ p = replicate (Z.to_nat N) Pool.Packet_init /\
  Spsc.Repr (2 * N) (Pool.free_ring_ p) (Pool.seeded N) /\
  Spsc.whole (Pool.free_ring_ p).
Proof.
  intros HN E. apply PacketPool_new_ctor in E.
  destruct (PacketPool_ctor_repr a N p ltac:(lia) E)
    as (? & _ & _ & _ & ? & ? & ? & ?).
  auto.
Qed.

(** A power of two the vector accepts, with both allocations granted,
    is constructed. *)
Lemma PacketPool_ctor_pow2 (a : bool) (N : Z) :
  Spsc.pow2_capacity N ->
  N <= vector_max_bytes / Pool.sizeof_Packet ->
  grants (N * Pool.sizeof_Packet) = true ->
  grants (N * 8) = true ->
  exists p, Pool.PacketPool_ctor a N = Pool.Constructed p.
Proof.
  intros HPN Hmax Hg1 Hg2. pose proof (pow2_capacity_bounds N HPN).
  pose proof (vector_fits N Hmax) as Hfit.
  unfold Pool.PacketPool_ctor.
  destruct (Z.ltb_spec (vector_max_bytes / Pool.sizeof_Packet) N); [lia |].
  rewrite Hg1, andb_false_r.
  assert (HP2 : Spsc.pow2_capacity (wrap64 (N * 2))).
  { rewrite wrap64_small by lia. replace (N * 2) with (2 * N) by ring.
    apply pow2_double; [lia | assumption]. }
  destruct (with_capacity_pow2 (T := Z) _ HP2) as (ring & E).
  { reflexivity. }
  { rewrite (wrap64_small (N * 2)) by lia.
    change (sizeof Z) with 4. rewrite wrap64_small by lia.
    now replace (N * 2 * 4) with (N * 8) by ring. }
  rewrite E.
  destruct (seeding_completes a N ring ltac:(lia) E) as (_ & ring' & -> & _).
  rewrite andb_false_r. eauto.
Qed.

Lemma seed_all_indep (a a' : bool) C ring l (todo : nat) (i : Z) :
  Spsc.Repr C ring l -> Spsc.whole ring ->
  Z.of_nat (length l) + Z.of_nat todo <= C - 1 ->
  Pool.seed_all a todo i ring = Pool.seed_all a' todo i ring.
Proof.
  revert ring l i. induction todo as [| todo IH]; intros ring l i R Hw Hl; simpl.
  - reflexivity.
  - rewrite (push_defined C ring l (wrap32 i) R) by (lia || auto). simpl.
    rewrite !andb_false_r.
    apply (IH _ (l ++ [wrap32 i])); [| now apply store_whole |].
    + apply store_repr; [assumption | lia |].
      pose proof (repr_tail_range C ring l R).
      unfold Spsc.whole in Hw. rewrite (Spsc.repr_cap _ _ _ R) in Hw. lia.
    + rewrite length_app. simpl. lia.
Qed.

(** The two builds end the constructor the same way. *)
Lemma PacketPool_ctor_indep (a a' : bool) (N : Z) :
  0 <= N -> Pool.PacketPool_ctor a N = Pool.PacketPool_ctor a' N.
Proof.
  intros HN. unfold Pool.PacketPool_ctor.
  destruct (Z.ltb_spec (vector_max_bytes / Pool.sizeof_Packet) N) as [| Hmax];
    [reflexivity |].
  pose proof (vector_fits N Hmax) as Hfit.
  destruct (negb (N =? 0) && negb (grants (N * Pool.sizeof_Packet)));
    [reflexivity |].
  destruct (Spsc.with_capacity (wrap64 (N * 2))) as [[e | ring] | |] eqn:E;
    try reflexivity.
  destruct (seeding_completes a N ring ltac:(lia) E) as (HPN & ring1 & E1 & _).
  assert (Pool.seed_all a' (Z.to_nat N) 0 ring
          = Pool.seed_all a (Z.to_nat N) 0 ring) as ->.
  { revert E. rewrite wrap64_small by lia.
    replace (N * 2) with (2 * N) by ring. intros E.
    pose proof (with_capacity_inr_pow2 (2 * N) ring ltac:(lia) E) as HP.
    pose proof (pow2_capacity_bounds N HPN).
    apply (seed_all_indep a' a (2 * N) ring []).
    - now apply fresh_repr.
    - apply (fresh_whole (2 * N)); [assumption | | assumption].
      change (sizeof Z) with 4. lia.
    - simpl. lia. }
  rewrite E1. now rewrite !andb_false_r.
Qed.

Lemma with_capacity_not_undefined {T : Type} {ET : Element T} (c : Z) :
  Spsc.with_capacity (T := T) c <> Spsc.Undefined.
Proof.
  unfold Spsc.with_capacity.
  repeat match goal with
         | |- context [if ?b then _ else _] => destruct b
         end; discriminate.
Qed.

Lemma seeded_length (N : Z) : length (Pool.seeded N) = Z.to_nat N.
Proof. unfold Pool.seeded. now rewrite length_map, length_seq. Qed.

Lemma seeded_small (N : Z) :
  N <= 2 ^ 32 -> Pool.seeded N = map Z.of_nat (seq 0 (Z.to_nat N)).
Proof.
  intros HN. unfold Pool.seeded. apply map_ext_in. intros i Hi.
  apply in_seq in Hi. apply wrap32_small. lia.
Qed.

Lemma seeded_range (N h : Z) : In h (Pool.seeded N) -> 0 <= h < N.
Proof.
  unfold Pool.seeded. rewrite in_map_iff. intros (i & <- & Hi).
  apply in_seq in Hi. pose proof (wrap32_range (Z.of_nat i)).
  destruct (Z.le_gt_cases N (2 ^ 32)).
  - rewrite wrap32_small by lia. lia.
  - lia.
Qed.

(** X3. The pool constructor, for every [size_t] capacity, has no
    undefined behaviour and ends the same way whether or not the build
    keeps assertions.  It completes exactly when the capacity is a power
    of two that [std::vector<Packet>] accepts (at most [max_size()],
    which is below 2^60) and the free store grants both the descriptors
    and the ring; a capacity above [max_size()] ends in
    [std::length_error].  When it completes, the pool has that capacity
    and that many default descriptors, its free ring has twice the
    capacity over whole storage, and the free list holds the handles
    0, 1, ..., capacity-1 in order (as 32-bit values): the seeding loop
    stays inside the ring and its assertion never fires. *)
Theorem X3_pool_construction (a : bool) (N : Z)
  (HN : 0 <= N < 2 ^ 64) :
  Pool.PacketPool_ctor a N <> Pool.Construction_undefined /\
  Pool.PacketPool_ctor (negb a) N = Pool.PacketPool_ctor a N /\
  ((exists p, Pool.PacketPool_ctor a N = Pool.Constructed p) <->
   Spsc.pow2_capacity N /\
   N <= vector_max_bytes / Pool.sizeof_Packet /\
   grants (N * Pool.sizeof_Packet) = true /\
   grants (N * 8) = true) /\
  (Pool.PacketPool_ctor a N = Pool.Throws_length_error <->
   vector_max_bytes / Pool.sizeof_Packet < N) /\
  forall p, Pool.PacketPool_ctor a N = Pool.Constructed p ->
    Pool.PacketPool_new a N = Some p /\
    Pool.capacity p = N /\
    Z.of_nat (length (Pool.storage_ p)) = N /\
    Forall (fun d => d = Pool.Packet_init) (Pool.storage_ p) /\
    Spsc.capacity (Pool.free_ring_ p) = 2 * N /\
    Pool.free_handles p = Pool.seeded N /\
    (N <= 2 ^ 32 -> Pool.free_handles p = map Z.of_nat (seq 0 (Z.to_nat N))) /\
    Pool.sound p.
Proof.
  split; [| split; [| split; [| split]]].
  - unfold Pool.PacketPool_ctor.
    destruct (Z.ltb_spec (vector_max_bytes / Pool.sizeof_Packet) N) as [| Hmax];
      [discriminate |].
    pose proof (vector_fits N Hmax) as Hfit.
    destruct (negb (N =? 0) && negb (grants (N * Pool.sizeof_Packet)));
      [discriminate |].
    pose proof (with_capacity_not_undefined (T := Z) (wrap64 (N * 2))) as Hnu.
    destruct (Spsc.with_capacity (wrap64 (N * 2))) as [[e | ring] | |] eqn:E;
      try discriminate; [| congruence].
    destruct (seeding_completes a N ring ltac:(lia) E) as (_ & ring' & -> & _).
    rewrite andb_false_r. discriminate.
  - apply PacketPool_ctor_indep. lia.
  - split.
    + intros [p E].
      destruct (PacketPool_ctor_repr a N p ltac:(lia) E) as (? & ? & ? & ? & _).
      auto.
    + intros (HP & Hmax & Hg1 & Hg2). now apply PacketPool_ctor_pow2.
  - unfold Pool.PacketPool_ctor.
    destruct (Z.ltb_spec (vector_max_bytes / Pool.sizeof_Packet) N) as [| Hmax];
      [split; auto |].
    split; [| lia].
    destruct (negb (N =? 0) && negb (grants (N * Pool.sizeof_Packet)));
      [discriminate |].
    destruct (Spsc.with_capacity (wrap64 (N * 2))) as [[e | ring] | |];
      try discriminate.
    destruct (Pool.seed_all a (Z.to_nat N) 0 ring) as [[ok r] | |];
      try discriminate.
    destruct (a && negb ok); discriminate.
  - intros p E.
    destruct (PacketPool_ctor_repr a N p ltac:(lia) E)
      as (HP & _ & _ & _ & Hc & Hs & R & Hw).
    pose proof (contents_repr _ _ _ R) as Hcont.
    split; [now apply PacketPool_new_ctor |].
    split; [exact Hc |].
    split; [rewrite Hs, length_replicate; lia |].
    split; [rewrite Hs; now apply Forall_replicate |].
    split; [apply (Spsc.repr_cap _ _ _ R) |].
    split; [exact Hcont |].
    split; [| now exists (2 * N), (Pool.seeded N)].
    intros H32. unfold Pool.free_handles. rewrite Hcont. now apply seeded_small.
Qed.

Lemma acquire_call_cons C p (x : Z) l (out : Z) :
  Spsc.Repr C (Pool.free_ring_ p) (x :: l) ->
  exists p1,
    Pool.acquire_call out p = Spsc.Returns (true, x, p1) /\
    Spsc.Repr C (Pool.free_ring_ p1) l /\
    Pool.capacity_ p1 = Pool.capacity_ p /\
    Pool.storage_ p1 = Pool.storage_ p /\
    Spsc.buf_ (Pool.free_ring_ p1) = Spsc.buf_ (Pool.free_ring_ p).
Proof.
  intros R. unfold Pool.acquire_call.
  destruct (pop_cons C _ x l out R) as (ring1 & -> & R1 & Eb). simpl.
  eexists. split; [reflexivity |]. simpl. auto.
Qed.

Lemma acquire_call_nil C p (out : Z) :
  Spsc.Repr C (Pool.free_ring_ p) [] ->
  Pool.acquire_call out p = Spsc.Returns (false, out, p).
Proof.
  intros R. unfold Pool.acquire_call. rewrite (pop_empty C _ out R).
  destruct p. reflexivity.
Qed.

Lemma release_call_room C p l (h : Z) :
  Spsc.Repr C (Pool.free_ring_ p) l -> Spsc.whole (Pool.free_ring_ p) ->
  Z.of_nat (length l) < C - 1 ->
  exists p1,
    Pool.release_call h p = Spsc.Returns (true, p1) /\
    Spsc.Repr C (Pool.free_ring_ p1) (l ++ [h]) /\
    Spsc.whole (Pool.free_ring_ p1) /\
    Pool.capacity_ p1 = Pool.capacity_ p /\
    Pool.storage_ p1 = Pool.storage_ p.
Proof.
  intros R Hw Hl. unfold Pool.release_call.
  rewrite (push_defined C _ l h R Hl Hw) by reflexivity. simpl.
  eexists. split; [reflexivity |]. simpl.
  split; [| split; [now apply store_whole | auto]].
  apply store_repr; [assumption | assumption |].
  pose proof (repr_tail_range C _ l R).
  unfold Spsc.whole in Hw. rewrite (Spsc.repr_cap _ _ _ R) in Hw. lia.
Qed.

Lemma release_call_full C p l (h : Z) :
  Spsc.Repr C (Pool.free_ring_ p) l -> Z.of_nat (length l) = C - 1 ->
  Pool.release_call h p = Spsc.Returns (false, p).
Proof.
  intros R Hl. unfold Pool.release_call. rewrite (push_full C _ l h R Hl).
  destruct p. reflexivity.
Qed.

(** On a sound pool [acquire] returns, and leaves a sound pool. *)
Lemma acquire_call_returns p (out : Z) :
  Pool.sound p ->
  Pool.acquire_call out p = Spsc.Returns (Pool.acquire out p) /\
  Pool.sound (Pool.acquire out p).2.
Proof.
  intros (C & l & R & Hw). unfold Pool.acquire. destruct l as [| x l].
  - rewrite (acquire_call_nil C p out R). split; [reflexivity |].
    now exists C, [].
  - destruct (acquire_call_cons C p x l out R) as (p1 & -> & R1 & _ & _ & Eb).
    split; [reflexivity |]. exists C, l. split; [assumption |].
    apply (whole_repr C _ _ _ _ R R1); [now rewrite Eb | assumption].
Qed.

(** On a sound pool [release] returns, and leaves a sound pool. *)
Lemma release_call_returns p (h : Z) :
  Pool.sound p ->
  Pool.release_call h p = Spsc.Returns (Pool.release h p) /\
  Pool.sound (Pool.release h p).2.
Proof.
  intros (C & l & R & Hw). unfold Pool.release.
  pose proof (Spsc.repr_len _ _ _ R) as Hlen.
  destruct (decide (Z.of_nat (length l) = C - 1)) as [Hfull | Hroom].
  - rewrite (release_call_full C p l h R Hfull). split; [reflexivity |].
    now exists C, l.
  - destruct (release_call_room C p l h R Hw) as (p1 & -> & R1 & Hw1 & _);
      [lia |].
    split; [reflexivity |]. now exists C, (l ++ [h]).
Qed.

Lemma acquire_cons C p (x : Z) l (out : Z) :
  Spsc.Repr C (Pool.free_ring_ p) (x :: l) ->
  (Pool.acquire out p).1 = (true, x) /\
  Spsc.Repr C (Pool.free_ring_ (Pool.acquire out p).2) l /\
  Pool.capacity_ (Pool.acquire out p).2 = Pool.capacity_ p /\
  Pool.storage_ (Pool.acquire out p).2 = Pool.storage_ p /\
  Spsc.buf_ (Pool.free_ring_ (Pool.acquire out p).2)
  = Spsc.buf_ (Pool.free_ring_ p).
Proof.
  intros R. unfold Pool.acquire.
  destruct (acquire_call_cons C p x l out R) as (p1 & -> & ?). simpl. auto.
Qed.

Lemma acquire_nil C p (out : Z) :
  Spsc.Repr C (Pool.free_ring_ p) [] ->
  Pool.acquire out p = (false, out, p).
Proof.
  intros R. unfold Pool.acquire. now rewrite (acquire_call_nil C p out R).
Qed.

Lemma release_room C p l (h : Z) :
  Spsc.Repr C (Pool.free_ring_ p) l -> Spsc.whole (Pool.free_ring_ p) ->
  Z.of_nat (length l) < C - 1 ->
  (Pool.release h p).1 = true /\
  Spsc.Repr C (Pool.free_ring_ (Pool.release h p).2) (l ++ [h]) /\
  Pool.capacity_ (Pool.release h p).2 = Pool.capacity_ p /\
  Pool.storage_ (Pool.release h p).2 = Pool.storage_ p.
Proof.
  intros R Hw Hl. unfold Pool.release.
  destruct (release_call_room C p l h R Hw Hl) as (p1 & -> & ? & ? & ? & ?).
  simpl. auto.
Qed.

Lemma acquire_n_repr C (n : nat) p l :
  Spsc.Repr C (Pool.free_ring_ p) l -> (n <= length l)%nat ->
  (Pool.acquire_n n p).1 = map Some (firstn n l) /\
  Spsc.Repr C (Pool.free_ring_ (Pool.acquire_n n p).2) (skipn n l) /\
  Pool.capacity_ (Pool.acquire_n n p).2 = Pool.capacity_ p /\
  Pool.storage_ (Pool.acquire_n n p).2 = Pool.storage_ p /\
  Spsc.buf_ (Pool.free_ring_ (Pool.acquire_n n p).2)
  = Spsc.buf_ (Pool.free_ring_ p).
Proof.
  revert p l. induction n as [| n IH]; intros p l R Hn; simpl.
  - auto.
  - destruct l as [| x l]; [simpl in Hn; lia |].
    destruct (acquire_cons C p x l 0 R) as (E & R1 & Hc & Hs & Hb).
    destruct (Pool.acquire 0 p) as [[ok h] p1]. simpl in *.
    injection E as -> ->.
    destruct (IH p1 l R1) as (E2 & R2 & Hc2 & Hs2 & Hb2); [lia |].
    destruct (Pool.acquire_n n p1) as [rs p2]. simpl in *.
    split; [now f_equal |]. split; [assumption |]. repeat split; congruence.
Qed.

(** X4. Exhaustion and recovery.  On a freshly constructed pool of
    capacity [N], [N] acquires in a row succeed and hand out the seeded
    handles in order (0, 1, ..., N-1 when [N <= 2^32]); the next acquire
    fails and leaves both the caller's variable and the pool alone; after
    one release of any handle, exactly one more acquire succeeds, and it
    returns the released handle. *)
Theorem X4_pool_exhaustion_and_recovery
  (a : bool) (N : Z) p (out h : Z)
  (HN : 0 <= N < 2 ^ 63)
  (Hp : Pool.PacketPool_new a N = Some p) :
  let p1 := (Pool.acquire_n (Z.to_nat N) p).2 in
  let p2 := (Pool.release h p1).2 in
  let p3 := (Pool.acquire out p2).2 in
  (Pool.acquire_n (Z.to_nat N) p).1 = map Some (Pool.seeded N) /\
  (N <= 2 ^ 32 -> Pool.seeded N = map Z.of_nat (seq 0 (Z.to_nat N))) /\
  Pool.acquire out p1 = (false, out, p1) /\
  (Pool.release h p1).1 = true /\
  (Pool.acquire out p2).1 = (true, h) /\
  Pool.acquire out p3 = (false, out, p3).
Proof.
  intros p1 p2 p3.
  destruct (PacketPool_new_repr a N p HN Hp) as (HP & Hc & Hs & R & Hw).
  pose proof (pow2_capacity_bounds N HP).
  destruct (acquire_n_repr (2 * N) (Z.to_nat N) p _ R) as (E & R1 & _ & _ & Eb);
    [rewrite seeded_length; lia |].
  fold p1 in R1, Eb.
  rewrite take_ge in E by (rewrite seeded_length; lia).
  rewrite drop_ge in R1 by (rewrite seeded_length; lia).
  assert (Hw1 : Spsc.whole (Pool.free_ring_ p1)).
  { apply (whole_repr (2 * N) _ _ _ _ R R1); [now rewrite Eb | assumption]. }
  destruct (release_room (2 * N) p1 [] h R1 Hw1) as (Er & R2 & _); [simpl; lia |].
  fold p2 in R2. simpl in R2.
  destruct (acquire_cons (2 * N) p2 h [] out R2) as (Ea & R3 & _).
  fold p3 in R3.
  repeat split.
  - exact E.
  - apply seeded_small.
  - apply (acquire_nil (2 * N) p1 out R1).
  - exact Er.
  - exact Ea.
  - apply (acquire_nil (2 * N) p3 out R3).
Qed.

Lemma remove_one_perm (h : Z) (held : list Z) :
  existsb (Z.eqb h) held = true -> Permutation (h :: Pool.remove_one h held) held.
Proof.
  induction held as [| x held IH]; simpl; [discriminate |].
  destruct (Z.eqb_spec x h) as [-> | Hne].
  - intros _. reflexivity.
  - destruct (Z.eqb_spec h x) as [-> | _]; [congruence |]. simpl. intros H.
    rewrite perm_swap. now constructor; apply IH.
Qed.

(** The client loop keeps every handle either free or held. *)
Lemma client_run_conserves C (init : list Z) (ops : list Pool.pool_op) p
  (held : list Z) l rs p' held' :
  Spsc.Repr C (Pool.free_ring_ p) l ->
  Spsc.whole (Pool.free_ring_ p) ->
  Permutation (l ++ held) init ->
  Z.of_nat (length init) <= C - 1 ->
  Pool.client_run ops p held = Some (rs, p', held') ->
  exists l',
    Spsc.Repr C (Pool.free_ring_ p') l' /\
    Permutation (l' ++ held') init /\
    Forall (fun r => r <> Pool.Released false) rs /\
    Pool.capacity_ p' = Pool.capacity_ p /\
    Pool.storage_ p' = Pool.storage_ p.
Proof.
  revert p held l rs p' held'.
  induction ops as [| o ops IH]; intros p held l rs p' held' R Hw HP Hlen; simpl.
  - intros [= <- <- <-]. exists l. auto.
  - destruct o as [| h].
    + destruct l as [| x l].
      * rewrite (acquire_call_nil C p 0 R).
        destruct (Pool.client_run ops p held) as [[[rs2 p2] held2] |] eqn:E;
          [| discriminate].
        intros [= <- <- <-].
        destruct (IH p held [] rs2 p2 held2 R Hw HP Hlen E)
          as (l' & ? & ? & ? & ? & ?).
        exists l'. split; [assumption |]. split; [assumption |].
        split; [constructor; [discriminate | assumption] |]. split; congruence.
      * destruct (acquire_call_cons C p x l 0 R) as (p1 & -> & R1 & Hc & Hs & Eb).
        destruct (Pool.client_run ops p1 (x :: held)) as [[[rs2 p2] held2] |] eqn:E;
          [| discriminate].
        intros [= <- <- <-].
        destruct (IH p1 (x :: held) l rs2 p2 held2 R1) as (l' & ? & ? & ? & ? & ?);
          auto.
        { apply (whole_repr C _ _ _ _ R R1); [now rewrite Eb | assumption]. }
        { rewrite <- HP. simpl. now rewrite Permutation_middle. }
        exists l'. split; [assumption |]. split; [assumption |].
        split; [constructor; [discriminate | assumption] |]. split; congruence.
    + destruct (existsb (Z.eqb h) held) eqn:Hh; [| discriminate].
      pose proof (remove_one_perm h held Hh) as Hrm.
      assert (Hroom : Z.of_nat (length l) < C - 1).
      { apply Permutation_length in HP, Hrm. rewrite length_app in HP.
        simpl in Hrm. lia. }
      destruct (release_call_room C p l h R Hw Hroom)
        as (p1 & -> & R1 & Hw1 & Hc & Hs).
      destruct (Pool.client_run ops p1 (Pool.remove_one h held))
        as [[[rs2 p2] held2] |] eqn:E; [| discriminate].
      intros [= <- <- <-].
      destruct (IH p1 (Pool.remove_one h held) (l ++ [h]) rs2 p2 held2 R1)
        as (l' & ? & ? & ? & ? & ?);
        auto.
      { rewrite <- HP, <- app_assoc. simpl.
        apply Permutation_app_head. exact Hrm. }
      exists l'. split; [assumption |]. split; [assumption |].
        split; [constructor; [discriminate | assumption] |]. split; congruence.
Qed.

(** X5. Handles are conserved.  Let a client start on a fresh pool of
    capacity [N] and mix acquires and releases in any order, releasing
    only handles it holds.  Then no release is ever refused, and at every
    point the free list together with the held handles is a rearrangement
    of the handles the pool was seeded with; each of them is below [N],
    so [get] finds its descriptor. *)
Theorem X5_pool_conserves_handles
  (a : bool) (N : Z) p (ops : list Pool.pool_op) rs p' (held : list Z)
  (HN : 0 <= N < 2 ^ 63)
  (Hp : Pool.PacketPool_new a N = Some p)
  (Hrun : Pool.client_run ops p [] = Some (rs, p', held)) :
  Permutation (Pool.free_handles p' ++ held) (Pool.seeded N) /\
  Forall (fun r => r <> Pool.Released false) rs /\
  Z.of_nat (length (Pool.free_handles p')) + Z.of_nat (length held) = N /\
  forall h, In h (Pool.free_handles p' ++ held) ->
            0 <= h < N /\ Pool.get h p' = Some Pool.Packet_init.
Proof.
  destruct (PacketPool_new_repr a N p HN Hp) as (HP & Hc & Hs & R & Hw).
  pose proof (pow2_capacity_bounds N HP).
  destruct (client_run_conserves (2 * N) (Pool.seeded N) ops p [] _ rs p' held R)
    as (l' & R' & Hperm & Hrel & Hc' & Hs'); auto.
  { now rewrite app_nil_r. }
  { rewrite seeded_length. lia. }
  unfold Pool.free_handles. rewrite (contents_repr _ _ _ R').
  split; [assumption |]. split; [assumption |]. split.
  { apply Permutation_length in Hperm.
    rewrite length_app, seeded_length in Hperm. lia. }
  intros h Hin. split.
  - eapply seeded_range, Permutation_in; eassumption.
  - assert (Hr : 0 <= h < N) by (eapply seeded_range, Permutation_in; eassumption).
    unfold Pool.get. rewrite Hc', Hc, Hs', Hs.
    destruct (Z.ltb_spec h N); [| lia].
    apply lookup_replicate_2. lia.
Qed.

End PoolFacts.

Lemma X4_pool_exhaustion_and_recovery_witness :
  0 <= 8 < 2 ^ 63 /\
  Pool.PacketPool_new true 8 = Some Pool.pool8 /\
  (Pool.acquire_n (Z.to_nat 8) Pool.pool8).1 = map Some (Pool.seeded 8) /\
  (Pool.acquire 0 (Pool.release 3 (Pool.acquire_n (Z.to_nat 8) Pool.pool8).2).2).1
  = (true, 3).
Proof.
  assert (H : 0 <= 8 < 2 ^ 63) by lia.
  assert (Hp : Pool.PacketPool_new true 8 = Some Pool.pool8) by reflexivity.
  pose proof (X4_pool_exhaustion_and_recovery true 8 Pool.pool8 0 3 H Hp)
    as (X1 & _ & _ & _ & X5 & _).
  split; [exact H |]. split; [exact Hp |]. split; [exact X1 | exact X5].
Defined.

Lemma X5_pool_conserves_handles_witness :
  0 <= 8 < 2 ^ 63 /\
  Pool.PacketPool_new true 8 = Some Pool.pool8 /\
  exists rs p' held,
    Pool.client_run [Pool.Acquire; Pool.Acquire; Pool.Release 0] Pool.pool8 []
    = Some (rs, p', held) /\
    Permutation (Pool.free_handles p' ++ held) (Pool.seeded 8).
Proof.
  assert (H : 0 <= 8 < 2 ^ 63) by lia.
  assert (Hp : Pool.PacketPool_new true 8 = Some Pool.pool8) by reflexivity.
  split; [exact H |]. split; [exact Hp |].
  destruct (Pool.client_run [Pool.Acquire; Pool.Acquire; Pool.Release 0]
              Pool.pool8 []) as [[[rs p'] held] |] eqn:E.
  - exists rs, p', held. split; [reflexivity |].
    apply (X5_pool_conserves_handles true 8 Pool.pool8 _ rs p' held H Hp E).
  - vm_compute in E. discriminate.
Defined.

Lemma X3_pool_construction_witness :
  0 <= 8 < 2 ^ 64 /\
  Pool.PacketPool_ctor true 8 = Pool.Constructed Pool.pool8 /\
  Pool.capacity Pool.pool8 = 8 /\
  Pool.free_handles Pool.pool8 = Pool.seeded 8.
Proof.
  assert (H : 0 <= 8 < 2 ^ 64) by lia.
  assert (Hp : Pool.PacketPool_ctor true 8 = Pool.Constructed Pool.pool8)
    by reflexivity.
  pose proof (X3_pool_construction true 8 H) as (_ & _ & _ & _ & X).
  destruct (X _ Hp) as (_ & Hc & _ & _ & _ & Hf & _).
  split; [exact H |]. split; [exact Hp |]. split; [exact Hc | exact Hf].
Defined.

(** ** C'. Seqlock cells: round trips and racing writers *)

Section SeqlockOrder.

Context {S : Type} (seqf : S -> Z).

Lemma monotone_le (sched : nat -> nat) (a b : nat) :
  Seqlock.monotone sched -> (a <= b)%nat -> (sched a <= sched b)%nat.
Proof.
  intros M Hab. induction Hab as [| b _ IH]; [lia |].
  specialize (M b). lia.
Qed.

Lemma ordered_cons (x : S) (l : list S) :
  Seqlock.ordered seqf l ->
  (forall y, In y l ->
             seqf x <= seqf y /\
             (seqf x = seqf y -> Z.even (seqf x) = true -> x = y)) ->
  Seqlock.ordered seqf (x :: l).
Proof.
  intros O H i j a b Hij Ha Hb.
  destruct i as [| i], j as [| j]; simpl in Ha, Hb; try lia.
  - injection Ha as <-. injection Hb as <-. split; [lia | auto].
  - injection Ha as <-. apply H.
    apply list_elem_of_In, list_elem_of_lookup. eauto.
  - apply (O i j); auto. lia.
Qed.

Lemma observe_lookup (dflt : S) (hist : list S) (sched : nat -> nat) (t : nat) :
  hist <> [] ->
  hist !! Nat.min (sched t) (length hist - 1)
  = Some (Seqlock.observe dflt hist sched t).
Proof.
  intros Hne. unfold Seqlock.observe.
  assert (length hist <> 0%nat) by (destruct hist; simpl; congruence).
  destruct (nth_lookup_or_length hist
              (Nat.min (sched t) (length hist - 1)) dflt) as [E | E];
    [exact E | lia].
Qed.

Lemma observe_in (dflt : S) (hist : list S) (sched : nat -> nat) (t : nat) :
  hist <> [] -> In (Seqlock.observe dflt hist sched t) hist.
Proof.
  intros Hne. apply list_elem_of_In, list_elem_of_lookup.
  eexists. now apply observe_lookup.
Qed.

(** Between two loads that return the same even sequence number, the cell
    did not change. *)
Lemma observe_stable (dflt : S) (hist : list S) (sched : nat -> nat)
  (a c b : nat) :
  Seqlock.ordered seqf hist -> hist <> [] -> Seqlock.monotone sched ->
  (a <= c <= b)%nat ->
  seqf (Seqlock.observe dflt hist sched a)
  = seqf (Seqlock.observe dflt hist sched b) ->
  Z.even (seqf (Seqlock.observe dflt hist sched a)) = true ->
  Seqlock.observe dflt hist sched c = Seqlock.observe dflt hist sched a.
Proof.
  intros O Hne M Hacb Heq Hev.
  pose proof (observe_lookup dflt hist sched a Hne) as La.
  pose proof (observe_lookup dflt hist sched c Hne) as Lc.
  pose proof (observe_lookup dflt hist sched b Hne) as Lb.
  pose proof (monotone_le sched a c M ltac:(lia)).
  pose proof (monotone_le sched c b M ltac:(lia)).
  assert (Hac : (Nat.min (sched a) (length hist - 1)
                 <= Nat.min (sched c) (length hist - 1))%nat) by lia.
  assert (Hcb : (Nat.min (sched c) (length hist - 1)
                 <= Nat.min (sched b) (length hist - 1))%nat) by lia.
  destruct (O _ _ _ _ Hac La Lc) as [H1 H1'].
  destruct (O _ _ _ _ Hcb Lc Lb) as [H2 _].
  symmetry. apply H1'; [lia | assumption].
Qed.

End SeqlockOrder.

Section MetricsRace.

Import Routing.

Lemma lor_1_odd (x : Z) : Z.odd (Z.lor x 1) = true.
Proof.
  rewrite <- Z.bit0_odd, Z.lor_spec, !Z.bit0_odd. apply orb_true_r.
Qed.

Lemma update_metrics_even (s : MetricsSlot) (m : PathMetrics) :
  Z.even (seq (update_metrics s m)) = true.
Proof.
  unfold update_metrics. simpl. rewrite wrap32_even, Z.even_add.
  rewrite <- Z.negb_odd, lor_1_odd. reflexivity.
Qed.

(** A slot between updates is read in one round. *)
Lemma load_metrics_settled (v : nat -> MetricsSlot) (s : MetricsSlot)
  (out : PathMetrics) (t : nat) :
  (forall u, v u = s) -> Z.even (seq s) = true ->
  load_metrics v out t = (true, metrics s, (t + 3)%nat).
Proof.
  intros Hv He. unfold load_metrics. simpl. rewrite !Hv.
  rewrite land_1_mod2, Zmod_even, He. simpl.
  now rewrite Z.eqb_refl.
Qed.

Lemma load_rounds_settled (v : nat -> MetricsSlot) (s : MetricsSlot) (t : nat) :
  (forall u, v u = s) -> Z.even (seq s) = true ->
  load_metrics_rounds 4 v t = 1%nat.
Proof.
  intros Hv He. simpl. rewrite !Hv.
  rewrite land_1_mod2, Zmod_even, He. simpl.
  now rewrite Z.eqb_refl.
Qed.

(** X6. Write/read round trip on a metrics slot: whatever the slot held
    before (even a sequence number left odd), after [update_metrics(s, m)]
    the sequence number is even and a reader of the now quiet slot gets
    exactly [m], in its first round, with three loads. *)
Theorem X6_update_then_load (s : MetricsSlot) (m out : PathMetrics) (t : nat) :
  Z.even (seq (update_metrics s m)) = true /\
  load_metrics (quiet (update_metrics s m)) out t = (true, m, (t + 3)%nat) /\
  load_metrics_rounds 4 (quiet (update_metrics s m)) t = 1%nat.
Proof.
  pose proof (update_metrics_even s m) as He.
  split; [exact He |]. split.
  - now rewrite (load_metrics_settled _ (update_metrics s m)).
  - now apply (load_rounds_settled _ (update_metrics s m)).
Qed.

Lemma committed_step (s : MetricsSlot) (m : PathMetrics)
  (ms : list PathMetrics) (k : nat) :
  MetricsCp.committed s (m :: ms) (S k)
  = MetricsCp.committed (update_metrics s m) ms k.
Proof. reflexivity. Qed.

(** The history of a writer that starts on an even sequence number and
    does not wrap it. *)
Lemma writer_history_ordered (ms : list PathMetrics) (s : MetricsSlot) :
  Z.even (seq s) = true -> 0 <= seq s ->
  seq s + 2 * Z.of_nat (length ms) < 2 ^ 32 ->
  Seqlock.ordered seq (MetricsCp.writer_history s ms) /\
  (forall x, In x (MetricsCp.writer_history s ms) ->
             seq s <= seq x /\
             (seq x = seq s -> x = s) /\
             (Z.even (seq x) = true ->
              exists k, (k <= length ms)%nat /\ x = MetricsCp.committed s ms k)).
Proof.
  revert s. induction ms as [| m ms IH]; intros s He H0 Hw.
  - split.
    + intros i j x y Hij Hx Hy.
      destruct i, j; simpl in Hx, Hy; try discriminate.
      injection Hx as <-. injection Hy as <-. split; [lia | auto].
    + intros x [<- | []]. split; [lia |]. split; [auto |].
      intros _. exists 0%nat. split; [lia | reflexivity].
  - simpl length in Hw.
    pose proof (update_metrics_seq s m He) as (E3 & He3 & _ & _ & _).
    rewrite wrap32_small in E3 by lia.
    destruct (IH (update_metrics s m) He3) as [O IN]; [lia | lia |].
    change (MetricsCp.writer_history s (m :: ms))
      with (s :: store_seq (Z.lor (seq s) 1) s
              :: store_metrics m (store_seq (Z.lor (seq s) 1) s)
              :: MetricsCp.writer_history (update_metrics s m) ms).
    pose proof (lor_1_even (seq s) He) as El.
    assert (Hodd : Z.even (seq s + 1) = false).
    { rewrite Z.even_add, He. reflexivity. }
    assert (Hrest : forall y,
               In y (MetricsCp.writer_history (update_metrics s m) ms) ->
               seq s + 2 <= seq y).
    { intros y Hy. destruct (IN y Hy) as [Hle _]. lia. }
    split.
    + apply ordered_cons; [apply ordered_cons; [apply ordered_cons |] |].
      * exact O.
      * intros y Hy. simpl. rewrite El. specialize (Hrest y Hy).
        split; [lia |]. intros; lia.
      * intros y [<- | Hy]; simpl; rewrite El.
        -- split; [lia |]. intros _ Hev. congruence.
        -- specialize (Hrest y Hy). split; [lia |]. intros; lia.
      * intros y [<- | [<- | Hy]]; simpl; try rewrite El.
        -- split; [lia |]. intros; lia.
        -- split; [lia |]. intros; lia.
        -- specialize (Hrest y Hy). split; [lia |]. intros; lia.
    + intros x [<- | [<- | [<- | Hx]]]; simpl; try rewrite El.
      * split; [lia |]. split; [auto |]. intros _. exists 0%nat.
        split; [lia | reflexivity].
      * split; [lia |]. split; [intros; lia |]. intros Hev. congruence.
      * split; [lia |]. split; [intros; lia |]. intros Hev. congruence.
      * destruct (IN x Hx) as (Hle & _ & Hk). split; [lia |].
        split; [intros; lia |]. intros Hev.
        destruct (Hk Hev) as (k & Hkl & ->). exists (S k).
        split; [simpl; lia | now rewrite committed_step].
Qed.

(** X7. No torn or in-flight read.  A writer starts on an even sequence
    number and performs any list of updates without wrapping the 32-bit
    counter; a reader's loads fall anywhere in between, in time order.
    If [load_metrics] returns true, the payload is that of the slot after
    some number [k] of completed updates, and the slot held exactly that
    committed content at each of the three loads of the accepting
    round. *)
Theorem X7_load_returns_committed
  (s : MetricsSlot) (ms : list PathMetrics) (sched : nat -> nat)
  (out p : PathMetrics) (t t' : nat)
  (Heven : Z.even (seq s) = true)
  (Hpos : 0 <= seq s)
  (Hnowrap : seq s + 2 * Z.of_nat (length ms) < 2 ^ 32)
  (Hmono : Seqlock.monotone sched)
  (Hload : load_metrics
             (Seqlock.observe s (MetricsCp.writer_history s ms) sched) out t
           = (true, p, t')) :
  exists k, (k <= length ms)%nat /\
    p = metrics (MetricsCp.committed s ms k) /\
    (3 <= t')%nat /\
    forall u, (t' - 3 <= u < t')%nat ->
      Seqlock.observe s (MetricsCp.writer_history s ms) sched u
      = MetricsCp.committed s ms k.
Proof.
  set (hist := MetricsCp.writer_history s ms) in *.
  set (v := Seqlock.observe s hist sched) in *.
  destruct (writer_history_ordered ms s Heven Hpos Hnowrap) as [O IN].
  fold hist in O, IN.
  assert (Hne : hist <> []) by discriminate.
  pose proof (load_metrics_loop_spec 4 v out t) as L.
  fold (load_metrics v out t) in L. rewrite Hload in L.
  destruct (accepting_round 4 v t) as [ta |]; [| destruct L; discriminate].
  destruct L as (_ & (_ & E1 & E2) & L). injection L as -> ->.
  assert (Hev : Z.even (seq (v ta)) = true) by (now rewrite E1, Zeven_mod, E2).
  destruct (IN (v ta) (observe_in s hist sched ta Hne)) as (_ & _ & Hk).
  destruct (Hk Hev) as (k & Hkl & Ek).
  assert (Hst : forall u, (ta <= u <= ta + 2)%nat -> v u = v ta).
  { intros u Hu. apply (observe_stable seq s hist sched ta u (ta + 2));
      auto. }
  exists k. split; [assumption |]. split; [| split; [lia |]].
  - now rewrite (Hst (ta + 1)%nat), Ek by lia.
  - intros u Hu. rewrite <- Ek. apply Hst. lia.
Qed.

End MetricsRace.

Lemma monotone_id : Seqlock.monotone (fun t => t).
Proof. intros t. lia. Defined.

Lemma X7_load_returns_committed_witness :
  Z.even (Routing.seq Routing.MetricsSlot_init) = true /\
  0 <= Routing.seq Routing.MetricsSlot_init /\
  Routing.seq Routing.MetricsSlot_init
  + 2 * Z.of_nat (length [Routing.healthy_metrics]) < 2 ^ 32 /\
  Seqlock.monotone (fun t => t) /\
  Routing.load_metrics
    (Seqlock.observe Routing.MetricsSlot_init
       (MetricsCp.writer_history Routing.MetricsSlot_init
          [Routing.healthy_metrics]) (fun t => t))
    Routing.PathMetrics_init 0
  = (true, Routing.healthy_metrics, 6%nat) /\
  exists k, (k <= 1)%nat /\
    Routing.healthy_metrics
    = Routing.metrics
        (MetricsCp.committed Routing.MetricsSlot_init
           [Routing.healthy_metrics] k).
Proof.
  assert (H1 : Z.even (Routing.seq Routing.MetricsSlot_init) = true)
    by reflexivity.
  assert (H2 : 0 <= Routing.seq Routing.MetricsSlot_init) by (simpl; lia).
  assert (H3 : Routing.seq Routing.MetricsSlot_init
               + 2 * Z.of_nat (length [Routing.healthy_metrics]) < 2 ^ 32)
    by (simpl; lia).
  assert (H5 : Routing.load_metrics
                 (Seqlock.observe Routing.MetricsSlot_init
                    (MetricsCp.writer_history Routing.MetricsSlot_init
                       [Routing.healthy_metrics]) (fun t => t))
                 Routing.PathMetrics_init 0
               = (true, Routing.healthy_metrics, 6%nat)) by reflexivity.
  destruct (X7_load_returns_committed _ _ _ _ _ _ _ H1 H2 H3 monotone_id H5)
    as (k & Hk & Hp & _).
  split; [exact H1 |]. split; [exact H2 |]. split; [exact H3 |].
  split; [exact monotone_id |]. split; [exact H5 |].
  exists k. split; [exact Hk | exact Hp].
Defined.

Section BindingRace.

Import Binding.

Context {Heap : Type}.

Implicit Types (b : PolicyBinding Heap) (o : BindingCp.cp_op Heap).

Lemma cp_apply_even b o : Z.even (seq (BindingCp.cp_apply Heap b o)) = true.
Proof.
  destruct o; simpl; rewrite wrap32_even, Z.even_add, <- Z.negb_odd, lor_1_odd;
    reflexivity.
Qed.

(** A binding between calls is snapshotted in one round. *)
Lemma snapshot_binding_settled (v : nat -> PolicyBinding Heap) b (t : nat) :
  (forall u, v u = b) -> Z.even (seq b) = true ->
  snapshot_binding Heap v t
  = (non_null (fn b) && non_null (state b), fn b, state b, (t + 4)%nat).
Proof.
  intros Hv He. unfold snapshot_binding. simpl. rewrite !Hv.
  rewrite land_1_mod2, Zmod_even, He. simpl.
  now rewrite Z.eqb_refl.
Qed.

(** X8. Publish, clear and select compose as a hot swap.  Whatever the
    binding held before, after [publish_policy] a worker reading the quiet
    binding snapshots exactly the published function and state in one
    round, and [select_path] returns what that function returns on that
    state: it cannot fall back to 0 on its own.  After [clear_policy] the
    snapshot fails with both outputs null and [select_path] returns 0
    without touching the heap.  Either call leaves the sequence number
    even. *)
Theorem X8_publish_clear_select
  b (thunk : ChooseFn Heap) (policy : nat)
  (cands : list Routing.CandidateRef) (pkt : Routing.PacketContext)
  (h : Heap) (t : nat) :
  let bp := publish_policy Heap b thunk policy in
  let bc := clear_policy Heap b in
  Z.even (seq bp) = true /\ Z.even (seq bc) = true /\
  snapshot_binding Heap (quiet Heap bp) t
  = (true, Some thunk, Some policy, (t + 4)%nat) /\
  select_path Heap (quiet Heap bp) cands pkt h t
  = ((thunk policy cands pkt h).1, (thunk policy cands pkt h).2, (t + 4)%nat) /\
  snapshot_binding Heap (quiet Heap bc) t = (false, None, None, (t + 4)%nat) /\
  select_path Heap (quiet Heap bc) cands pkt h t = (0, h, (t + 4)%nat).
Proof.
  intros bp bc.
  pose proof (cp_apply_even b (BindingCp.Publish thunk policy)) as Hp.
  pose proof (cp_apply_even b BindingCp.Clear) as Hc.
  simpl in Hp, Hc. fold bp in Hp. fold bc in Hc.
  assert (Sp : snapshot_binding Heap (quiet Heap bp) t
               = (true, Some thunk, Some policy, (t + 4)%nat)).
  { now rewrite (snapshot_binding_settled _ bp). }
  assert (Sc : snapshot_binding Heap (quiet Heap bc) t
               = (false, None, None, (t + 4)%nat)).
  { now rewrite (snapshot_binding_settled _ bc). }
  repeat split; auto.
  - unfold select_path. rewrite Sp. simpl.
    now destruct (thunk policy cands pkt h).
  - unfold select_path. now rewrite Sc.
Qed.

Lemma binding_committed_step b o (os : list (BindingCp.cp_op Heap)) (k : nat) :
  BindingCp.committed Heap b (o :: os) (S k)
  = BindingCp.committed Heap (BindingCp.cp_apply Heap b o) os k.
Proof. reflexivity. Qed.

(** One call: three contents under the odd number, then the result. *)
Lemma cp_trace_shape b o :
  Z.even (seq b) = true ->
  exists b1 b2 b3,
    BindingCp.cp_trace Heap b o = [b1; b2; b3; BindingCp.cp_apply Heap b o] /\
    seq b1 = seq b + 1 /\ seq b2 = seq b + 1 /\ seq b3 = seq b + 1 /\
    seq (BindingCp.cp_apply Heap b o) = wrap32 (seq b + 2).
Proof.
  intros He. pose proof (lor_1_even (seq b) He) as El.
  destruct o as [thunk policy |]; simpl.
  - unfold publish_policy_trace, publish_policy. simpl. rewrite El.
    do 3 eexists. split; [reflexivity |]. simpl.
    repeat split. f_equal. ring.
  - unfold BindingCp.clear_policy_trace, clear_policy. simpl. rewrite El.
    do 3 eexists. split; [reflexivity |]. simpl.
    repeat split. f_equal. ring.
Qed.

Lemma binding_history_ordered (os : list (BindingCp.cp_op Heap)) b :
  Z.even (seq b) = true -> 0 <= seq b ->
  seq b + 2 * Z.of_nat (length os) < 2 ^ 32 ->
  Seqlock.ordered seq (BindingCp.binding_history Heap b os) /\
  (forall x, In x (BindingCp.binding_history Heap b os) ->
             seq b <= seq x /\
             (Z.even (seq x) = true ->
              exists k, (k <= length os)%nat /\
                        x = BindingCp.committed Heap b os k)).
Proof.
  revert b. induction os as [| o os IH]; intros b He H0 Hw.
  - split.
    + intros i j x y Hij Hx Hy.
      destruct i, j; simpl in Hx, Hy; try discriminate.
      injection Hx as <-. injection Hy as <-. split; [lia | auto].
    + intros x [<- | []]. split; [lia |].
      intros _. exists 0%nat. split; [lia | reflexivity].
  - simpl length in Hw.
    destruct (cp_trace_shape b o He) as (b1 & b2 & b3 & Et & E1 & E2 & E3 & E4).
    rewrite wrap32_small in E4 by lia.
    destruct (IH (BindingCp.cp_apply Heap b o) (cp_apply_even b o))
      as [O IN]; [lia | lia |].
    assert (Eh : BindingCp.binding_history Heap b (o :: os)
                 = b :: b1 :: b2 :: b3
                     :: BindingCp.binding_history Heap
                          (BindingCp.cp_apply Heap b o) os).
    { unfold BindingCp.binding_history. simpl. now rewrite Et. }
    rewrite Eh.
    assert (Hodd : Z.even (seq b + 1) = false).
    { rewrite Z.even_add, He. reflexivity. }
    assert (Hrest : forall y,
               In y (BindingCp.binding_history Heap
                       (BindingCp.cp_apply Heap b o) os) ->
               seq b + 2 <= seq y).
    { intros y Hy. destruct (IN y Hy) as [Hle _]. lia. }
    assert (Hmid : forall x y : PolicyBinding Heap,
               seq x = seq b + 1 -> seq b + 1 <= seq y ->
               seq x <= seq y /\
               (seq x = seq y -> Z.even (seq x) = true -> x = y)).
    { intros x y Ex Hy. split; [lia |]. intros _ Hev. congruence. }
    split.
    + apply ordered_cons; [apply ordered_cons; [apply ordered_cons;
        [apply ordered_cons |] |] |].
      * exact O.
      * intros y Hy. apply Hmid; [assumption |]. specialize (Hrest y Hy). lia.
      * intros y [<- | Hy]; apply Hmid; try assumption; try lia.
        specialize (Hrest y Hy). lia.
      * intros y [<- | [<- | Hy]]; apply Hmid; try assumption; try lia.
        specialize (Hrest y Hy). lia.
      * intros y [<- | [<- | [<- | Hy]]]; try (split; [lia |]; intros; lia).
        specialize (Hrest y Hy). split; [lia |]. intros; lia.
    + intros x [<- | [<- | [<- | [<- | Hx]]]].
      * split; [lia |]. intros _. exists 0%nat. split; [lia | reflexivity].
      * split; [lia |]. intros Hev. congruence.
      * split; [lia |]. intros Hev. congruence.
      * split; [lia |]. intros Hev. congruence.
      * destruct (IN x Hx) as (Hle & Hk). split; [lia |]. intros Hev.
        destruct (Hk Hev) as (k & Hkl & ->). exists (S k).
        split; [simpl; lia | now rewrite binding_committed_step].
Qed.

(** X9. The pair is never mismatched.  The control plane starts on an
    even sequence number and performs any list of [publish_policy] and
    [clear_policy] calls without wrapping the counter; a worker's loads
    fall anywhere in between, in time order.  If [snapshot_binding]
    returns true, the function and the state it hands out are those of the
    binding after some number [k] of completed calls: both from the same
    call, never a new state with an old function. *)
Theorem X9_snapshot_pair_is_committed
  b (os : list (BindingCp.cp_op Heap)) (sched : nat -> nat)
  (f : option (ChooseFn Heap)) (st : option nat) (t t' : nat)
  (Heven : Z.even (seq b) = true)
  (Hpos : 0 <= seq b)
  (Hnowrap : seq b + 2 * Z.of_nat (length os) < 2 ^ 32)
  (Hmono : Seqlock.monotone sched)
  (Hsnap : snapshot_binding Heap
             (Seqlock.observe b (BindingCp.binding_history Heap b os) sched) t
           = (true, f, st, t')) :
  exists k, (k <= length os)%nat /\
    f = fn (BindingCp.committed Heap b os k) /\
    st = state (BindingCp.committed Heap b os k) /\
    f <> None /\ st <> None.
Proof.
  set (hist := BindingCp.binding_history Heap b os) in *.
  set (v := Seqlock.observe b hist sched) in *.
  destruct (binding_history_ordered os b Heven Hpos Hnowrap) as [O IN].
  fold hist in O, IN.
  assert (Hne : hist <> []) by discriminate.
  pose proof (snapshot_binding_loop_spec 4 v t) as L.
  fold (snapshot_binding Heap v t) in L. rewrite Hsnap in L.
  destruct (stable_round Heap 4 v t) as [ta |]; [| discriminate].
  destruct L as (_ & E1 & Hev & L). injection L as Hok -> -> ->.
  destruct (IN (v ta) (observe_in b hist sched ta Hne)) as (_ & Hk).
  destruct (Hk Hev) as (k & Hkl & Ek).
  assert (Hst : forall u, (ta <= u <= ta + 3)%nat -> v u = v ta).
  { intros u Hu. apply (observe_stable seq b hist sched ta u (ta + 3));
      auto. }
  pose proof (Hst (ta + 1)%nat ltac:(lia)) as S1.
  pose proof (Hst (ta + 2)%nat ltac:(lia)) as S2.
  rewrite S1, S2 in Hok |- *.
  symmetry in Hok. apply andb_true_iff in Hok. destruct Hok as [Hf Hs].
  exists k. rewrite <- Ek.
  split; [assumption |]. split; [reflexivity |]. split; [reflexivity |].
  split; [destruct (fn (v ta)) | destruct (state (v ta))]; discriminate.
Qed.

End BindingRace.

Lemma X9_snapshot_pair_is_committed_witness :
  Z.even (Binding.seq (Binding.PolicyBinding_init Binding.DpHeap)) = true /\
  Seqlock.monotone (fun t => t) /\
  exists f st t',
    Binding.snapshot_binding Binding.DpHeap
      (Seqlock.observe (Binding.PolicyBinding_init Binding.DpHeap)
         (BindingCp.binding_history Binding.DpHeap
            (Binding.PolicyBinding_init Binding.DpHeap)
            [BindingCp.Publish
               (Binding.choose_thunk_RoundRobin Routing.idle_world) 1%nat])
         (fun t => t)) 0
    = (true, f, st, t') /\ st = Some 1%nat.
Proof.
  split; [reflexivity |]. split; [exact monotone_id |].
  do 3 eexists.
  assert (Hs : Binding.snapshot_binding Binding.DpHeap
      (Seqlock.observe (Binding.PolicyBinding_init Binding.DpHeap)
         (BindingCp.binding_history Binding.DpHeap
            (Binding.PolicyBinding_init Binding.DpHeap)
            [BindingCp.Publish
               (Binding.choose_thunk_RoundRobin Routing.idle_world) 1%nat])
         (fun t => t)) 0
    = (true, Some (Binding.choose_thunk_RoundRobin Routing.idle_world),
       Some 1%nat, 8%nat)) by reflexivity.
  split; [exact Hs |].
  destruct (X9_snapshot_pair_is_committed
              (Binding.PolicyBinding_init Binding.DpHeap)
              [BindingCp.Publish
                 (Binding.choose_thunk_RoundRobin Routing.idle_world) 1%nat]
              (fun t => t) _ _ 0%nat _ eq_refl ltac:(simpl; lia)
              ltac:(simpl; lia) monotone_id Hs) as (k & _ & _ & _ & _).
  reflexivity.
Defined.

(** ** E'. The policies on slots between updates *)

Section PolicyStill.

Import Routing.

Variable mem : nat -> MetricsSlot.
Hypothesis Hset : MetricsCp.settled mem.

Implicit Types (cands : list CandidateRef) (pkt : PacketContext).

Lemma load_still (p : nat) (out : PathMetrics) (t : nat) :
  load_metrics (view_of (MetricsCp.still mem) p) out t
  = (true, metrics (mem p), (t + 3)%nat).
Proof. apply load_metrics_settled; [reflexivity | apply Hset]. Qed.

Lemma at_In cands (c : CandidateRef) :
  In c cands -> exists q, 0 <= q < Z.of_nat (length cands) /\ at_ cands q = c.
Proof.
  intros Hin. destruct (In_nth cands c CandidateRef_init Hin) as (i & Hi & E).
  exists (Z.of_nat i). split; [lia |]. unfold at_. now rewrite Nat2Z.id.
Qed.

Lemma at_mem cands (k : Z) :
  0 <= k < Z.of_nat (length cands) -> In (at_ cands k) cands.
Proof. intros Hk. unfold at_. apply nth_In. lia. Qed.

(** The scan, told by the first healthy candidate it meets. *)
Lemma scan_still_some cands (n base : Z) (todo : nat) (i j : Z)
  (m : PathMetrics) (t : nat) :
  i <= j < i + Z.of_nat todo ->
  (forall i', i <= i' < j ->
     MetricsCp.healthy_in mem (at_ cands (wrap32 (base + i') mod n)) = false) ->
  MetricsCp.healthy_in mem (at_ cands (wrap32 (base + j) mod n)) = true ->
  scan_healthy (MetricsCp.still mem) cands n base todo i m t
  = (Some (id (at_ cands (wrap32 (base + j) mod n))),
     (t + 3 * (Z.to_nat (j - i) + 1))%nat).
Proof.
  revert i m t. induction todo as [| todo IH]; intros i m t Hj Hbefore Hat.
  - simpl in Hj. lia.
  - simpl. rewrite load_still.
    change (healthy (metrics (mem (slot (at_ cands (wrap32 (base + i) mod n))))))
      with (MetricsCp.healthy_in mem (at_ cands (wrap32 (base + i) mod n))).
    destruct (Z.eq_dec i j) as [-> | Hne].
    + rewrite Hat. cbn [negb orb]. rewrite Z.sub_diag. do 2 f_equal.
    + rewrite Hbefore by lia. cbn [negb orb].
      rewrite (IH (i + 1)) by (try assumption; try lia; intros; apply Hbefore; lia).
      f_equal. lia.
Qed.

Lemma scan_still_none cands (n base : Z) (todo : nat) (i : Z)
  (m : PathMetrics) (t : nat) :
  (forall i', i <= i' < i + Z.of_nat todo ->
     MetricsCp.healthy_in mem (at_ cands (wrap32 (base + i') mod n)) = false) ->
  scan_healthy (MetricsCp.still mem) cands n base todo i m t
  = (None, (t + 3 * todo)%nat).
Proof.
  revert i m t. induction todo as [| todo IH]; intros i m t Hall; simpl.
  - f_equal. lia.
  - rewrite load_still.
    change (healthy (metrics (mem (slot (at_ cands (wrap32 (base + i) mod n))))))
      with (MetricsCp.healthy_in mem (at_ cands (wrap32 (base + i) mod n))).
    rewrite Hall by lia. simpl.
    rewrite (IH (i + 1)) by (intros; apply Hall; lia). f_equal. lia.
Qed.

(** Whatever the scan returns is the id of a healthy candidate it read. *)
Lemma scan_still_healthy cands (n base : Z) (todo : nat) (i : Z)
  (m : PathMetrics) (t : nat) (r : Z) (t' : nat) :
  0 < n <= Z.of_nat (length cands) ->
  scan_healthy (MetricsCp.still mem) cands n base todo i m t = (Some r, t') ->
  exists c, In c cands /\ MetricsCp.healthy_in mem c = true /\ id c = r.
Proof.
  intros Hn. revert i m t. induction todo as [| todo IH]; intros i m t; simpl.
  - discriminate.
  - rewrite load_still. simpl.
    destruct (healthy (metrics (mem (slot (at_ cands (wrap32 (base + i) mod n))))))
      eqn:Hh.
    + intros [= <- _]. eexists. split; [| split; [exact Hh | reflexivity]].
      apply at_mem. pose proof (Z.mod_pos_bound (wrap32 (base + i)) n). lia.
    + apply IH.
Qed.

Lemma classic_below (f : Z -> bool) (k : nat) :
  (forall i : nat, (i < k)%nat -> f (Z.of_nat i) = false) \/
  (exists i : nat, (i < k)%nat /\ f (Z.of_nat i) = true).
Proof.
  induction k as [| k [Hall | (i & Hi & Hfi)]].
  - left. intros; lia.
  - destruct (f (Z.of_nat k)) eqn:Hk.
    + right. exists k. split; [lia | assumption].
    + left. intros i Hi. destruct (Nat.eq_dec i k) as [-> | ?];
        [assumption | apply Hall; lia].
  - right. exists i. split; [lia | assumption].
Qed.

(** The least index at which a boolean test holds. *)
Lemma least_true (f : Z -> bool) (k : nat) :
  f (Z.of_nat k) = true ->
  exists j, 0 <= j <= Z.of_nat k /\ f j = true /\
            forall i, 0 <= i < j -> f i = false.
Proof.
  induction k as [k IH] using lt_wf_ind. intros Hk.
  destruct (classic_below f k) as [Hall | (i & Hi & Hfi)].
  - exists (Z.of_nat k). split; [lia |]. split; [assumption |].
    intros i Hi. specialize (Hall (Z.to_nat i) ltac:(lia)).
    now rewrite Z2Nat.id in Hall by lia.
  - destruct (IH i Hi Hfi) as (j & Hj & Hjh & Hjb).
    exists j. split; [lia | auto].
Qed.

(** A full scan from [base] misses no candidate when the count is at most
    2^31. *)
Lemma scan_covers cands (base : Z) (q : Z) :
  let n := Z.of_nat (length cands) in
  n <= 2 ^ 31 -> 0 <= base < n -> 0 <= q < n ->
  exists i, 0 <= i < n /\ wrap32 (base + i) mod n = q.
Proof.
  intros n Hn Hb Hq. exists ((q - base) mod n).
  pose proof (Z.mod_pos_bound (q - base) n ltac:(lia)) as Hi.
  split; [exact Hi |].
  rewrite wrap32_small by lia.
  rewrite Z.add_mod_idemp_r by lia.
  replace (base + (q - base)) with q by ring. apply Z.mod_small. lia.
Qed.

(** Outcome of a full scan: a healthy candidate if there is one. *)
Lemma full_scan cands (base : Z) (m : PathMetrics) (t : nat) :
  let n := Z.of_nat (length cands) in
  n <= 2 ^ 31 -> 0 <= base < n ->
  match (scan_healthy (MetricsCp.still mem) cands n base (Z.to_nat n) 0 m t).1
  with
  | Some r => exists c, In c cands /\ MetricsCp.healthy_in mem c = true /\ id c = r
  | None => forall c, In c cands -> MetricsCp.healthy_in mem c = false
  end.
Proof.
  intros n Hn Hb.
  destruct (scan_healthy _ cands n base (Z.to_nat n) 0 m t) as [[r |] t'] eqn:E;
    simpl.
  - eapply scan_still_healthy; [| exact E]. lia.
  - intros c Hc. destruct (MetricsCp.healthy_in mem c) eqn:Hh; [| reflexivity].
    exfalso. destruct (at_In cands c Hc) as (q & Hq & <-).
    destruct (scan_covers cands base q Hn Hb Hq) as (i & Hi & Ei).
    fold n in Ei.
    destruct (least_true
                (fun j => MetricsCp.healthy_in mem
                            (at_ cands (wrap32 (base + j) mod n)))
                (Z.to_nat i)) as (j & Hj & Hjh & Hjb).
    { rewrite Z2Nat.id by lia. now rewrite Ei. }
    rewrite (scan_still_some cands n base (Z.to_nat n) 0 j m t) in E;
      [discriminate | lia | assumption | assumption].
Qed.

Lemma len_wrap32 cands :
  cands <> [] -> Z.of_nat (length cands) <= 2 ^ 31 ->
  wrap32 (Z.of_nat (length cands)) = Z.of_nat (length cands) /\
  0 < Z.of_nat (length cands).
Proof.
  intros Hne Hn. assert (0 < Z.of_nat (length cands)).
  { destruct cands; [congruence | simpl; lia]. }
  split; [apply wrap32_small; lia | assumption].
Qed.

(** X10 ([RoundRobinPolicy::choose] between updates).  With at most 2^31
    candidates whose slots are all between updates: the cursor advances by
    one modulo 2^32 on every call; when the candidate under the cursor
    ([idx_ mod n]) is healthy it is the one returned, after a single slot
    read; when any candidate is healthy the returned path is the id of a
    healthy candidate; and when none is healthy the call reads every slot
    once and falls back to the candidate under the cursor. *)
Theorem X10_round_robin_between_updates cands pkt (idx : Z) (t : nat) :
  cands <> [] ->
  Z.of_nat (length cands) <= 2 ^ 31 ->
  let n := Z.of_nat (length cands) in
  let start := at_ cands (idx mod n) in
  let r := RoundRobin_choose (MetricsCp.still mem) idx cands pkt t in
  r.1.2 = wrap32 (idx + 1) /\
  (MetricsCp.healthy_in mem start = true ->
     r = (id start, wrap32 (idx + 1), (t + 3)%nat)) /\
  ((exists c, In c cands /\ MetricsCp.healthy_in mem c = true) ->
     exists c, In c cands /\ MetricsCp.healthy_in mem c = true /\ id c = r.1.1) /\
  ((forall c, In c cands -> MetricsCp.healthy_in mem c = false) ->
     r.1.1 = id start /\ r.2 = (t + 3 * length cands)%nat).
Proof.
  intros Hne Hn n start r.
  destruct (len_wrap32 cands Hne Hn) as [Hw Hpos]. fold n in Hw, Hpos.
  assert (Hs : 0 <= idx mod n < n) by (apply Z.mod_pos_bound; lia).
  assert (Hsm : wrap32 (idx mod n + 0) mod n = idx mod n).
  { rewrite Z.add_0_r, wrap32_small by lia. apply Z.mod_small. lia. }
  subst r. unfold RoundRobin_choose. fold n. rewrite Hw.
  destruct (Z.eqb_spec n 0) as [? | _]; [lia |].
  pose proof (full_scan cands (idx mod n) PathMetrics_init t Hn Hs) as Hfull.
  fold n in Hfull.
  split; [| split; [| split]].
  - now destruct (scan_healthy _ cands n (idx mod n) (Z.to_nat n) 0 _ t) as [[? |] ?].
  - intros Hh.
    rewrite (scan_still_some cands n (idx mod n) (Z.to_nat n) 0 0).
    + rewrite Hsm. reflexivity.
    + lia.
    + intros; lia.
    + rewrite Hsm. exact Hh.
  - intros (c & Hc & Hh).
    destruct (scan_healthy _ cands n (idx mod n) (Z.to_nat n) 0 _ t)
      as [[x |] t'] eqn:E; simpl in Hfull |- *.
    + exact Hfull.
    + rewrite (Hfull c Hc) in Hh. discriminate.
  - intros Hnone.
    rewrite scan_still_none.
    + simpl. split; [reflexivity |]. subst n. lia.
    + intros i' _. apply Hnone, at_mem.
      apply Z.mod_pos_bound. lia.
Qed.

(** X11 ([FlowHashPolicy::choose] between updates).  Without
    [skip_unhealthy] the flow's path is [cands[flow_hash mod n]] and no slot
    is read, in any world.  With it, and at most 2^31 candidates whose slots
    are between updates: a flow keeps that same path as long as it is
    healthy; when some candidate is healthy the returned path is the id of
    a healthy one; when none is, the flow falls back to
    [cands[flow_hash mod n]]. *)
Theorem X11_flow_hash_between_updates cands pkt (t : nat) :
  cands <> [] ->
  Z.of_nat (length cands) <= 2 ^ 31 ->
  let n := Z.of_nat (length cands) in
  let home := at_ cands (flow_hash pkt mod n) in
  let r := FlowHash_choose (MetricsCp.still mem) true cands pkt t in
  (forall w, FlowHash_choose w false cands pkt t = (id home, t)) /\
  (MetricsCp.healthy_in mem home = true -> r = (id home, (t + 3)%nat)) /\
  ((exists c, In c cands /\ MetricsCp.healthy_in mem c = true) ->
     exists c, In c cands /\ MetricsCp.healthy_in mem c = true /\ id c = r.1) /\
  ((forall c, In c cands -> MetricsCp.healthy_in mem c = false) ->
     r = (id home, (t + 3 * length cands)%nat)).
Proof.
  intros Hne Hn n home r.
  destruct (len_wrap32 cands Hne Hn) as [Hw Hpos]. fold n in Hw, Hpos.
  assert (Hs : 0 <= flow_hash pkt mod n < n) by (apply Z.mod_pos_bound; lia).
  assert (Hsm : wrap32 (flow_hash pkt mod n + 0) mod n = flow_hash pkt mod n).
  { rewrite Z.add_0_r, wrap32_small by lia. apply Z.mod_small. lia. }
  subst r. unfold FlowHash_choose. fold n. rewrite Hw.
  destruct (Z.eqb_spec n 0) as [? | _]; [lia |]. cbn [negb].
  pose proof (full_scan cands (flow_hash pkt mod n) PathMetrics_init t Hn Hs)
    as Hfull.
  fold n in Hfull.
  split; [| split; [| split]].
  - reflexivity.
  - intros Hh.
    rewrite (scan_still_some cands n (flow_hash pkt mod n) (Z.to_nat n) 0 0).
    + rewrite Hsm. reflexivity.
    + lia.
    + intros; lia.
    + rewrite Hsm. exact Hh.
  - intros (c & Hc & Hh).
    destruct (scan_healthy _ cands n (flow_hash pkt mod n) (Z.to_nat n) 0 _ t)
      as [[x |] t'] eqn:E; simpl in Hfull |- *.
    + exact Hfull.
    + rewrite (Hfull c Hc) in Hh. discriminate.
  - intros Hnone.
    rewrite scan_still_none.
    + do 2 f_equal. subst n. lia.
    + intros i' _. apply Hnone, at_mem.
      apply Z.mod_pos_bound. lia.
Qed.

Lemma healthy_pass_still (cfg : LatencyAwareConfig) cands pkt (todo : nat) :
  forall (i best : Z) (hb : bool) (bestm m : PathMetrics) (t : nat),
    0 <= i ->
    MetricsCp.pass_inv mem cfg cands i best hb bestm ->
    exists best' hb' bestm' m',
      healthy_pass (MetricsCp.still mem) cfg cands pkt todo i best hb bestm m t
      = (best', hb', bestm', m', (t + 3 * todo)%nat) /\
      MetricsCp.pass_inv mem cfg cands (i + Z.of_nat todo) best' hb' bestm'.
Proof.
  induction todo as [| todo IH]; intros i best hb bestm m t Hi Hinv.
  - exists best, hb, bestm, m. split; [simpl; f_equal; lia |].
    now rewrite Z.add_0_r.
  - cbn [healthy_pass]. rewrite load_still. cbn [negb orb].
    set (m1 := metrics (mem (slot (at_ cands i)))).
    assert (Hm1 : m1 = MetricsCp.metrics_of mem (at_ cands i)) by reflexivity.
    assert (Hnext : forall best1 hb1 bestm1,
               MetricsCp.pass_inv mem cfg cands (i + 1) best1 hb1 bestm1 ->
               exists best' hb' bestm' m',
                 healthy_pass (MetricsCp.still mem) cfg cands pkt todo (i + 1)
                   best1 hb1 bestm1 m1 (t + 3)%nat
                 = (best', hb', bestm', m', (t + 3 * S todo)%nat) /\
                 MetricsCp.pass_inv mem cfg cands (i + Z.of_nat (S todo)) best' hb' bestm').
    { intros best1 hb1 bestm1 H1.
      destruct (IH (i + 1) best1 hb1 bestm1 m1 (t + 3)%nat ltac:(lia) H1)
        as (b' & h' & bm' & m' & E & I).
      exists b', h', bm', m'. rewrite E. split; [f_equal; lia |].
      now replace (i + Z.of_nat (S todo)) with (i + 1 + Z.of_nat todo) by lia. }
    destruct (healthy m1) eqn:Hh; cbn [negb].
    + destruct hb; cbn [negb orb].
      * destruct Hinv as (Hb & Hbm & Hbh & Hmin).
        destruct (Z.ltb_spec (rtt_us m1) (rtt_us bestm)) as [Hlt | Hge].
        { apply Hnext. unfold MetricsCp.pass_inv. split; [lia |]. split; [exact Hm1 |].
          split; [exact Hh |]. intros Hp j Hj Hjh.
          destruct (Z.eq_dec j i) as [-> | Hne].
          - rewrite <- Hm1. lia.
          - destruct (Hmin Hp j ltac:(lia) Hjh) as [Hle _]. lia. }
        destruct (prefer_qos_class cfg) eqn:Hp.
        { match goal with
          | |- context [if ?c then _ else _] => destruct c
          end; apply Hnext; unfold MetricsCp.pass_inv; rewrite Hp.
          - split; [lia |]. split; [exact Hm1 |]. split; [exact Hh |].
            discriminate.
          - split; [lia |]. split; [exact Hbm |]. split; [exact Hbh |].
            discriminate. }
        apply Hnext. unfold MetricsCp.pass_inv. rewrite Hp.
        split; [lia |]. split; [exact Hbm |]. split; [exact Hbh |].
        intros _ j Hj Hjh.
        destruct (Z.eq_dec j i) as [-> | Hne].
        { rewrite <- Hm1. lia. }
        apply (Hmin eq_refl j); [lia | exact Hjh].
      * apply Hnext. unfold MetricsCp.pass_inv. split; [lia |]. split; [exact Hm1 |].
        split; [exact Hh |]. intros _ j Hj Hjh.
        destruct (Z.eq_dec j i) as [-> | Hne].
        { rewrite <- Hm1. lia. }
        rewrite (Hinv j) in Hjh by lia. discriminate.
    + apply Hnext. unfold MetricsCp.pass_inv in Hinv |- *. destruct hb.
      * destruct Hinv as (Hb & Hbm & Hbh & Hmin).
        split; [lia |]. split; [exact Hbm |]. split; [exact Hbh |].
        intros Hp j Hj Hjh.
        destruct (Z.eq_dec j i) as [-> | Hne].
        { unfold MetricsCp.healthy_in in Hjh. rewrite <- Hm1 in Hjh. congruence. }
        apply (Hmin Hp j); [lia | exact Hjh].
      * intros j Hj. destruct (Z.eq_dec j i) as [-> | Hne].
        { unfold MetricsCp.healthy_in. now rewrite <- Hm1. }
        apply Hinv. lia.
Qed.

Lemma min_rtt_pass_still cands (todo : nat) :
  forall (i idx : Z) (minm : PathMetrics) (init : bool) (m : PathMetrics)
         (t : nat),
    0 <= i ->
    MetricsCp.min_inv mem cands i idx init minm ->
    exists idx' init' m',
      min_rtt_pass (MetricsCp.still mem) cands todo i idx minm init m t
      = (idx', init', m', (t + 3 * todo)%nat) /\
      exists minm', MetricsCp.min_inv mem cands (i + Z.of_nat todo) idx' init' minm'.
Proof.
  induction todo as [| todo IH]; intros i idx minm init m t Hi Hinv.
  - exists idx, init, m. split; [simpl; f_equal; lia |].
    exists minm. now rewrite Z.add_0_r.
  - cbn [min_rtt_pass]. rewrite load_still. cbn [negb].
    set (m1 := metrics (mem (slot (at_ cands i)))).
    assert (Hm1 : m1 = MetricsCp.metrics_of mem (at_ cands i)) by reflexivity.
    assert (Hnext : forall idx1 init1 minm1,
               MetricsCp.min_inv mem cands (i + 1) idx1 init1 minm1 ->
               exists idx' init' m',
                 min_rtt_pass (MetricsCp.still mem) cands todo (i + 1)
                   idx1 minm1 init1 m1 (t + 3)%nat
                 = (idx', init', m', (t + 3 * S todo)%nat) /\
                 exists minm',
                   MetricsCp.min_inv mem cands (i + Z.of_nat (S todo)) idx' init' minm').
    { intros idx1 init1 minm1 H1.
      destruct (IH (i + 1) idx1 minm1 init1 m1 (t + 3)%nat ltac:(lia) H1)
        as (b' & h' & m' & E & bm' & I).
      exists b', h', m'. rewrite E. split; [f_equal; lia |].
      exists bm'.
      now replace (i + Z.of_nat (S todo)) with (i + 1 + Z.of_nat todo) by lia. }
    destruct init; cbn [negb orb].
    + destruct Hinv as (Hb & Hbm & Hmin).
      destruct (Z.ltb_spec (rtt_us m1) (rtt_us minm)) as [Hlt | Hge];
        apply Hnext; unfold MetricsCp.min_inv.
      * split; [lia |]. split; [exact Hm1 |]. intros j Hj.
        destruct (Z.eq_dec j i) as [-> | Hne].
        { rewrite <- Hm1. lia. }
        destruct (Hmin j ltac:(lia)) as [Hle _]. lia.
      * split; [lia |]. split; [exact Hbm |]. intros j Hj.
        destruct (Z.eq_dec j i) as [-> | Hne].
        { rewrite <- Hm1. lia. }
        apply Hmin. lia.
    + unfold MetricsCp.min_inv in Hinv. subst i. apply Hnext. unfold MetricsCp.min_inv.
      split; [lia |]. split; [exact Hm1 |]. intros j Hj.
      assert (j = 0) as -> by lia. rewrite <- Hm1. lia.
Qed.

(** Whatever the exploration scan returns is the id of a healthy
    candidate. *)
Lemma explore_still_healthy cands (n start best : Z) (todo : nat) (i : Z)
  (m : PathMetrics) (t : nat) (r : Z) (t' : nat) :
  0 < n <= Z.of_nat (length cands) ->
  explore_scan (MetricsCp.still mem) cands n start best todo i m t
  = (Some r, t') ->
  exists c, In c cands /\ MetricsCp.healthy_in mem c = true /\ id c = r.
Proof.
  intros Hn. revert i m t. induction todo as [| todo IH]; intros i m t; simpl.
  - discriminate.
  - destruct (wrap32 (start + i) mod n =? best); cbn [negb]; [apply IH |].
    rewrite load_still. simpl.
    destruct (healthy (metrics (mem (slot (at_ cands (wrap32 (start + i) mod n))))))
      eqn:Hh.
    + intros [= <- _]. eexists. split; [| split; [exact Hh | reflexivity]].
      apply at_mem. pose proof (Z.mod_pos_bound (wrap32 (start + i)) n). lia.
    + apply IH.
Qed.

Lemma pass_inv_start (cfg : LatencyAwareConfig) cands :
  MetricsCp.pass_inv mem cfg cands 0 0 false PathMetrics_init.
Proof. intros j Hj. lia. Qed.

(** X12 ([LatencyAwarePolicy::choose] prefers healthy paths).  When the
    slots are between updates and some candidate is healthy, the returned
    path is the id of a healthy candidate, for every configuration, salt,
    packet and candidate count, exploration included. *)
Theorem X12_latency_aware_returns_healthy (cfg : LatencyAwareConfig)
  (salt : Z) cands pkt (t : nat) :
  (exists c, In c cands /\ MetricsCp.healthy_in mem c = true) ->
  exists c, In c cands /\ MetricsCp.healthy_in mem c = true /\
    id c = (LatencyAware_choose (MetricsCp.still mem) cfg salt cands pkt t).1.1.
Proof.
  intros (c0 & Hc0 & Hh0).
  destruct (at_In cands c0 Hc0) as (q & Hq & Eq0).
  unfold LatencyAware_choose.
  destruct cands as [| c1 cs] eqn:Ec; [destruct Hc0 |]. rewrite <- Ec in *.
  destruct (healthy_pass_still cfg cands pkt (length cands) 0 0 false
              PathMetrics_init PathMetrics_init t ltac:(lia)
              (pass_inv_start cfg cands))
    as (best & hb & bestm & m & E & Inv).
  rewrite E. destruct hb; cbn [negb].
  - destruct Inv as (Hb & Hbm & Hbh & _).
    assert (Hbest : exists c, In c cands /\ MetricsCp.healthy_in mem c = true /\
                              id c = id (at_ cands best)).
    { exists (at_ cands best). split; [apply at_mem; lia |].
      split; [| reflexivity].
      unfold MetricsCp.healthy_in. now rewrite <- Hbm. }
    destruct (explore_ppm cfg =? 0); cbn [negb]; [exact Hbest |].
    destruct (XorShift32_next_bounded 1000000 _) as [draw rng].
    destruct (draw <? explore_ppm cfg); [| exact Hbest].
    destruct (XorShift32_next_bounded _ rng) as [start rng'].
    destruct (explore_scan _ cands _ start best _ 0 m _) as [[r |] t'] eqn:Ex;
      [| exact Hbest].
    simpl.
    destruct (Z.eq_dec (wrap32 (Z.of_nat (length cands))) 0) as [Hz | Hnz].
    + rewrite Hz in Ex. simpl in Ex. discriminate.
    + eapply explore_still_healthy; [| exact Ex].
      pose proof (wrap32_range (Z.of_nat (length cands))).
      unfold wrap32 in *.
      pose proof (Z.mod_le (Z.of_nat (length cands)) (2 ^ 32) ltac:(lia)
                    ltac:(lia)).
      lia.
  - rewrite <- Eq0 in Hh0. rewrite (Inv q) in Hh0 by lia. discriminate.
Qed.

(** X13 ([LatencyAwarePolicy::choose], lowest latency).  With the QoS
    tie-break and exploration switched off, slots between updates and some
    healthy candidate: the call reads every slot once, leaves the salt
    alone, and returns the healthy candidate of least RTT, the first such
    candidate in list order when several share that RTT. *)
Theorem X13_latency_aware_lowest_rtt (cfg : LatencyAwareConfig)
  (salt : Z) cands pkt (t : nat) :
  prefer_qos_class cfg = false ->
  explore_ppm cfg = 0 ->
  (exists c, In c cands /\ MetricsCp.healthy_in mem c = true) ->
  exists b,
    0 <= b < Z.of_nat (length cands) /\
    LatencyAware_choose (MetricsCp.still mem) cfg salt cands pkt t
    = (id (at_ cands b), salt, (t + 3 * length cands)%nat) /\
    MetricsCp.healthy_in mem (at_ cands b) = true /\
    forall j, 0 <= j < Z.of_nat (length cands) ->
      MetricsCp.healthy_in mem (at_ cands j) = true ->
      rtt_us (MetricsCp.metrics_of mem (at_ cands b))
      <= rtt_us (MetricsCp.metrics_of mem (at_ cands j)) /\
      (j < b -> rtt_us (MetricsCp.metrics_of mem (at_ cands b))
                < rtt_us (MetricsCp.metrics_of mem (at_ cands j))).
Proof.
  intros Hp He (c0 & Hc0 & Hh0).
  destruct (at_In cands c0 Hc0) as (q & Hq & Eq0).
  unfold LatencyAware_choose.
  destruct cands as [| c1 cs] eqn:Ec; [destruct Hc0 |]. rewrite <- Ec in *.
  destruct (healthy_pass_still cfg cands pkt (length cands) 0 0 false
              PathMetrics_init PathMetrics_init t ltac:(lia)
              (pass_inv_start cfg cands))
    as (best & hb & bestm & m & E & Inv).
  rewrite E. destruct hb; cbn [negb].
  - destruct Inv as (Hb & Hbm & Hbh & Hmin). specialize (Hmin Hp).
    rewrite He. cbn [Z.eqb negb].
    exists best. split; [lia |]. split; [reflexivity |].
    split; [unfold MetricsCp.healthy_in; now rewrite <- Hbm |].
    intros j Hj Hjh. rewrite <- Hbm. apply Hmin; [lia | exact Hjh].
  - rewrite <- Eq0 in Hh0. rewrite (Inv q) in Hh0 by lia. discriminate.
Qed.

(** X14 ([LatencyAwarePolicy::choose], degraded mode).  With slots between
    updates and no healthy candidate, every configuration falls back to
    the candidate of least RTT overall (the first one in list order among
    equals), after reading every slot twice, and leaves the salt alone. *)
Theorem X14_latency_aware_degraded (cfg : LatencyAwareConfig)
  (salt : Z) cands pkt (t : nat) :
  cands <> [] ->
  (forall c, In c cands -> MetricsCp.healthy_in mem c = false) ->
  exists b,
    0 <= b < Z.of_nat (length cands) /\
    LatencyAware_choose (MetricsCp.still mem) cfg salt cands pkt t
    = (id (at_ cands b), salt, (t + 6 * length cands)%nat) /\
    forall j, 0 <= j < Z.of_nat (length cands) ->
      rtt_us (MetricsCp.metrics_of mem (at_ cands b))
      <= rtt_us (MetricsCp.metrics_of mem (at_ cands j)) /\
      (j < b -> rtt_us (MetricsCp.metrics_of mem (at_ cands b))
                < rtt_us (MetricsCp.metrics_of mem (at_ cands j))).
Proof.
  intros Hne Hnone.
  unfold LatencyAware_choose.
  destruct cands as [| c1 cs] eqn:Ec; [congruence |]. rewrite <- Ec in *.
  assert (Hlen : 0 < Z.of_nat (length cands)) by (rewrite Ec; simpl; lia).
  destruct (healthy_pass_still cfg cands pkt (length cands) 0 0 false
              PathMetrics_init PathMetrics_init t ltac:(lia)
              (pass_inv_start cfg cands))
    as (best & hb & bestm & m & E & Inv).
  rewrite E. destruct hb; cbn [negb].
  - destruct Inv as (Hb & Hbm & Hbh & _).
    assert (MetricsCp.healthy_in mem (at_ cands best) = false) as Hf
      by (apply Hnone, at_mem; lia).
    unfold MetricsCp.healthy_in in Hf. rewrite <- Hbm in Hf. congruence.
  - destruct (min_rtt_pass_still cands (length cands) 0 0 PathMetrics_init
                false m (t + 3 * length cands)%nat ltac:(lia) eq_refl)
      as (idx & init & m' & E2 & minm & Inv2).
    rewrite E2. unfold MetricsCp.min_inv in Inv2. destruct init.
    + destruct Inv2 as (Hb & Hbm & Hmin).
      exists idx. split; [lia |]. split; [f_equal; lia |].
      intros j Hj. rewrite <- Hbm. apply Hmin. lia.
    + lia.
Qed.

End PolicyStill.

Lemma sample_mem_settled : MetricsCp.settled MetricsCp.sample_mem.
Proof.
  intros p. unfold MetricsCp.sample_mem.
  destruct (Nat.eqb p 2); [reflexivity |].
  destruct (Nat.eqb p 3); reflexivity.
Defined.

Lemma fresh_mem_settled :
  MetricsCp.settled (fun _ => Routing.MetricsSlot_init).
Proof. intros p. reflexivity. Defined.

Lemma X10_round_robin_between_updates_witness :
  MetricsCp.settled MetricsCp.sample_mem /\
  MetricsCp.three_cands <> [] /\
  Z.of_nat (length MetricsCp.three_cands) <= 2 ^ 31 /\
  Routing.RoundRobin_choose (MetricsCp.still MetricsCp.sample_mem) 4
    MetricsCp.three_cands Routing.some_pkt 0
  = (9, 5, 3%nat).
Proof.
  assert (H1 : MetricsCp.three_cands <> []) by discriminate.
  assert (H2 : Z.of_nat (length MetricsCp.three_cands) <= 2 ^ 31)
    by (simpl; lia).
  split; [exact sample_mem_settled |]. split; [exact H1 |].
  split; [exact H2 |].
  apply (X10_round_robin_between_updates MetricsCp.sample_mem
           sample_mem_settled MetricsCp.three_cands Routing.some_pkt 4 0%nat
           H1 H2).
  reflexivity.
Defined.

Lemma X11_flow_hash_between_updates_witness :
  MetricsCp.settled MetricsCp.sample_mem /\
  MetricsCp.three_cands <> [] /\
  Z.of_nat (length MetricsCp.three_cands) <= 2 ^ 31 /\
  exists c, In c MetricsCp.three_cands /\
    MetricsCp.healthy_in MetricsCp.sample_mem c = true /\
    Routing.id c
    = (Routing.FlowHash_choose (MetricsCp.still MetricsCp.sample_mem) true
         MetricsCp.three_cands Routing.some_pkt 0).1.
Proof.
  assert (H1 : MetricsCp.three_cands <> []) by discriminate.
  assert (H2 : Z.of_nat (length MetricsCp.three_cands) <= 2 ^ 31)
    by (simpl; lia).
  split; [exact sample_mem_settled |]. split; [exact H1 |].
  split; [exact H2 |].
  apply (X11_flow_hash_between_updates MetricsCp.sample_mem
           sample_mem_settled MetricsCp.three_cands Routing.some_pkt 0%nat
           H1 H2).
  exists {| Routing.id := 9; Routing.slot := 2%nat |}.
  split; [simpl; auto | reflexivity].
Defined.

Lemma X12_latency_aware_returns_healthy_witness :
  MetricsCp.settled MetricsCp.sample_mem /\
  exists c, In c MetricsCp.three_cands /\
    MetricsCp.healthy_in MetricsCp.sample_mem c = true /\
    Routing.id c
    = (Routing.LatencyAware_choose (MetricsCp.still MetricsCp.sample_mem)
         Routing.LatencyAwareConfig_init Routing.salt_init
         MetricsCp.three_cands Routing.some_pkt 0).1.1.
Proof.
  split; [exact sample_mem_settled |].
  apply (X12_latency_aware_returns_healthy MetricsCp.sample_mem
           sample_mem_settled).
  exists {| Routing.id := 9; Routing.slot := 2%nat |}.
  split; [simpl; auto | reflexivity].
Defined.

Lemma X13_latency_aware_lowest_rtt_witness :
  MetricsCp.settled MetricsCp.sample_mem /\
  exists b,
    0 <= b < 3 /\
    Routing.LatencyAware_choose (MetricsCp.still MetricsCp.sample_mem)
      {| Routing.tie_margin_us := 200; Routing.explore_ppm := 0;
         Routing.prefer_qos_class := false |}
      Routing.salt_init MetricsCp.three_cands Routing.some_pkt 0
    = (Routing.id (Routing.at_ MetricsCp.three_cands b), Routing.salt_init,
       9%nat).
Proof.
  split; [exact sample_mem_settled |].
  destruct (X13_latency_aware_lowest_rtt MetricsCp.sample_mem
              sample_mem_settled
              {| Routing.tie_margin_us := 200; Routing.explore_ppm := 0;
                 Routing.prefer_qos_class := false |}
              Routing.salt_init MetricsCp.three_cands Routing.some_pkt 0%nat
              eq_refl eq_refl) as (b & Hb & E & _).
  - exists {| Routing.id := 9; Routing.slot := 2%nat |}.
    split; [simpl; auto | reflexivity].
  - exists b. split; [exact Hb | exact E].
Defined.

Lemma X14_latency_aware_degraded_witness :
  MetricsCp.settled (fun _ => Routing.MetricsSlot_init) /\
  Routing.two_cands <> [] /\
  exists b,
    0 <= b < 2 /\
    Routing.LatencyAware_choose
      (MetricsCp.still (fun _ => Routing.MetricsSlot_init))
      Routing.LatencyAwareConfig_init Routing.salt_init Routing.two_cands
      Routing.some_pkt 0
    = (Routing.id (Routing.at_ Routing.two_cands b), Routing.salt_init,
       12%nat).
Proof.
  assert (H1 : Routing.two_cands <> []) by discriminate.
  split; [exact fresh_mem_settled |]. split; [exact H1 |].
  destruct (X14_latency_aware_degraded (fun _ => Routing.MetricsSlot_init)
              fresh_mem_settled Routing.LatencyAwareConfig_init
              Routing.salt_init Routing.two_cands Routing.some_pkt 0%nat H1)
    as (b & Hb & E & _).
  - intros c Hc. reflexivity.
  - exists b. split; [exact Hb | exact E].
Defined.

(** ** D'. The registry: validation, lookups and the writer API *)

Section StringOrder.

Import Registry.

Lemma ltb_lt (a b : string) :
  String.ltb a b = true <-> OrderedTypeEx.String_as_OT.lt a b.
Proof.
  unfold String.ltb. rewrite <- OrderedTypeEx.String_as_OT.cmp_lt.
  unfold OrderedTypeEx.String_as_OT.cmp.
  destruct (String.compare a b); split; congruence.
Qed.

Lemma ltb_trans (a b c : string) :
  String.ltb a b = true -> String.ltb b c = true -> String.ltb a c = true.
Proof.
  rewrite !ltb_lt. apply OrderedTypeEx.String_as_OT.lt_trans.
Qed.

Lemma ltb_irrefl (a : string) : String.ltb a a = false.
Proof.
  destruct (String.ltb a a) eqn:E; [| reflexivity].
  apply ltb_lt, OrderedTypeEx.String_as_OT.lt_not_eq in E. now destruct E.
Qed.

Lemma ltb_asym (a b : string) :
  String.ltb a b = true -> String.ltb b a = false.
Proof.
  intros H. destruct (String.ltb b a) eqn:E; [| reflexivity].
  pose proof (ltb_trans _ _ _ H E) as C. rewrite ltb_irrefl in C. discriminate.
Qed.

Lemma ltb_total (a b : string) :
  String.ltb a b = false -> String.ltb b a = false -> a = b.
Proof.
  unfold String.ltb. intros H1 H2.
  apply String.compare_eq_iff.
  rewrite (String.compare_antisym b a) in H2.
  destruct (String.compare a b); simpl in *; congruence.
Qed.

(** [b <= a] and [c <= b] give [c <= a], with [x <= y] read as
    [not (y < x)]. *)
Lemma ltb_false_trans (a b c : string) :
  String.ltb b a = false -> String.ltb c b = false -> String.ltb c a = false.
Proof.
  intros H1 H2. destruct (String.ltb c a) eqn:E; [| reflexivity].
  destruct (String.ltb a b) eqn:Eab.
  - rewrite (ltb_trans _ _ _ E Eab) in H2. discriminate.
  - rewrite (ltb_total a b Eab H1) in E. congruence.
Qed.

Lemma insert_sorted_perm (x : string) (l : list string) :
  Permutation (insert_sorted x l) (x :: l).
Proof.
  induction l as [| y l IH]; simpl; [reflexivity |].
  destruct (String.ltb y x); [| reflexivity].
  rewrite IH. apply perm_swap.
Qed.

Lemma sort_perm (l : list string) : Permutation (sort l) l.
Proof.
  induction l as [| x l IH]; simpl; [reflexivity |].
  unfold sort in IH. rewrite insert_sorted_perm. now constructor.
Qed.

Lemma insert_sorted_sorted (x : string) (l : list string) :
  Sorted.StronglySorted (fun a b => String.ltb b a = false) l ->
  Sorted.StronglySorted (fun a b => String.ltb b a = false)
    (insert_sorted x l).
Proof.
  induction 1 as [| y l Hs IH Hall]; simpl.
  - constructor; constructor.
  - destruct (String.ltb y x) eqn:E.
    + constructor; [exact IH |].
      rewrite List.Forall_forall. intros z Hz.
      apply (Permutation_in _ (insert_sorted_perm x l)) in Hz.
      destruct Hz as [<- | Hz]; [now apply ltb_asym |].
      rewrite List.Forall_forall in Hall. now apply Hall.
    + constructor; [now constructor |].
      constructor; [exact E |].
      eapply List.Forall_impl; [| exact Hall]. intros z Hz. cbv beta in Hz |- *.
      exact (ltb_false_trans x y z E Hz).
Qed.

Lemma sort_sorted (l : list string) :
  Sorted.StronglySorted (fun a b => String.ltb b a = false) (sort l).
Proof.
  induction l as [| x l IH]; simpl; [constructor |].
  now apply insert_sorted_sorted.
Qed.

Lemma adjacent_find_sorted (l : list string) :
  Sorted.StronglySorted (fun a b => String.ltb b a = false) l ->
  adjacent_find l = false <-> List.NoDup l.
Proof.
  induction 1 as [| x l Hs IH Hall]; [split; [constructor | reflexivity] |].
  destruct l as [| y l'].
  - split; [intros _; repeat constructor; intros [] | reflexivity].
  - change (adjacent_find (x :: y :: l'))
      with (String.eqb x y || adjacent_find (y :: l')).
    rewrite List.NoDup_cons_iff, orb_false_iff, IH.
    inversion Hall as [| ? ? Hxy Hxl']; subst.
    inversion Hs as [| ? ? _ Hyl']; subst.
    split.
    + intros [Hne Hnd]. split; [| exact Hnd].
      apply String.eqb_neq in Hne.
      intros [-> | Hin]; [congruence |].
      rewrite List.Forall_forall in Hyl'. specialize (Hyl' x Hin).
      cbv beta in Hyl', Hxy. apply Hne. now apply ltb_total.
    + intros [Hnin Hnd]. split; [| exact Hnd].
      apply String.eqb_neq. intros ->. apply Hnin. now left.
Qed.

(** Sorting and looking for equal neighbours detects every duplicate. *)
Lemma adjacent_find_sort (l : list string) :
  adjacent_find (sort l) = false <-> List.NoDup l.
Proof.
  rewrite (adjacent_find_sorted _ (sort_sorted l)).
  split; apply Permutation_NoDup; [apply sort_perm | symmetry; apply sort_perm].
Qed.

End StringOrder.

Section RegistryMore.

Import Registry.

Variable inet_pton : address_family -> string -> Z.

Implicit Types (r : ServiceRegistry) (pops : list Pop) (id : string)
  (snap : gmap string (list Pop)).

Lemma pop_fields_ok_iff (p : Pop) :
  pop_fields_ok inet_pton p = true <->
  validateId (Registry.id p) MaxIdLen = true /\
  validateId (region p) MaxRegionLen = true /\
  validateIp inet_pton (ip p) = true.
Proof.
  unfold pop_fields_ok.
  destruct (validateId (Registry.id p) MaxIdLen),
           (validateId (region p) MaxRegionLen),
           (validateIp inet_pton (ip p)); simpl; intuition congruence.
Qed.

(** X15 ([validatePops]).  A pop list passes exactly when it has between
    1 and 32 pops, every pop has a valid id, a valid region and an address
    [inet_pton] accepts, and no two pops of the list share an id, wherever
    in the list they stand. *)
Theorem X15_validatePops_iff pops :
  validatePops inet_pton pops = true <->
  1 <= Z.of_nat (length pops) <= MaxPopsPerService /\
  (forall p, In p pops ->
     validateId (Registry.id p) MaxIdLen = true /\
     validateId (region p) MaxRegionLen = true /\
     validateIp inet_pton (ip p) = true) /\
  List.NoDup (map Registry.id pops).
Proof.
  unfold validatePops.
  destruct (Z.eqb_spec (Z.of_nat (length pops)) 0) as [H0 | H0]; simpl.
  { split; [discriminate | lia]. }
  destruct (Z.gtb_spec (Z.of_nat (length pops)) MaxPopsPerService) as [Hg | Hg].
  { split; [discriminate | lia]. }
  destruct (forallb (pop_fields_ok inet_pton) pops) eqn:Hf; simpl.
  - rewrite List.forallb_forall in Hf.
    destruct (adjacent_find (sort (map Registry.id pops))) eqn:Ha.
    + split; [discriminate |]. intros (_ & _ & Hnd).
      apply adjacent_find_sort in Hnd. congruence.
    + split; [| reflexivity]. intros _. split; [lia |]. split.
      * intros p Hp. apply pop_fields_ok_iff, Hf, Hp.
      * now apply adjacent_find_sort.
  - split; [discriminate |]. intros (_ & Hall & _).
    assert (forallb (pop_fields_ok inet_pton) pops = true); [| congruence].
    apply List.forallb_forall. intros p Hp. apply pop_fields_ok_iff, Hall, Hp.
Qed.

(** What [mutate] has checked and done when it returns [Ok]. *)
Lemma mutate_ok (mode : Mode) id pops r r' :
  mutate inet_pton mode id pops r = (Ok, r') ->
  RegistryApi.entry_ok inet_pton id pops = true /\
  exists snap,
    snapshot r = Some snap /\
    Z.of_nat (base.size snap) <= MaxServices /\
    match mode with
    | Add => snap !! id = None /\
             r' = count_add (publish (<[id := pops]> snap) r)
    | Replace => is_Some (snap !! id) /\
                 r' = count_replace (publish (<[id := pops]> snap) r)
    | Upsert => r' = count_upsert (publish (emplace id pops snap) r)
    end.
Proof.
  unfold mutate, RegistryApi.entry_ok.
  destruct (validateId id MaxIdLen); [| discriminate].
  destruct (validatePops inet_pton pops); [| discriminate]. simpl.
  destruct (snapshot r) as [snap |] eqn:Hs; [| discriminate].
  destruct (Z.gtb_spec (Z.of_nat (base.size snap)) MaxServices) as [? | Hle];
    [discriminate |].
  intros H. split; [reflexivity |]. exists snap. split; [reflexivity |].
  split; [exact Hle |].
  destruct mode.
  - destruct (bool_decide_reflect (is_Some (snap !! id))) as [Hin | Hnin];
      [discriminate |].
    assert (Hnone : snap !! id = None)
      by (destruct (snap !! id) eqn:E; [destruct Hnin; eauto | reflexivity]).
    split; [exact Hnone |]. unfold emplace in H. rewrite Hnone in H. congruence.
  - destruct (bool_decide_reflect (is_Some (snap !! id))) as [Hin | Hnin];
      [| discriminate].
    split; [exact Hin |]. simpl in H. congruence.
  - congruence.
Qed.

Lemma init_well_formed :
  RegistryApi.well_formed inet_pton ServiceRegistry_init.
Proof.
  exists ∅. split; [reflexivity |]. split.
  - rewrite map_size_empty. unfold MaxServices. lia.
  - intros k v Hk. rewrite lookup_empty in Hk. discriminate.
Qed.

Lemma well_formed_counters r r' :
  snapshot r' = snapshot r ->
  RegistryApi.well_formed inet_pton r -> RegistryApi.well_formed inet_pton r'.
Proof. intros E (m & Hs & H). exists m. now rewrite E. Qed.

Lemma mutate_well_formed (mode : Mode) id pops r :
  RegistryApi.well_formed inet_pton r ->
  RegistryApi.well_formed inet_pton (mutate inet_pton mode id pops r).2.
Proof.
  intros Hwf.
  destruct (mutate inet_pton mode id pops r) as [e r'] eqn:E.
  destruct e;
    try (pose proof (mutate_error inet_pton mode id pops r) as Herr;
         rewrite E in Herr; simpl in Herr |- *;
         rewrite Herr by discriminate;
         now apply (well_formed_counters r)).
  simpl. destruct (mutate_ok mode id pops r r' E) as (Hok & snap & Hs & Hsz & Hm).
  destruct Hwf as (m & Hs' & _ & Hall).
  rewrite Hs in Hs'. injection Hs' as <-.
  assert (Hins : RegistryApi.well_formed inet_pton
                   (publish (<[id := pops]> snap) r)).
  { exists (<[id := pops]> snap). split; [reflexivity |]. split.
    - pose proof (map_size_insert id pops snap) as Hi.
      destruct (snap !! id); rewrite Hi; unfold MaxServices, Datatypes.id in *;
        lia.
    - intros k v Hk. destruct (decide (k = id)) as [-> | Hne].
      + rewrite lookup_insert_eq in Hk. injection Hk as <-. exact Hok.
      + rewrite lookup_insert_ne in Hk by congruence. now apply Hall. }
  destruct mode.
  - destruct Hm as [_ ->].
    now apply (well_formed_counters (publish (<[id := pops]> snap) r)).
  - destruct Hm as [_ ->].
    now apply (well_formed_counters (publish (<[id := pops]> snap) r)).
  - subst r'. apply (well_formed_counters (publish (emplace id pops snap) r));
      [reflexivity |].
    unfold emplace. destruct (snap !! id) eqn:Ei; [| exact Hins].
    exists snap. split; [reflexivity |]. split; [unfold MaxServices in *; lia |].
    exact Hall.
Qed.

Lemma step_well_formed (c : RegistryApi.call) r :
  RegistryApi.well_formed inet_pton r ->
  RegistryApi.well_formed inet_pton (RegistryApi.step inet_pton c r).2.
Proof.
  intros Hwf. destruct c as [id pops | id pops | id pops | id |]; simpl.
  - unfold addService.
    pose proof (mutate_well_formed Add id pops r Hwf).
    now destruct (mutate inet_pton Add id pops r).
  - unfold replaceService.
    pose proof (mutate_well_formed Replace id pops r Hwf).
    now destruct (mutate inet_pton Replace id pops r).
  - unfold upsertService.
    pose proof (mutate_well_formed Upsert id pops r Hwf).
    now destruct (mutate inet_pton Upsert id pops r).
  - unfold removeService. destruct Hwf as (m & Hs & Hsz & Hall). rewrite Hs.
    destruct (bool_decide (m = ∅)); [exists m; auto |].
    destruct (m !! id) eqn:Ei; [| exists m; auto].
    exists (delete id m). split; [reflexivity |]. split.
    + rewrite map_size_delete, Ei. simpl. lia.
    + intros k v Hk. apply lookup_delete_Some in Hk as [_ Hk]. now apply Hall.
  - exists ∅. split; [reflexivity |]. split.
    + rewrite map_size_empty. unfold MaxServices. lia.
    + intros k v Hk. rewrite lookup_empty in Hk. discriminate.
Qed.

Lemma run_well_formed (cs : list RegistryApi.call) r :
  RegistryApi.well_formed inet_pton r ->
  RegistryApi.well_formed inet_pton (RegistryApi.run inet_pton cs r).
Proof.
  revert r. induction cs as [| c cs IH]; intros r Hwf; simpl; [exact Hwf |].
  apply IH, step_well_formed, Hwf.
Qed.

(** X16 (what the registry never publishes).  After any sequence of
    [addService], [replaceService], [upsertService], [removeService] and
    [clear] calls on a fresh registry: the snapshot is never null; it
    never holds more than [MaxServices] + 1 = 129 services; every entry in
    it has an id and a pop list that pass validation; and so a service is
    present exactly when [getPopsCopy] returns a non-empty list. *)
Theorem X16_reachable_registry_invariant (cs : list RegistryApi.call) :
  let r := RegistryApi.run inet_pton cs ServiceRegistry_init in
  exists m : gmap string (list Pop),
    snapshot r = Some m /\
    size r <= MaxServices + 1 /\
    (forall k v, m !! k = Some v ->
       validateId k MaxIdLen = true /\ validatePops inet_pton v = true) /\
    (forall k, hasService k r = true <-> getPopsCopy k r <> []).
Proof.
  intros r.
  destruct (run_well_formed cs ServiceRegistry_init init_well_formed)
    as (m & Hs & Hsz & Hall).
  fold r in Hs. exists m. split; [exact Hs |].
  split; [unfold size; now rewrite Hs |]. split.
  - intros k v Hk. specialize (Hall k v Hk).
    unfold RegistryApi.entry_ok in Hall. now apply andb_true_iff in Hall.
  - intros k. unfold hasService, getPopsCopy. rewrite Hs.
    destruct (m !! k) as [v |] eqn:Ek.
    + rewrite bool_decide_eq_true_2 by eauto. split; [| reflexivity].
      intros _ ->. specialize (Hall k [] Ek).
      unfold RegistryApi.entry_ok in Hall. apply andb_true_iff in Hall.
      destruct Hall as [_ Hall]. discriminate Hall.
    + rewrite bool_decide_eq_false_2 by (intros [? ?]; discriminate).
      split; [discriminate | congruence].
Qed.

Lemma step_accounting (c : RegistryApi.call) r (k : Z) :
  version_ r
  = wrap64 (adds_ r + replaces_ r + upserts_ r + removes_ r + k) ->
  let r' := (RegistryApi.step inet_pton c r).2 in
  version_ r'
  = wrap64 (adds_ r' + replaces_ r' + upserts_ r' + removes_ r'
            + (k + RegistryApi.clears [c])) /\
  version_ r'
  = wrap64 (version_ r + RegistryApi.published inet_pton [c] r).
Proof.
  intros Hv.
  assert (Hmut : forall mode id pops,
             let res := mutate inet_pton mode id pops r in
             version_ res.2
             = wrap64 (adds_ res.2 + replaces_ res.2 + upserts_ res.2
                       + removes_ res.2 + k) /\
             version_ res.2
             = wrap64 (version_ r + (if RegistryApi.is_ok res.1 then 1 else 0))).
  { intros mode id pops res. subst res.
    destruct (mutate inet_pton mode id pops r) as [e r'] eqn:E.
    destruct e;
      try (pose proof (mutate_error inet_pton mode id pops r) as Herr;
           rewrite E in Herr; simpl in Herr |- *;
           rewrite Herr by discriminate; simpl; rewrite Hv;
           unfold wrap64; split; Z.div_mod_to_equations; lia).
    destruct (mutate_ok mode id pops r r' E) as (_ & snap & _ & _ & Hm).
    destruct mode; [destruct Hm as [_ ->] | destruct Hm as [_ ->] | subst r'];
      simpl; rewrite Hv; unfold wrap64; split; Z.div_mod_to_equations; lia. }
  destruct c as [id pops | id pops | id pops | id |]; simpl.
  - unfold addService. specialize (Hmut Add id pops). simpl in Hmut.
    destruct (mutate inet_pton Add id pops r) as [e r']. simpl in *.
    rewrite !Z.add_0_r. exact Hmut.
  - unfold replaceService. specialize (Hmut Replace id pops). simpl in Hmut.
    destruct (mutate inet_pton Replace id pops r) as [e r']. simpl in *.
    rewrite !Z.add_0_r. exact Hmut.
  - unfold upsertService. specialize (Hmut Upsert id pops). simpl in Hmut.
    destruct (mutate inet_pton Upsert id pops r) as [e r']. simpl in *.
    rewrite !Z.add_0_r. exact Hmut.
  - unfold removeService.
    destruct (snapshot r) as [snap |];
      [| simpl; rewrite Hv; unfold wrap64; split; Z.div_mod_to_equations; lia].
    destruct (bool_decide (snap = ∅));
      [simpl; rewrite Hv; unfold wrap64; split; Z.div_mod_to_equations; lia |].
    destruct (snap !! id); simpl; rewrite Hv; unfold wrap64; split;
      Z.div_mod_to_equations; lia.
  - rewrite Hv. unfold wrap64. split; Z.div_mod_to_equations; lia.
Qed.

Lemma run_accounting (cs : list RegistryApi.call) :
  forall r (k : Z),
    version_ r
    = wrap64 (adds_ r + replaces_ r + upserts_ r + removes_ r + k) ->
    let r' := RegistryApi.run inet_pton cs r in
    version_ r'
    = wrap64 (adds_ r' + replaces_ r' + upserts_ r' + removes_ r'
              + (k + RegistryApi.clears cs)) /\
    version_ r'
    = wrap64 (version_ r + RegistryApi.published inet_pton cs r).
Proof.
  induction cs as [| c cs IH]; intros r k Hv; cbn zeta.
  - simpl. rewrite !Z.add_0_r. split; [exact Hv |].
    rewrite Hv. unfold wrap64. now rewrite Z.mod_mod by lia.
  - destruct (step_accounting c r k Hv) as [H1 H2]. cbn zeta in H1, H2.
    destruct (IH _ _ H1) as [H3 H4]. cbn zeta in H3, H4.
    change (RegistryApi.run inet_pton (c :: cs) r)
      with (RegistryApi.run inet_pton cs (RegistryApi.step inet_pton c r).2).
    split.
    + rewrite H3. f_equal.
      assert (RegistryApi.clears (c :: cs)
              = RegistryApi.clears [c] + RegistryApi.clears cs)
        by (destruct c; simpl; lia).
      lia.
    + rewrite H4, H2.
      change (RegistryApi.published inet_pton (c :: cs) r)
        with ((if (RegistryApi.step inet_pton c r).1 then 1 else 0)
              + RegistryApi.published inet_pton cs
                  (RegistryApi.step inet_pton c r).2).
      change (RegistryApi.published inet_pton [c] r)
        with ((if (RegistryApi.step inet_pton c r).1 then 1 else 0) + 0).
      unfold wrap64. Z.div_mod_to_equations. lia.
Qed.

(** X17 (version accounting).  After any sequence of writer calls on a
    fresh registry, [version()] is the number of calls that published a
    snapshot, modulo 2^64: every [Ok] of add, replace and upsert, every
    [true] of [removeService] and every [clear] advances it by one, and no
    failed call does.  It therefore equals the sum of the four success
    counters of [stats()] plus the number of [clear] calls, modulo 2^64. *)
Theorem X17_version_counts_publications (cs : list RegistryApi.call) :
  let r := RegistryApi.run inet_pton cs ServiceRegistry_init in
  version r = wrap64 (RegistryApi.published inet_pton cs ServiceRegistry_init)
  /\
  version r
  = wrap64 (adds (stats r) + replaces (stats r) + upserts (stats r)
            + removes (stats r) + RegistryApi.clears cs).
Proof.
  destruct (run_accounting cs ServiceRegistry_init 0 eq_refl) as [H1 H2].
  cbn zeta in *. split.
  - exact H2.
  - unfold version, stats. simpl. rewrite H1. f_equal.
Qed.

Lemma lookups_of r snap :
  snapshot r = Some snap ->
  (forall k, hasService k r = bool_decide (is_Some (snap !! k))) /\
  (forall k, getPopsCopy k r = default [] (snap !! k)) /\
  size r = Z.of_nat (base.size snap).
Proof.
  intros Hs. unfold hasService, getPopsCopy, size. rewrite Hs.
  split; [reflexivity |]. split; [| reflexivity].
  intros k. now destruct (snap !! k).
Qed.

(** X18 (add, then look up).  When [addService] returns [Ok], the
    service was absent before and is present after, [getPopsCopy] returns
    exactly the list that was passed, the registry holds one service more,
    the version has advanced by one, and lookups of every other id answer
    as before. *)
Theorem X18_add_then_lookup id pops r r' :
  addService inet_pton id pops r = (Ok, r') ->
  hasService id r = false /\
  hasService id r' = true /\
  getPopsCopy id r' = pops /\
  size r' = size r + 1 /\
  version r' = wrap64 (version r + 1) /\
  forall id', id' <> id ->
    hasService id' r' = hasService id' r /\
    getPopsCopy id' r' = getPopsCopy id' r.
Proof.
  intros H. destruct (mutate_ok Add id pops r r' H) as (_ & snap & Hs & _ & Hn & ->).
  destruct (lookups_of r snap Hs) as (Hh & Hg & Hz).
  destruct (lookups_of (count_add (publish (<[id := pops]> snap) r))
              (<[id := pops]> snap) eq_refl) as (Hh' & Hg' & Hz').
  rewrite Hh, Hh', Hg', Hz, Hz', Hn, lookup_insert_eq.
  rewrite map_size_insert_None by exact Hn.
  split; [reflexivity |]. split; [reflexivity |]. split; [reflexivity |].
  split; [lia |]. split; [reflexivity |].
  intros id' Hne. rewrite Hh, Hh', Hg, Hg'.
  now rewrite lookup_insert_ne by congruence.
Qed.

(** X19 ([removeService]).  The call returns [true] exactly when the
    service was present.  A [false] return changes nothing at all, not even
    a counter.  A [true] return removes one service, advances the version
    and the removes counter by one.  Either way the service is absent
    afterwards and lookups of every other id answer as before. *)
Theorem X19_remove_service id r :
  let res := removeService id r in
  res.1 = hasService id r /\
  (res.1 = false -> res.2 = r) /\
  (res.1 = true ->
     size res.2 = size r - 1 /\
     version res.2 = wrap64 (version r + 1) /\
     removes (stats res.2) = wrap64 (removes (stats r) + 1) /\
     failures (stats res.2) = failures (stats r)) /\
  hasService id res.2 = false /\
  getPopsCopy id res.2 = [] /\
  forall id', id' <> id ->
    hasService id' res.2 = hasService id' r /\
    getPopsCopy id' res.2 = getPopsCopy id' r.
Proof.
  cbn zeta. unfold removeService.
  destruct (snapshot r) as [snap |] eqn:Hs.
  - destruct (lookups_of r snap Hs) as (Hh & Hg & Hz).
    destruct (bool_decide_reflect (snap = ∅)) as [-> | Hne].
    + simpl. rewrite Hh, Hg, lookup_empty.
      rewrite bool_decide_eq_false_2 by (intros [? ?]; discriminate).
      repeat (split; [auto; discriminate |]). auto.
    + destruct (snap !! id) as [old |] eqn:Ei.
      * destruct (lookups_of (count_remove (publish (delete id snap) r))
                    (delete id snap) eq_refl) as (Hh' & Hg' & Hz').
        cbn [fst snd]. rewrite Hh, Hh', Hg', Hz, Hz', Ei, lookup_delete_eq.
        rewrite map_size_delete_Some by eauto.
        assert (0 < base.size snap)%nat.
        { destruct (base.size snap) eqn:Ez; [| lia].
          apply map_size_empty_iff in Ez. congruence. }
        split; [symmetry; apply bool_decide_eq_true_2; eauto |].
        split; [discriminate |].
        split; [intros _; split; [lia | auto] |].
        split; [apply bool_decide_eq_false_2; intros [? ?]; discriminate |].
        split; [reflexivity |].
        intros id' Hne'. rewrite Hh, Hh', Hg, Hg'.
        now rewrite lookup_delete_ne by congruence.
      * simpl. rewrite Hh, Hg, Ei.
        rewrite bool_decide_eq_false_2 by (intros [? ?]; discriminate).
        repeat (split; [auto; discriminate |]). auto.
  - simpl. unfold hasService, getPopsCopy. rewrite Hs.
    repeat (split; [auto; discriminate |]). auto.
Qed.

(** X20 (add, then remove).  Removing a service right after a successful
    [addService] of it returns [true] and publishes a snapshot equal to the
    one before the add; the version is two steps further. *)
Theorem X20_add_remove_round_trip id pops r r' :
  addService inet_pton id pops r = (Ok, r') ->
  (removeService id r').1 = true /\
  snapshot (removeService id r').2 = snapshot r /\
  size (removeService id r').2 = size r /\
  version (removeService id r').2 = wrap64 (version r + 2).
Proof.
  intros H. destruct (mutate_ok Add id pops r r' H) as (_ & snap & Hs & _ & Hn & ->).
  unfold removeService. cbn [snapshot map_ count_add publish].
  rewrite bool_decide_eq_false_2 by apply insert_non_empty.
  rewrite lookup_insert_eq. cbn [fst snd].
  rewrite delete_insert_id by exact Hn.
  split; [reflexivity |]. split; [now rewrite Hs |].
  split.
  - unfold size. cbn [snapshot map_ count_remove publish]. now rewrite Hs.
  - unfold version. simpl. unfold wrap64. Z.div_mod_to_equations. lia.
Qed.

(** X21 (replace, then look up).  When [replaceService] returns [Ok], the
    service was present before and still is, [getPopsCopy] returns exactly
    the new list, the number of services is unchanged, the version has
    advanced by one, and lookups of every other id answer as before. *)
Theorem X21_replace_then_lookup id pops r r' :
  replaceService inet_pton id pops r = (Ok, r') ->
  hasService id r = true /\
  hasService id r' = true /\
  getPopsCopy id r' = pops /\
  size r' = size r /\
  version r' = wrap64 (version r + 1) /\
  forall id', id' <> id ->
    hasService id' r' = hasService id' r /\
    getPopsCopy id' r' = getPopsCopy id' r.
Proof.
  intros H.
  destruct (mutate_ok Replace id pops r r' H) as (_ & snap & Hs & _ & Hn & ->).
  destruct (lookups_of r snap Hs) as (Hh & Hg & Hz).
  destruct (lookups_of (count_replace (publish (<[id := pops]> snap) r))
              (<[id := pops]> snap) eq_refl) as (Hh' & Hg' & Hz').
  rewrite Hh, Hh', Hg', Hz, Hz', lookup_insert_eq.
  rewrite map_size_insert_Some by exact Hn.
  split; [now apply bool_decide_eq_true_2 |].
  split; [apply bool_decide_eq_true_2; eauto |]. split; [reflexivity |].
  split; [reflexivity |]. split; [reflexivity |].
  intros id' Hne. rewrite Hh, Hh', Hg, Hg'.
  now rewrite lookup_insert_ne by congruence.
Qed.

(** X22 ([clear], then build up again).  After [clear] the registry is
    empty: size 0, no service present, every [removeService] returns
    [false] and changes nothing; the version has advanced by one and no
    counter of [stats()] has moved.  On the cleared registry, [addService]
    and [upsertService] with a valid id and pop list return [Ok] and
    publish exactly that one service, and [replaceService] returns
    [NotFound]. *)
Theorem X22_clear_then_add id pops r :
  let r0 := clear r in
  size r0 = 0 /\
  (forall k, hasService k r0 = false /\ getPopsCopy k r0 = [] /\
             removeService k r0 = (false, r0)) /\
  version r0 = wrap64 (version r + 1) /\
  stats r0 = stats r /\
  (validateId id MaxIdLen = true -> validatePops inet_pton pops = true ->
   (addService inet_pton id pops r0).1 = Ok /\
   snapshot (addService inet_pton id pops r0).2 = Some {[ id := pops ]} /\
   (upsertService inet_pton id pops r0).1 = Ok /\
   snapshot (upsertService inet_pton id pops r0).2 = Some {[ id := pops ]} /\
   (replaceService inet_pton id pops r0).1 = NotFound).
Proof.
  cbn zeta. split; [reflexivity |]. split.
  { intros k. unfold hasService, getPopsCopy, removeService, clear. simpl.
    rewrite lookup_empty.
    rewrite bool_decide_eq_false_2 by (intros [? ?]; discriminate).
    rewrite bool_decide_eq_true_2 by reflexivity. auto. }
  split; [reflexivity |]. split; [reflexivity |].
  intros Hid Hpops.
  assert (Hsz : Z.of_nat (base.size (∅ : gmap string (list Pop))) <= MaxServices)
    by (rewrite map_size_empty; unfold MaxServices; lia).
  unfold addService, upsertService, replaceService.
  rewrite !(mutate_valid inet_pton _ id pops (clear r) ∅ Hid Hpops eq_refl Hsz).
  cbn zeta. rewrite lookup_empty.
  rewrite bool_decide_eq_false_2 by (intros [? ?]; discriminate).
  unfold emplace. rewrite lookup_empty. simpl.
  rewrite insert_empty. auto.
Qed.

End RegistryMore.

Lemma X22_clear_then_add_witness :
  Registry.validateId "svc" Registry.MaxIdLen = true /\
  Registry.validatePops Registry.inet_pton_ipv4 Registry.listB = true /\
  (Registry.addService Registry.inet_pton_ipv4 "svc" Registry.listB
     (Registry.clear Registry.registry_svc_A)).1 = Registry.Ok /\
  Registry.snapshot
    (Registry.addService Registry.inet_pton_ipv4 "svc" Registry.listB
       (Registry.clear Registry.registry_svc_A)).2
  = Some {[ "svc" := Registry.listB ]}.
Proof.
  assert (H1 : Registry.validateId "svc" Registry.MaxIdLen = true)
    by reflexivity.
  assert (H2 : Registry.validatePops Registry.inet_pton_ipv4 Registry.listB
               = true) by reflexivity.
  pose proof (X22_clear_then_add Registry.inet_pton_ipv4 "svc" Registry.listB
                Registry.registry_svc_A) as (_ & _ & _ & _ & X).
  destruct (X H1 H2) as (X1 & X2 & _).
  split; [exact H1 |]. split; [exact H2 |]. split; [exact X1 | exact X2].
Defined.

Lemma X18_add_then_lookup_witness :
  Registry.addService Registry.inet_pton_ipv4 "svc" Registry.listA
    Registry.ServiceRegistry_init
  = (Registry.Ok, Registry.registry_svc_A) /\
  Registry.getPopsCopy "svc" Registry.registry_svc_A = Registry.listA /\
  Registry.size Registry.registry_svc_A = 1.
Proof.
  assert (H : Registry.addService Registry.inet_pton_ipv4 "svc" Registry.listA
                Registry.ServiceRegistry_init
              = (Registry.Ok, Registry.registry_svc_A)) by reflexivity.
  pose proof (X18_add_then_lookup Registry.inet_pton_ipv4 "svc" Registry.listA
                Registry.ServiceRegistry_init Registry.registry_svc_A H)
    as (_ & _ & X3 & X4 & _).
  split; [exact H |]. split; [exact X3 | exact X4].
Defined.

Lemma X20_add_remove_round_trip_witness :
  Registry.addService Registry.inet_pton_ipv4 "svc" Registry.listA
    Registry.ServiceRegistry_init
  = (Registry.Ok, Registry.registry_svc_A) /\
  (Registry.removeService "svc" Registry.registry_svc_A).1 = true /\
  Registry.snapshot (Registry.removeService "svc" Registry.registry_svc_A).2
  = Registry.snapshot Registry.ServiceRegistry_init.
Proof.
  assert (H : Registry.addService Registry.inet_pton_ipv4 "svc" Registry.listA
                Registry.ServiceRegistry_init
              = (Registry.Ok, Registry.registry_svc_A)) by reflexivity.
  pose proof (X20_add_remove_round_trip Registry.inet_pton_ipv4 "svc"
                Registry.listA Registry.ServiceRegistry_init
                Registry.registry_svc_A H) as (X1 & X2 & _).
  split; [exact H |]. split; [exact X1 | exact X2].
Defined.

Lemma X21_replace_then_lookup_witness :
  Registry.replaceService Registry.inet_pton_ipv4 "svc" Registry.listB
    Registry.registry_svc_A
  = (Registry.Ok,
     (Registry.replaceService Registry.inet_pton_ipv4 "svc" Registry.listB
        Registry.registry_svc_A).2) /\
  Registry.getPopsCopy "svc"
    (Registry.replaceService Registry.inet_pton_ipv4 "svc" Registry.listB
       Registry.registry_svc_A).2
  = Registry.listB.
Proof.
  assert (H : Registry.replaceService Registry.inet_pton_ipv4 "svc"
                Registry.listB Registry.registry_svc_A
              = (Registry.Ok,
                 (Registry.replaceService Registry.inet_pton_ipv4 "svc"
                    Registry.listB Registry.registry_svc_A).2))
    by reflexivity.
  pose proof (X21_replace_then_lookup Registry.inet_pton_ipv4 "svc"
                Registry.listB Registry.registry_svc_A _ H) as (_ & _ & X3 & _).
  split; [exact H | exact X3].
Defined.

(** ** G'. The simulated BGP oracle and the ingress selector *)

Section BgpFacts.

Import Bgp.

Lemma no_worse_refl (a : SimRoute) : no_worse a a.
Proof.
  unfold no_worse. repeat (split; [lia | intros _]). apply ltb_irrefl.
Qed.

Lemma no_worse_trans (a b c : SimRoute) :
  no_worse a b -> no_worse b c -> no_worse a c.
Proof.
  unfold no_worse. intros (A1 & A2) (B1 & B2).
  split; [lia |]. intros E1.
  destruct (A2 ltac:(lia)) as (A3 & A4). destruct (B2 ltac:(lia)) as (B3 & B4).
  split; [lia |]. intros E2.
  destruct (A4 ltac:(lia)) as (A5 & A6). destruct (B4 ltac:(lia)) as (B5 & B6).
  split; [lia |]. intros E3.
  destruct (A6 ltac:(lia)) as (A7 & A8). destruct (B6 ltac:(lia)) as (B7 & B8).
  split; [lia |]. intros E4.
  apply (ltb_false_trans (pop_id a) (pop_id b) (pop_id c));
    [apply A8 | apply B8]; lia.
Qed.

Lemma no_worse_antisym (a b : SimRoute) :
  no_worse a b -> no_worse b a -> pop_id a = pop_id b.
Proof.
  unfold no_worse. intros (A1 & A2) (B1 & B2).
  destruct (A2 ltac:(lia)) as (A3 & A4). destruct (B2 ltac:(lia)) as (B3 & B4).
  destruct (A4 ltac:(lia)) as (A5 & A6). destruct (B4 ltac:(lia)) as (B5 & B6).
  destruct (A6 ltac:(lia)) as (A7 & A8). destruct (B6 ltac:(lia)) as (B7 & B8).
  apply ltb_total; [apply B8 | apply A8]; lia.
Qed.

Lemma consider_no_worse (best r : SimRoute) :
  no_worse (consider best r) best /\ no_worse (consider best r) r /\
  (consider best r = best \/ consider best r = r).
Proof.
  unfold consider.
  destruct (Z.gtb_spec (local_pref r) (local_pref best));
    [split; [| split; [apply no_worse_refl | now right]];
     unfold no_worse; split; [lia | intros; lia] |].
  destruct (Z.ltb_spec (local_pref r) (local_pref best));
    [split; [apply no_worse_refl | split; [| now left]];
     unfold no_worse; split; [lia | intros; lia] |].
  destruct (Z.ltb_spec (as_path_len r) (as_path_len best));
    [split; [| split; [apply no_worse_refl | now right]];
     unfold no_worse; split; [lia | intros _; split; [lia | intros; lia]] |].
  destruct (Z.gtb_spec (as_path_len r) (as_path_len best));
    [split; [apply no_worse_refl | split; [| now left]];
     unfold no_worse; split; [lia | intros _; split; [lia | intros; lia]] |].
  destruct (Z.ltb_spec (med r) (med best));
    [split; [| split; [apply no_worse_refl | now right]];
     unfold no_worse; do 2 (split; [lia | intros _]); split; [lia | intros; lia] |].
  destruct (Z.gtb_spec (med r) (med best));
    [split; [apply no_worse_refl | split; [| now left]];
     unfold no_worse; do 2 (split; [lia | intros _]); split; [lia | intros; lia] |].
  destruct (Z.ltb_spec (igp_cost r) (igp_cost best));
    [split; [| split; [apply no_worse_refl | now right]];
     unfold no_worse; do 3 (split; [lia | intros _]); split; [lia | intros; lia] |].
  destruct (Z.gtb_spec (igp_cost r) (igp_cost best));
    [split; [apply no_worse_refl | split; [| now left]];
     unfold no_worse; do 3 (split; [lia | intros _]); split; [lia | intros; lia] |].
  destruct (String.ltb (pop_id r) (pop_id best)) eqn:E.
  - split; [| split; [apply no_worse_refl | now right]].
    unfold no_worse. do 4 (split; [lia | intros _]). now apply ltb_asym.
  - split; [apply no_worse_refl | split; [| now left]].
    unfold no_worse. do 4 (split; [lia | intros _]). exact E.
Qed.

Lemma fold_consider (v : list SimRoute) :
  forall best,
    no_worse (fold_left consider v best) best /\
    (forall r, In r v -> no_worse (fold_left consider v best) r) /\
    (fold_left consider v best = best \/ In (fold_left consider v best) v).
Proof.
  induction v as [| r v IH]; intros best; simpl.
  - split; [apply no_worse_refl |]. split; [intros r [] | now left].
  - destruct (IH (consider best r)) as (I1 & I2 & I3).
    destruct (consider_no_worse best r) as (C1 & C2 & C3).
    split; [eapply no_worse_trans; eassumption |]. split.
    + intros r' [<- | Hr']; [eapply no_worse_trans; eassumption | now apply I2].
    + destruct I3 as [I3 | I3]; [| now right; right].
      rewrite I3. destruct C3 as [-> | ->]; [now left | now right; left].
Qed.

(** X23 ([SimulatedBgpOracle::serving_pop], best path).  The oracle has no
    answer exactly when the service has no route list or an empty one.
    Otherwise it answers with the PoP of a route of that list which no
    route of the list beats: none has a higher local-pref; among those of
    equal local-pref none has a shorter AS path; then none a lower MED;
    then none a lower IGP cost; and among routes equal in all four none
    has a smaller PoP id. *)
Theorem X23_serving_pop_best_path (o : SimulatedBgpOracle)
  (serviceId clientSrcIp : string) :
  match sim_serving_pop o serviceId clientSrcIp with
  | None => routes_ o !! serviceId = None \/ routes_ o !! serviceId = Some []
  | Some p =>
      exists v b,
        routes_ o !! serviceId = Some v /\ In b v /\ pop_id b = p /\
        forall r, In r v ->
          local_pref r <= local_pref b /\
          (local_pref r = local_pref b ->
           as_path_len b <= as_path_len r /\
           (as_path_len r = as_path_len b ->
            med b <= med r /\
            (med r = med b ->
             igp_cost b <= igp_cost r /\
             (igp_cost r = igp_cost b ->
              String.ltb (pop_id r) (pop_id b) = false))))
  end.
Proof.
  unfold sim_serving_pop.
  destruct (routes_ o !! serviceId) as [v |]; [| now left].
  destruct v as [| front v']; [now right |].
  destruct (fold_consider (front :: v') front) as (_ & Hall & Hin).
  exists (front :: v'), (fold_left consider (front :: v') front).
  split; [reflexivity |]. split; [| split; [reflexivity | exact Hall]].
  destruct Hin as [-> | Hin]; [now left | exact Hin].
Qed.

(** X24 ([serving_pop] does not depend on the order of the routes).  Two
    route tables that list the same routes for a service, in any order,
    give the same answer for it, whatever client address is passed. *)
Theorem X24_serving_pop_order_independent (o o' : SimulatedBgpOracle)
  (serviceId ip ip' : string) (v v' : list SimRoute) :
  routes_ o !! serviceId = Some v ->
  routes_ o' !! serviceId = Some v' ->
  Permutation v v' ->
  sim_serving_pop o serviceId ip = sim_serving_pop o' serviceId ip'.
Proof.
  intros Hv Hv' Hp. unfold sim_serving_pop. rewrite Hv, Hv'.
  destruct v as [| f v1].
  { apply Permutation_nil in Hp. now subst v'. }
  destruct v' as [| f' v1'].
  { symmetry in Hp. apply Permutation_nil in Hp. discriminate. }
  f_equal.
  destruct (fold_consider (f :: v1) f) as (_ & Hall & Hin).
  destruct (fold_consider (f' :: v1') f') as (_ & Hall' & Hin').
  assert (Hb : In (fold_left consider (f :: v1) f) (f :: v1))
    by (destruct Hin as [-> | Hin]; [now left | exact Hin]).
  assert (Hb' : In (fold_left consider (f' :: v1') f') (f' :: v1'))
    by (destruct Hin' as [-> | Hin']; [now left | exact Hin']).
  apply no_worse_antisym.
  - apply Hall. eapply Permutation_in; [symmetry; exact Hp | exact Hb'].
  - apply Hall'. eapply Permutation_in; [exact Hp | exact Hb].
Qed.

End BgpFacts.

Lemma X24_serving_pop_order_independent_witness :
  Bgp.routes_ Bgp.sample_oracle !! "svc" = Some Bgp.sample_routes /\
  Bgp.routes_ {| Bgp.routes_ := {[ "svc" := rev Bgp.sample_routes ]} |}
    !! "svc" = Some (rev Bgp.sample_routes) /\
  Permutation Bgp.sample_routes (rev Bgp.sample_routes) /\
  Bgp.sim_serving_pop Bgp.sample_oracle "svc" "192.0.2.1"
  = Bgp.sim_serving_pop
      {| Bgp.routes_ := {[ "svc" := rev Bgp.sample_routes ]} |} "svc" "".
Proof.
  assert (H1 : Bgp.routes_ Bgp.sample_oracle !! "svc"
               = Some Bgp.sample_routes) by reflexivity.
  assert (H2 : Bgp.routes_
                 {| Bgp.routes_ := {[ "svc" := rev Bgp.sample_routes ]} |}
                 !! "svc" = Some (rev Bgp.sample_routes)) by reflexivity.
  assert (H3 : Permutation Bgp.sample_routes (rev Bgp.sample_routes))
    by apply Permutation_rev.
  split; [exact H1 |]. split; [exact H2 |]. split; [exact H3 |].
  exact (X24_serving_pop_order_independent _ _ "svc" "192.0.2.1" "" _ _
           H1 H2 H3).
Defined.

Section IngressFacts.

Import Ingress.

Context {Oracle : Type} `{Bgp.BgpOracle Oracle}.

Implicit Types (s : IngressSelector Oracle) (ids : list string).

Lemma ids_at_In ids (k : Z) :
  0 <= k < Z.of_nat (length ids) -> In (ids_at ids k) ids.
Proof. intros Hk. unfold ids_at. apply nth_In. lia. Qed.

(** The local policy answers with one of the ids it is given. *)
Lemma choose_policy_deterministic_in ids (flow_hash : Z) s :
  ids <> [] -> In (choose_policy_deterministic ids flow_hash s).1 ids.
Proof.
  intros Hne. unfold choose_policy_deterministic.
  destruct ids as [| i0 ids'] eqn:E; [congruence |]. rewrite <- E.
  assert (0 < Z.of_nat (length ids)) by (rewrite E; simpl; lia).
  destruct (strategy (cfg_ s)); simpl; apply ids_at_In, Z.mod_pos_bound; lia.
Qed.

(** The oracle has no say in this call. *)
Lemma chooseIngress_local (serviceId : string) s :
  (forall o, mode (cfg_ s) = RouteInformed -> oracle_ s = Some o ->
             Bgp.serving_pop o serviceId EmptyString = None) ->
  chooseIngress serviceId s
  = choose_policy_deterministic (map Registry.id (pops_ s)) 0 s.
Proof.
  intros Hloc. unfold chooseIngress.
  destruct (mode (cfg_ s)); [reflexivity |].
  destruct (oracle_ s) as [o |]; [| reflexivity].
  now rewrite (Hloc o eq_refl eq_refl).
Qed.

Lemma chooseIngress_n_round_robin (n : nat) (serviceId : string) :
  forall s,
    strategy (cfg_ s) = RoundRobin ->
    pops_ s <> [] ->
    0 <= rr_ s < 2 ^ 64 ->
    (forall o, mode (cfg_ s) = RouteInformed -> oracle_ s = Some o ->
               Bgp.serving_pop o serviceId EmptyString = None) ->
    (chooseIngress_n n serviceId s).1
    = map (fun j => ids_at (map Registry.id (pops_ s))
                      (wrap64 (rr_ s + Z.of_nat j)
                       mod Z.of_nat (length (pops_ s))))
          (seq 0 n) /\
    rr_ (chooseIngress_n n serviceId s).2 = wrap64 (rr_ s + Z.of_nat n) /\
    pops_ (chooseIngress_n n serviceId s).2 = pops_ s.
Proof.
  induction n as [| n IH]; intros s Hrr Hne Hr Hloc.
  - simpl. split; [reflexivity |]. split; [| reflexivity].
    rewrite Z.add_0_r. symmetry. apply wrap64_small. exact Hr.
  - cbn [chooseIngress_n]. rewrite (chooseIngress_local serviceId s Hloc).
    unfold choose_policy_deterministic. rewrite Hrr.
    destruct (map Registry.id (pops_ s)) as [| i0 ids'] eqn:E.
    { destruct (pops_ s); [congruence | discriminate]. }
    rewrite <- E. rewrite length_map.
    specialize (IH (bump_rr s) Hrr Hne).
    destruct IH as (I1 & I2 & I3).
    { simpl. unfold wrap64. apply Z.mod_pos_bound. lia. }
    { exact Hloc. }
    destruct (chooseIngress_n n serviceId (bump_rr s)) as [ps s2].
    cbn [fst snd] in *. split; [| split].
    + cbn [seq map]. f_equal.
      * rewrite Z.add_0_r, wrap64_small by exact Hr. reflexivity.
      * rewrite I1, <- seq_shift, map_map. apply map_ext. intros j.
        cbn [bump_rr pops_ rr_]. do 2 f_equal.
        unfold wrap64. Z.div_mod_to_equations. lia.
    + rewrite I2. cbn [bump_rr rr_]. unfold wrap64.
      Z.div_mod_to_equations. lia.
    + exact I3.
Qed.

(** X25 (round-robin ingress).  With the [RoundRobin] strategy, a loaded
    PoP list and no oracle answer for the service, the [j]-th of any number
    of consecutive [chooseIngress] calls returns the PoP at index
    [(rr + j) mod 2^64 mod n] and the counter advances by one per call.  In
    particular, when the counter does not wrap, [n] consecutive calls
    return every PoP of the list exactly once: the list itself, rotated by
    [rr mod n]. *)
Theorem X25_ingress_round_robin (k : nat) (serviceId : string) s :
  strategy (cfg_ s) = RoundRobin ->
  pops_ s <> [] ->
  0 <= rr_ s < 2 ^ 64 ->
  (forall o, mode (cfg_ s) = RouteInformed -> oracle_ s = Some o ->
             Bgp.serving_pop o serviceId EmptyString = None) ->
  let ids := map Registry.id (pops_ s) in
  let n := length (pops_ s) in
  (chooseIngress_n k serviceId s).1
  = map (fun j => ids_at ids (wrap64 (rr_ s + Z.of_nat j) mod Z.of_nat n))
        (seq 0 k) /\
  rr_ (chooseIngress_n k serviceId s).2 = wrap64 (rr_ s + Z.of_nat k) /\
  (rr_ s + Z.of_nat n <= 2 ^ 64 ->
   let a := Z.to_nat (rr_ s mod Z.of_nat n) in
   (chooseIngress_n n serviceId s).1 = drop a ids ++ take a ids /\
   Permutation (chooseIngress_n n serviceId s).1 ids).
Proof.
  intros Hrr Hne Hr Hloc ids n.
  destruct (chooseIngress_n_round_robin k serviceId s Hrr Hne Hr Hloc)
    as (K1 & K2 & _).
  split; [exact K1 |]. split; [exact K2 |].
  intros Hnw a.
  destruct (chooseIngress_n_round_robin n serviceId s Hrr Hne Hr Hloc)
    as (N1 & _ & _).
  assert (Hn : 0 < Z.of_nat n)
    by (subst n; destruct (pops_ s); [congruence | simpl; lia]).
  assert (Hlen : length ids = n) by (subst ids n; apply length_map).
  pose proof (Z.mod_pos_bound (rr_ s) (Z.of_nat n) Hn) as Hmod.
  assert (Ha : Z.of_nat a = rr_ s mod Z.of_nat n) by (subst a; lia).
  assert (Erot : (chooseIngress_n n serviceId s).1 = drop a ids ++ take a ids).
  { rewrite N1. fold ids n.
    apply list_eq. intros i.
    rewrite list_lookup_fmap.
    destruct (decide (i < n)%nat) as [Hi | Hi].
    - rewrite lookup_seq_lt by exact Hi. simpl.
      rewrite wrap64_small by lia.
      unfold ids_at. rewrite nth_lookup.
      pose proof (Z.mod_pos_bound (rr_ s + Z.of_nat i) (Z.of_nat n) Hn) as Hq.
      destruct (lookup_lt_is_Some_2 ids
                  (Z.to_nat ((rr_ s + Z.of_nat i) mod Z.of_nat n))
                  ltac:(lia)) as [x Hx].
      rewrite Hx. simpl. rewrite <- Hx. symmetry.
      destruct (decide (i < n - a)%nat) as [Hlo | Hhi].
      + rewrite lookup_app_l by (rewrite length_drop; lia).
        rewrite lookup_drop. f_equal.
        assert ((rr_ s + Z.of_nat i) mod Z.of_nat n = Z.of_nat a + Z.of_nat i).
        { rewrite <- Z.add_mod_idemp_l by lia. rewrite <- Ha.
          apply Z.mod_small. lia. }
        lia.
      + rewrite lookup_app_r by (rewrite length_drop; lia).
        rewrite length_drop, lookup_take_lt by lia. f_equal.
        assert ((rr_ s + Z.of_nat i) mod Z.of_nat n
                = Z.of_nat a + Z.of_nat i - Z.of_nat n).
        { rewrite <- Z.add_mod_idemp_l by lia. rewrite <- Ha.
          symmetry. apply Z.mod_unique with (q := 1); lia. }
        lia.
    - rewrite lookup_seq_ge by lia. simpl. symmetry.
      apply lookup_ge_None_2.
      rewrite length_app, length_drop, length_take. lia. }
  split; [exact Erot |].
  rewrite Erot. rewrite Permutation_app_comm. now rewrite take_drop.
Qed.

(** X26 (where an ingress answer can come from).  Whatever the mode,
    strategy, counter and oracle, [chooseIngress(serviceId, clientSrcIp)]
    returns the oracle's answer for the service (asked with or without the
    client address), or the id of a loaded PoP, or the empty string when no
    PoP is loaded.  In [PolicyDeterministic] mode the oracle is never
    asked; there, with a hash strategy, every call returns the same PoP,
    [ids[mix(0, seed) mod n]], whatever the service and the client, and
    leaves the selector as it was. *)
Theorem X26_choose_ingress_sources (serviceId clientSrcIp : string) s :
  let ids := map Registry.id (pops_ s) in
  let p := (chooseIngress_ip serviceId clientSrcIp s).1 in
  ((exists o, mode (cfg_ s) = RouteInformed /\ oracle_ s = Some o /\
              (Bgp.serving_pop o serviceId clientSrcIp = Some p \/
               Bgp.serving_pop o serviceId EmptyString = Some p)) \/
   In p ids \/
   (pops_ s = [] /\ p = EmptyString)) /\
  (mode (cfg_ s) = PolicyDeterministic ->
   chooseIngress_ip serviceId clientSrcIp s
   = choose_policy_deterministic ids 0 s /\
   (pops_ s <> [] -> In p ids) /\
   (strategy (cfg_ s) <> RoundRobin -> pops_ s <> [] ->
    chooseIngress_ip serviceId clientSrcIp s
    = (ids_at ids (mix 0 (seed (cfg_ s)) mod Z.of_nat (length ids)), s))).
Proof.
  intros ids p.
  assert (Hlocal : In (choose_policy_deterministic ids 0 s).1 ids \/
                   (pops_ s = [] /\
                    (choose_policy_deterministic ids 0 s).1 = EmptyString)).
  { destruct (pops_ s) as [| p0 ps] eqn:E.
    - right. split; [reflexivity |]. reflexivity.
    - left. apply choose_policy_deterministic_in. discriminate. }
  assert (H1 : forall q, (chooseIngress serviceId s).1 = q ->
             (exists o, mode (cfg_ s) = RouteInformed /\ oracle_ s = Some o /\
                        Bgp.serving_pop o serviceId EmptyString = Some q) \/
             In q ids \/ (pops_ s = [] /\ q = EmptyString)).
  { intros q <-. unfold chooseIngress. fold ids.
    destruct (mode (cfg_ s)) eqn:Em; [right; tauto |].
    destruct (oracle_ s) as [o |] eqn:Eo; [| right; tauto].
    destruct (Bgp.serving_pop o serviceId EmptyString) as [pop |] eqn:Es;
      [| right; tauto].
    left. exists o. auto. }
  split.
  - subst p. unfold chooseIngress_ip.
    destruct (mode (cfg_ s)) eqn:Em.
    + destruct (H1 _ eq_refl) as [(o & Hm & _) | Hr]; [congruence | now right].
    + destruct (oracle_ s) as [o |] eqn:Eo.
      * destruct (Bgp.serving_pop o serviceId clientSrcIp) as [pop |] eqn:Es.
        { left. exists o. auto. }
        destruct (H1 _ eq_refl) as [(o' & _ & Ho' & Hs') | Hr]; [| now right].
        left. exists o'. auto.
      * destruct (H1 _ eq_refl) as [(o' & _ & Ho' & _) | Hr];
          [congruence | now right].
  - intros Hm.
    assert (E : chooseIngress_ip serviceId clientSrcIp s
                = choose_policy_deterministic ids 0 s).
    { unfold chooseIngress_ip, chooseIngress. now rewrite Hm. }
    split; [exact E |]. split.
    + intros Hne. subst p. rewrite E.
      destruct Hlocal as [Hin | [He _]]; [exact Hin | congruence].
    + intros Hs Hne. rewrite E. unfold choose_policy_deterministic.
      destruct ids as [| i0 ids'] eqn:Ei.
      { subst ids. destruct (pops_ s); [congruence | discriminate]. }
      destruct (strategy (cfg_ s)); [congruence | reflexivity | reflexivity].
Qed.

End IngressFacts.

Lemma X26_choose_ingress_sources_witness :
  let s := Ingress.update_config
             {| Ingress.mode := Ingress.PolicyDeterministic;
                Ingress.strategy := Ingress.HashSourceIP;
                Ingress.seed := Ingress.seed Ingress.IngressConfig_init |}
             Ingress.sample_selector in
  Ingress.mode (Ingress.cfg_ s) = Ingress.PolicyDeterministic /\
  Ingress.strategy (Ingress.cfg_ s) <> Ingress.RoundRobin /\
  Ingress.pops_ s <> [] /\
  Ingress.chooseIngress_ip "svc" "192.0.2.1" s
  = (Ingress.ids_at (map Registry.id Ingress.three_pops)
       (Ingress.mix 0 (Ingress.seed Ingress.IngressConfig_init) mod 3), s).
Proof.
  intros s.
  assert (H1 : Ingress.mode (Ingress.cfg_ s) = Ingress.PolicyDeterministic)
    by reflexivity.
  assert (H2 : Ingress.strategy (Ingress.cfg_ s) <> Ingress.RoundRobin)
    by discriminate.
  assert (H3 : Ingress.pops_ s <> []) by discriminate.
  pose proof (X26_choose_ingress_sources "svc" "192.0.2.1" s) as [_ X].
  destruct (X H1) as (_ & _ & X3).
  split; [exact H1 |]. split; [exact H2 |]. split; [exact H3 |].
  exact (X3 H2 H3).
Defined.

Lemma X25_ingress_round_robin_witness :
  Ingress.strategy (Ingress.cfg_ Ingress.sample_selector) = Ingress.RoundRobin /\
  Ingress.pops_ Ingress.sample_selector <> [] /\
  0 <= Ingress.rr_ Ingress.sample_selector < 2 ^ 64 /\
  (Ingress.chooseIngress_n 3 "svc" Ingress.sample_selector).1
  = ["p2"; "p3"; "p1"]%string /\
  Permutation (Ingress.chooseIngress_n 3 "svc" Ingress.sample_selector).1
    (map Registry.id Ingress.three_pops).
Proof.
  assert (H1 : Ingress.strategy (Ingress.cfg_ Ingress.sample_selector)
               = Ingress.RoundRobin) by reflexivity.
  assert (H2 : Ingress.pops_ Ingress.sample_selector <> []) by discriminate.
  assert (H3 : 0 <= Ingress.rr_ Ingress.sample_selector < 2 ^ 64)
    by (simpl; lia).
  assert (H4 : forall o : Bgp.SimulatedBgpOracle,
             Ingress.mode (Ingress.cfg_ Ingress.sample_selector)
             = Ingress.RouteInformed ->
             Ingress.oracle_ Ingress.sample_selector = Some o ->
             Bgp.serving_pop o "svc" EmptyString = None)
    by (intros o Hm; discriminate Hm).
  pose proof (X25_ingress_round_robin 3 "svc" Ingress.sample_selector
                H1 H2 H3 H4) as (_ & _ & X).
  destruct X as [X1 X2]; [simpl; lia |].
  split; [exact H1 |]. split; [exact H2 |]. split; [exact H3 |].
  split; [exact X1 | exact X2].
Defined.

(** ** H'. QoS choice and failover decisions *)

Section QosFacts.

Import Qos.

Variable cfg : QoSConfig.
Variable clazz : QoSClass.

Lemma keep_better_Some (best : option QoSScore) (s : QoSScore) :
  keep_better best s = Some s \/
  (keep_better best s = best /\ is_Some best).
Proof.
  unfold keep_better. destruct best as [b |]; [| now left].
  destruct (PrimFloat.ltb (score b) (score s)); [now left | right; eauto].
Qed.

Lemma first_pass_spec (req : bool) (l : list PathMetrics) :
  forall best0,
    match fold_left (first_pass_step cfg clazz req) l best0 with
    | Some s =>
        best0 = Some s \/
        exists pm, In pm l /\ s = score_path cfg pm clazz /\
                   (req = true -> within_thresholds s = true)
    | None =>
        best0 = None /\
        forall pm, In pm l ->
          req = true /\ within_thresholds (score_path cfg pm clazz) = false
    end.
Proof.
  induction l as [| a l IH]; intros best0; simpl.
  - destruct best0; [now left | split; [reflexivity | intros ? []]].
  - specialize (IH (first_pass_step cfg clazz req best0 a)).
    destruct (fold_left _ l _) as [s |].
    + destruct IH as [E | (pm & Hin & Hs & Hw)];
        [| right; exists pm; auto].
      unfold first_pass_step in E.
      destruct (req && negb (within_thresholds (score_path cfg a clazz)))
        eqn:Hskip; [now left |].
      destruct (keep_better_Some best0 (score_path cfg a clazz))
        as [K | [K _]]; rewrite K in E; [| now left].
      injection E as <-. right. exists a. split; [now left |].
      split; [reflexivity |]. intros ->. simpl in Hskip.
      now apply negb_false_iff in Hskip.
    + destruct IH as [E Hall]. unfold first_pass_step in E.
      destruct (req && negb (within_thresholds (score_path cfg a clazz)))
        eqn:Hskip.
      * split; [exact E |]. intros pm [<- | Hin]; [| now apply Hall].
        apply andb_true_iff in Hskip as [-> Hn].
        now apply negb_true_iff in Hn.
      * destruct (keep_better_Some best0 (score_path cfg a clazz))
          as [K | [K [b Hb]]]; rewrite K in E; congruence.
Qed.

Lemma fallback_spec (l : list PathMetrics) :
  forall best0,
    match fold_left (fallback_step cfg clazz) l best0 with
    | Some s =>
        best0 = Some s \/ exists pm, In pm l /\ s = score_path cfg pm clazz
    | None => best0 = None /\ l = []
    end.
Proof.
  induction l as [| a l IH]; intros best0; simpl.
  - destruct best0; [now left | now split].
  - specialize (IH (fallback_step cfg clazz best0 a)).
    destruct (fold_left _ l _) as [s |].
    + destruct IH as [E | (pm & Hin & Hs)]; [| right; exists pm; auto].
      change (keep_better best0 (score_path cfg a clazz) = Some s) in E.
      destruct (keep_better_Some best0 (score_path cfg a clazz))
        as [K | [K _]]; rewrite K in E; [| now left].
      injection E as <-. right. exists a. split; [now left | reflexivity].
    + destruct IH as [E _].
      change (keep_better best0 (score_path cfg a clazz) = None) in E.
      destruct (keep_better_Some best0 (score_path cfg a clazz))
        as [K | [K [b Hb]]]; rewrite K in E; congruence.
Qed.

(** X27 ([QoSPolicy::choose_best] never blackholes).  The call has no
    answer exactly when there is no candidate.  An answer is always the
    score [score_path] computes for one of the candidates.  When compliance
    is required and some candidate is within its thresholds, the answer is
    within thresholds; when none is, the call still answers, from all the
    candidates. *)
Theorem X27_choose_best_answers (candidates : list PathMetrics)
  (require_within_thresholds : bool) :
  let r := choose_best cfg candidates clazz require_within_thresholds in
  (r = None <-> candidates = []) /\
  (forall s, r = Some s ->
     exists pm, In pm candidates /\ s = score_path cfg pm clazz) /\
  (require_within_thresholds = true ->
   (exists pm, In pm candidates /\
               within_thresholds (score_path cfg pm clazz) = true) ->
   exists s, r = Some s /\ within_thresholds s = true).
Proof.
  cbn zeta. unfold choose_best.
  pose proof (first_pass_spec require_within_thresholds candidates None) as F.
  destruct (fold_left (first_pass_step cfg clazz require_within_thresholds)
              candidates None) as [s |].
  - rewrite bool_decide_eq_true_2 by eauto. cbn [negb andb].
    destruct F as [F | (pm & Hin & Hs & Hw)]; [discriminate |].
    split; [| split].
    + split; [discriminate |]. intros ->. destruct Hin.
    + intros s' [= <-]. exists pm. auto.
    + intros Hreq _. exists s. auto.
  - rewrite bool_decide_eq_false_2 by (intros [? ?]; discriminate).
    cbn [negb andb]. destruct F as [_ Hall].
    destruct require_within_thresholds.
    + pose proof (fallback_spec candidates None) as B.
      destruct (fold_left (fallback_step cfg clazz) candidates None) as [s |].
      * destruct B as [B | (pm & Hin & Hs)]; [discriminate |].
        split; [| split].
        -- split; [discriminate |]. intros ->. destruct Hin.
        -- intros s' [= <-]. exists pm. auto.
        -- intros _ (pm' & Hin' & Hw').
           destruct (Hall pm' Hin') as [_ Hf]. congruence.
      * destruct B as [_ ->].
        split; [tauto |]. split; [discriminate |].
        intros _ (pm' & [] & _).
    + assert (candidates = []) as ->.
      { destruct candidates as [| pm l]; [reflexivity |].
        destruct (Hall pm (or_introl eq_refl)). discriminate. }
      split; [tauto |]. split; [discriminate |]. discriminate.
Qed.

End QosFacts.

Section FailoverFacts.

Import Failover.

Implicit Types (scores : list Qos.QoSScore) (health : list PathHealth).

Lemma best_step_spec health scores :
  forall best0,
    match fold_left (best_step health) scores best0 with
    | Some s =>
        best0 = Some s \/
        (In s scores /\ is_Down (state_of (Qos.sc_path_id s) health) = false)
    | None =>
        best0 = None /\
        forall s, In s scores ->
          is_Down (state_of (Qos.sc_path_id s) health) = true
    end.
Proof.
  induction scores as [| a l IH]; intros best0; simpl.
  - destruct best0; [now left | split; [reflexivity | intros ? []]].
  - specialize (IH (best_step health best0 a)).
    destruct (fold_left _ l _) as [s |].
    + destruct IH as [E | [Hin Hs]]; [| right; auto].
      unfold best_step in E.
      destruct (is_Down (state_of (Qos.sc_path_id a) health)) eqn:Hd;
        [now left |].
      destruct best0 as [b |].
      * destruct (PrimFloat.ltb (Qos.score b) (Qos.score a));
          [| now left].
        injection E as <-. right. auto.
      * injection E as <-. right. auto.
    + destruct IH as [E Hall]. unfold best_step in E.
      destruct (is_Down (state_of (Qos.sc_path_id a) health)) eqn:Hd.
      * split; [exact E |]. intros s [<- | Hin]; [exact Hd | now apply Hall].
      * destruct best0 as [b |]; [| discriminate].
        destruct (PrimFloat.ltb (Qos.score b) (Qos.score a)); discriminate.
Qed.

Lemma find_score_Some scores (id : string) (s : Qos.QoSScore) :
  find_score scores id = Some s -> In s scores /\ Qos.sc_path_id s = id.
Proof.
  intros E. apply List.find_some in E as [Hin He].
  split; [exact Hin | now apply String.eqb_eq].
Qed.

Lemma find_score_None scores (id : string) (s : Qos.QoSScore) :
  find_score scores id = None -> In s scores -> Qos.sc_path_id s <> id.
Proof.
  intros E Hin. apply String.eqb_neq.
  exact (List.find_none _ _ E s Hin).
Qed.

(** X28 (a failover decision is always a live, scored, different path).
    Whenever [FailoverPolicy::evaluate] recommends a switch, whatever the
    configuration, scores, health list and time: the path it names is not
    the current one, it is one of the scored candidates, and its health
    state is not [Down]. *)
Theorem X28_failover_target_is_live (cfg : FailoverConfig) (current : string)
  scores health (now : Z) (d : FailoverDecision) :
  evaluate cfg current scores health now = Some d ->
  next_path_id d <> current /\
  (exists s, In s scores /\ Qos.sc_path_id s = next_path_id d) /\
  state_of (next_path_id d) health <> Down.
Proof.
  unfold evaluate.
  pose proof (best_step_spec health scores None) as B.
  destruct (fold_left (best_step health) scores None) as [best |];
    [| discriminate].
  destruct B as [B | [Hin Hlive]]; [discriminate |].
  assert (Hnd : forall id, is_Down (state_of id health) = false ->
                           state_of id health <> Down)
    by (intros id Hf Hd; rewrite Hd in Hf; discriminate).
  destruct (is_Down (state_of current health)) eqn:Hcur.
  { intros [= <-]. simpl. split; [| split; [eauto | auto]].
    intros E. rewrite E in Hlive. congruence. }
  destruct (find_score scores current) as [cur |] eqn:Hsc.
  2:{ intros [= <-]. simpl. split; [| split; [eauto | auto]].
      now apply (find_score_None scores current best Hsc). }
  destruct (negb (String.eqb (Qos.sc_path_id best) current)
            && PrimFloat.leb _ (Qos.score best)
            && allow_switch _ now (min_hold_ms cfg)) eqn:Hsw.
  { intros [= <-]. simpl. split; [| split; [eauto | auto]].
    apply andb_true_iff in Hsw as [Hsw _].
    apply andb_true_iff in Hsw as [Hsw _].
    apply negb_true_iff in Hsw. now apply String.eqb_neq. }
  destruct (return_to_primary cfg
            && negb (String.eqb (primary_path_id cfg) EmptyString)
            && negb (String.eqb (primary_path_id cfg) current)) eqn:Hrp;
    [| discriminate].
  destruct (find_score scores (primary_path_id cfg)) as [p |] eqn:Hp;
    [| discriminate].
  destruct (negb (is_Down (state_of (primary_path_id cfg) health))
            && PrimFloat.leb (Qos.score best) (Qos.score p)
            && allow_switch _ now (recovery_hold_ms cfg)) eqn:Hok;
    [| discriminate].
  intros [= <-]. simpl.
  apply andb_true_iff in Hrp as [_ Hne]. apply negb_true_iff in Hne.
  apply andb_true_iff in Hok as [Hok _].
  apply andb_true_iff in Hok as [Hok _]. apply negb_true_iff in Hok.
  destruct (find_score_Some scores _ p Hp) as [Hpin Hpid].
  split; [now apply String.eqb_neq |]. split; [eauto | auto].
Qed.



(** X30 (a path that went down is left at once).  When the current path
    is [Down] or unknown to the health list, [evaluate] ignores scores
    margins and hold timers: if some scored candidate is not [Down] it
    recommends one of them with reason "current_down"; if every scored
    candidate is [Down] it recommends nothing. *)
Theorem X30_failover_on_down (cfg : FailoverConfig) (current : string)
  scores health (now : Z) :
  state_of current health = Down ->
  ((exists s, In s scores /\ state_of (Qos.sc_path_id s) health <> Down) ->
   exists b, In b scores /\ state_of (Qos.sc_path_id b) health <> Down /\
     evaluate cfg current scores health now
     = Some {| next_path_id := Qos.sc_path_id b; reason := "current_down" |})
  /\
  ((forall s, In s scores -> state_of (Qos.sc_path_id s) health = Down) ->
   evaluate cfg current scores health now = None).
Proof.
  intros Hcur. unfold evaluate. rewrite Hcur. cbn [is_Down].
  pose proof (best_step_spec health scores None) as B.
  destruct (fold_left (best_step health) scores None) as [best |].
  - destruct B as [B | [Hin Hlive]]; [discriminate |].
    assert (Hb : state_of (Qos.sc_path_id best) health <> Down)
      by (intros Hd; rewrite Hd in Hlive; discriminate).
    split.
    + intros _. exists best. auto.
    + intros Hall. now specialize (Hall best Hin).
  - destruct B as [_ Hall]. split; [| reflexivity].
    intros (s & Hin & Hs). specialize (Hall s Hin).
    destruct (state_of (Qos.sc_path_id s) health); simpl in Hall; congruence.
Qed.

End FailoverFacts.

Lemma X27_choose_best_answers_witness :
  Qos.within_thresholds
    (Qos.score_path Qos.QoSConfig_init Qos.good_path Qos.Realtime) = true /\
  exists s,
    Qos.choose_best Qos.QoSConfig_init [Qos.slow_path; Qos.good_path]
      Qos.Realtime true = Some s /\
    Qos.within_thresholds s = true.
Proof.
  assert (H : Qos.within_thresholds
                (Qos.score_path Qos.QoSConfig_init Qos.good_path Qos.Realtime)
              = true) by reflexivity.
  split; [exact H |].
  apply (X27_choose_best_answers Qos.QoSConfig_init Qos.Realtime
           [Qos.slow_path; Qos.good_path] true); [reflexivity |].
  exists Qos.good_path. split; [simpl; auto | exact H].
Defined.

Lemma X28_failover_target_is_live_witness :
  Failover.evaluate Failover.FailoverConfig_init "pop-a"
    Failover.sample_scores Failover.sample_health 5000
  = Some {| Failover.next_path_id := "pop-b";
            Failover.reason := "current_down" |} /\
  Failover.state_of "pop-b" Failover.sample_health <> Failover.Down.
Proof.
  assert (H : Failover.evaluate Failover.FailoverConfig_init "pop-a"
                Failover.sample_scores Failover.sample_health 5000
              = Some {| Failover.next_path_id := "pop-b";
                        Failover.reason := "current_down" |})
    by reflexivity.
  split; [exact H |].
  apply (X28_failover_target_is_live _ _ _ _ _ _ H).
Defined.


Lemma X30_failover_on_down_witness :
  Failover.state_of "pop-a" Failover.sample_health = Failover.Down /\
  exists b, In b Failover.sample_scores /\
    Failover.evaluate Failover.FailoverConfig_init "pop-a"
      Failover.sample_scores Failover.sample_health 5000
    = Some {| Failover.next_path_id := Qos.sc_path_id b;
              Failover.reason := "current_down" |}.
Proof.
  assert (H : Failover.state_of "pop-a" Failover.sample_health
              = Failover.Down) by reflexivity.
  split; [exact H |].
  destruct (X30_failover_on_down Failover.FailoverConfig_init "pop-a"
              Failover.sample_scores Failover.sample_health 5000 H)
    as [X _].
  destruct X as (b & Hb & _ & E).
  - eexists. split; [right; left; reflexivity | discriminate].
  - exists b. split; [exact Hb | exact E].
Defined.
